(** * ShortsRanker: a shallow embedding of the media pipeline, the narration
    generator, the speech synthesizer, the two API routes and the page that
    calls them.

    Conventions of the embedding.
    - A JavaScript string is the list of its UTF-16 code units ([jsstring]).
    - A JavaScript number is an IEEE-754 binary64 value, carried as a
      [spec_float] and computed with the operations of [SpecFloat] at
      precision 53 and maximal exponent 1024.  Numbers that only ever hold
      integers (ranks read by [parseInt], loop indices, pixel sizes reported
      by the probe) are carried as [Z].
    - [process.env] is a finite map from names to strings.
    - Everything outside the process (child processes, the file system, HTTP
      services, the random source) is an oracle that answers each call; the
      calls made so far are recorded in a history. *)

From Stdlib Require Import ZArith NArith List Lia Bool Ascii String.
From Stdlib Require Import QArith Qcanon.
From Stdlib Require Import SpecFloat DecimalPos.
From Stdlib Require Import Sorting.Permutation Sorting.Sorted.
From stdpp Require Import gmap list.

Set Default Proof Using "Type".
Local Open Scope Z_scope.

(** * JavaScript strings *)

Module JS.

Abbreviation jsstring := (list N).

(** A literal of the source text (ASCII only). *)
Definition js (s : string) : jsstring :=
  List.map N_of_ascii (list_ascii_of_string s).

Definition dq : jsstring := [34%N].
Definition nl : jsstring := [10%N].

(** The characters matched by [\s] and stripped by [String.prototype.trim]:
    WhiteSpace and LineTerminator of ECMA-262. *)
Definition is_ws (c : N) : bool :=
  ((9 <=? c) && (c <=? 13) || (c =? 32) || (c =? 160) || (c =? 5760)
   || (8192 <=? c) && (c <=? 8202) || (c =? 8232) || (c =? 8233)
   || (c =? 8239) || (c =? 8287) || (c =? 12288) || (c =? 65279))%N.

Fixpoint trimStart (s : jsstring) : jsstring :=
  match s with
  | c :: s' => if is_ws c then trimStart s' else s
  | [] => []
  end.

Definition trimEnd (s : jsstring) : jsstring := rev (trimStart (rev s)).

Definition trim (s : jsstring) : jsstring := trimEnd (trimStart s).

(** [s.split(/\s+/)]: the pieces between maximal runs of white space.  A
    string that starts (ends) with white space yields an empty first (last)
    piece, and the empty string yields one empty piece. *)
Fixpoint split_go (piece s : jsstring) : list jsstring :=
  match s with
  | [] => [piece]
  | c :: s' => if is_ws c then piece :: split_skip s' else split_go (piece ++ [c]) s'
  end
with split_skip (s : jsstring) : list jsstring :=
  match s with
  | [] => [[]]
  | c :: s' => if is_ws c then split_skip s' else split_go [c] s'
  end.

Definition split_ws (s : jsstring) : list jsstring := split_go [] s.

(** The number of words of a text: its maximal runs of characters that are
    not white space. *)
Fixpoint count_tokens_from (in_token : bool) (s : jsstring) : nat :=
  match s with
  | [] => 0
  | c :: s' =>
      if is_ws c then count_tokens_from false s'
      else (if in_token then 0 else 1) + count_tokens_from true s'
  end%nat.

Definition count_tokens (s : jsstring) : nat := count_tokens_from false s.

Definition starts_ws (s : jsstring) : bool :=
  match s with c :: _ => is_ws c | [] => false end.

Definition ends_ws (s : jsstring) : bool := starts_ws (rev s).

(** Paths and texts without white space at either end. *)
Definition tight (s : jsstring) : Prop :=
  s <> [] /\ starts_ws s = false /\ ends_ws s = false.

Fixpoint startsWith (p s : jsstring) : bool :=
  match p, s with
  | [], _ => true
  | a :: p', b :: s' => (a =? b)%N && startsWith p' s'
  | _ :: _, [] => false
  end.

Definition endsWith (p s : jsstring) : bool := startsWith (rev p) (rev s).

(** [s.indexOf(p)], [None] standing for -1. *)
Fixpoint indexOf (p s : jsstring) : option nat :=
  if startsWith p s then Some 0%nat
  else match s with
       | [] => None
       | _ :: s' => option_map S (indexOf p s')
       end.

Definition includes (p s : jsstring) : bool :=
  match indexOf p s with Some _ => true | None => false end.

Fixpoint join (sep : jsstring) (l : list jsstring) : jsstring :=
  match l with
  | [] => []
  | [x] => x
  | x :: l' => x ++ sep ++ join sep l'
  end.

(** [s.split(c)] for a separator of one code unit. *)
Fixpoint split_char (c : N) (piece s : jsstring) : list jsstring :=
  match s with
  | [] => [piece]
  | x :: s' => if (x =? c)%N then piece :: split_char c [] s'
               else split_char c (piece ++ [x]) s'
  end.

(** [toLowerCase] on the characters that matter when the result is compared
    with an ASCII literal: the ASCII capitals, and the Kelvin sign, the only
    other code unit whose lower-case form is an ASCII letter.  Every other
    code unit is left as it is. *)
Definition lower_unit (c : N) : N :=
  if ((65 <=? c) && (c <=? 90))%N then (c + 32)%N
  else if (c =? 8490)%N then 107%N else c.

Definition toLowerCase (s : jsstring) : jsstring := List.map lower_unit s.

(** Truthiness of a string. *)
Definition nonempty (s : jsstring) : bool :=
  match s with [] => false | _ => true end.

(** Decimal rendering of an integer, as [String(n)] prints an integral
    number below 1e21. *)
Fixpoint show_uint (d : Decimal.uint) : jsstring :=
  match d with
  | Decimal.Nil => []
  | Decimal.D0 d => 48%N :: show_uint d
  | Decimal.D1 d => 49%N :: show_uint d
  | Decimal.D2 d => 50%N :: show_uint d
  | Decimal.D3 d => 51%N :: show_uint d
  | Decimal.D4 d => 52%N :: show_uint d
  | Decimal.D5 d => 53%N :: show_uint d
  | Decimal.D6 d => 54%N :: show_uint d
  | Decimal.D7 d => 55%N :: show_uint d
  | Decimal.D8 d => 56%N :: show_uint d
  | Decimal.D9 d => 57%N :: show_uint d
  end.

Definition showZ (z : Z) : jsstring :=
  match Z.to_int z with
  | Decimal.Pos d => show_uint d
  | Decimal.Neg d => 45%N :: show_uint d
  end.

Definition slash : N := 47%N.
Definition dot : N := 46%N.

(** ** Numbers: IEEE-754 binary64 *)

Definition number : Type := spec_float.
Definition prec : Z := 53.
Definition emax : Z := 1024.

Definition ofZ (z : Z) : number := binary_normalize prec emax z 0 false.
Definition fadd : number -> number -> number := SFadd prec emax.
Definition fsub : number -> number -> number := SFsub prec emax.
Definition fmul : number -> number -> number := SFmul prec emax.
Definition fdiv : number -> number -> number := SFdiv prec emax.
Definition flt (x y : number) : bool := SFltb x y.
Definition fgt (x y : number) : bool := SFltb y x.
Definition feq (x y : number) : bool := SFeqb x y.
Definition NaN : number := S754_nan.

(** Truthiness of a number: zero and NaN are falsy. *)
Definition truthy (x : number) : bool :=
  match x with
  | S754_zero _ | S754_nan => false
  | _ => true
  end.

Definition signed (s : bool) (m : positive) : Z :=
  if s then Z.neg m else Z.pos m.

(** The mathematical ceiling, floor and nearest integer (ties upwards) of
    the finite value [(-1)^s * m * 2^e]. *)
Definition ceilZ (s : bool) (m : positive) (e : Z) : Z :=
  if 0 <=? e then signed s m * 2 ^ e else - ((- signed s m) / 2 ^ (- e)).

Definition floorZ (s : bool) (m : positive) (e : Z) : Z :=
  if 0 <=? e then signed s m * 2 ^ e else signed s m / 2 ^ (- e).

Definition roundZ (s : bool) (m : positive) (e : Z) : Z :=
  if 0 <=? e then signed s m * 2 ^ e
  else (2 * signed s m + 2 ^ (- e)) / 2 ^ (- e + 1).

Definition integral (s : bool) (z : Z) : number :=
  if z =? 0 then S754_zero s else ofZ z.

Definition Math_ceil (x : number) : number :=
  match x with
  | S754_finite s m e => integral s (ceilZ s m e)
  | _ => x
  end.

Definition Math_floor (x : number) : number :=
  match x with
  | S754_finite s m e => integral s (floorZ s m e)
  | _ => x
  end.

Definition Math_round (x : number) : number :=
  match x with
  | S754_finite s m e => integral s (roundZ s m e)
  | _ => x
  end.

Definition Math_max (x y : number) : number :=
  match SFcompare x y with
  | None => NaN
  | Some Lt => y
  | Some Gt => x
  | Some Eq => match x with S754_zero true => y | _ => x end
  end.

(** The integer a number holds, when it holds one. *)
Definition toZ (x : number) : option Z :=
  match x with
  | S754_zero _ => Some 0
  | S754_finite s m e =>
      if 0 <=? e then Some (signed s m * 2 ^ e)
      else if signed s m mod 2 ^ (- e) =? 0 then Some (signed s m / 2 ^ (- e))
      else None
  | _ => None
  end.

(** The binary64 value nearest to [(-1)^neg * M * 10^E]. *)
Definition of_decimal (neg : bool) (M : N) (E : Z) : number :=
  match M with
  | N0 => S754_zero neg
  | Npos p =>
      if 0 <=? E then binary_normalize prec emax (signed neg p * 10 ^ E) 0 false
      else SFdiv prec emax (S754_finite neg p 0)
                           (S754_finite false (Z.to_pos (10 ^ (- E))) 0)
  end.

(** ** [Number::toString]: the shortest decimal that reads back as the number *)

Definition number_eqb (x y : number) : bool :=
  match x, y with
  | S754_zero a, S754_zero b => Bool.eqb a b
  | S754_infinity a, S754_infinity b => Bool.eqb a b
  | S754_nan, S754_nan => true
  | S754_finite a m e, S754_finite b m' e' =>
      Bool.eqb a b && (m =? m')%positive && (e =? e')
  | _, _ => false
  end.

(** The value [m * 2^e] as a fraction. *)
Definition ratio (m : positive) (e : Z) : Z * Z :=
  if 0 <=? e then (Z.pos m * 2 ^ e, 1) else (Z.pos m, 2 ^ (- e)).

Fixpoint first_scale (fuel : nat) (j num den : Z) : Z :=
  match fuel with
  | O => j
  | S fuel' => if den <=? num * 10 ^ j then j else first_scale fuel' (j + 1) num den
  end.

(** The [n] with [10^(n-1) <= num/den < 10^n]. *)
Definition decimal_exponent (num den : Z) : Z :=
  if den <=? num then Z.of_nat (List.length (showZ (num / den)))
  else 1 - first_scale 400 1 num den.

(** The candidates with [k] digits around [num/den], nearest first, as pairs
    of a digit string value and a decimal exponent. *)
Definition candidates (num den n k : Z) : list (Z * Z) :=
  let '(tn, td) := if n <=? k then (num * 10 ^ (k - n), den)
                   else (num, den * 10 ^ (n - k)) in
  let lo := tn / td in
  let hi := if lo + 1 =? 10 ^ k then (10 ^ (k - 1), n + 1) else (lo + 1, n) in
  let c := Z.compare (2 * tn) ((2 * lo + 1) * td) in
  match c with
  | Lt => [(lo, n); hi]
  | Gt => [hi; (lo, n)]
  | Eq => if Z.even lo then [(lo, n); hi] else [hi; (lo, n)]
  end.

Definition reads_back (x : number) (k : Z) (c : Z * Z) : bool :=
  (10 ^ (k - 1) <=? fst c) && (fst c <? 10 ^ k)
  && number_eqb (of_decimal false (Z.to_N (fst c)) (snd c - k)) x.

Fixpoint shortest (fuel : nat) (x : number) (num den n k : Z) : Z * Z * Z :=
  match fuel with
  | O => (0, n, k)
  | S fuel' =>
      match List.filter (reads_back x k) (candidates num den n k) with
      | c :: _ => (fst c, snd c, k)
      | [] => shortest fuel' x num den n (k + 1)
      end
  end.

Definition zeros (n : Z) : jsstring := List.repeat 48%N (Z.to_nat n).

Definition layout (digits : jsstring) (n k : Z) : jsstring :=
  if (k <=? n) && (n <=? 21) then digits ++ zeros (n - k)
  else if (0 <? n) && (n <=? 21) then
    firstn (Z.to_nat n) digits ++ js "." ++ skipn (Z.to_nat n) digits
  else if (-6 <? n) && (n <=? 0) then js "0." ++ zeros (- n) ++ digits
  else
    let e := n - 1 in
    let mant := if k =? 1 then digits
                else firstn 1 digits ++ js "." ++ skipn 1 digits in
    mant ++ js "e" ++ (if 0 <=? e then js "+" else js "-") ++ showZ (Z.abs e).

Definition showNumber (x : number) : jsstring :=
  match x with
  | S754_nan => js "NaN"
  | S754_zero _ => js "0"
  | S754_infinity s => (if s then js "-" else []) ++ js "Infinity"
  | S754_finite s m e =>
      let '(num, den) := ratio m e in
      let '(d, n, k) :=
        shortest 17 (S754_finite false m e) num den (decimal_exponent num den) 1 in
      (if s then js "-" else []) ++ layout (showZ d) n k
  end.

(** ** Reading numbers: [Number], [parseFloat], [parseInt] *)

Definition digit_of (radix c : N) : option N :=
  let v := if ((48 <=? c) && (c <=? 57))%N then Some (c - 48)%N
           else if ((97 <=? c) && (c <=? 122))%N then Some (c - 87)%N
           else if ((65 <=? c) && (c <=? 90))%N then Some (c - 55)%N
           else None in
  match v with
  | Some d => if (d <? radix)%N then Some d else None
  | None => None
  end.

(** The longest prefix of digits: its value, its length and what follows. *)
Fixpoint read_digits (radix acc : N) (cnt : nat) (s : jsstring) : N * nat * jsstring :=
  match s with
  | c :: s' =>
      match digit_of radix c with
      | Some d => read_digits radix (acc * radix + d)%N (S cnt) s'
      | None => (acc, cnt, s)
      end
  | [] => (acc, cnt, [])
  end.

Definition read_sign (s : jsstring) : bool * jsstring :=
  match s with
  | c :: s' => if (c =? 43)%N then (false, s')
               else if (c =? 45)%N then (true, s')
               else (false, s)
  | [] => (false, s)
  end.

(** The exponent part [e+12] of a decimal literal, when there is one. *)
Definition read_exponent (s : jsstring) : Z * jsstring :=
  match s with
  | c :: s' =>
      if ((c =? 101) || (c =? 69))%N then
        let '(neg, s'') := read_sign s' in
        let '(x, cnt, rest) := read_digits 10 0 0 s'' in
        match cnt with
        | O => (0, s)
        | _ => (if neg then - Z.of_N x else Z.of_N x, rest)
        end
      else (0, s)
  | [] => (0, s)
  end.

(** The longest prefix that is a StrUnsignedDecimalLiteral. *)
Definition read_unsigned (neg : bool) (s : jsstring) : option (number * jsstring) :=
  if startsWith (js "Infinity") s
  then Some (S754_infinity neg, skipn 8 s)
  else
    let '(i, ci, r1) := read_digits 10 0 0 s in
    let '(m, cf, r2) :=
      match r1 with
      | c :: r =>
          if (c =? dot)%N then
            let '(m, cf, r2) := read_digits 10 i 0 r in
            match ci, cf with
            | O, O => (i, O, r1)
            | _, _ => (m, cf, r2)
            end
          else (i, O, r1)
      | [] => (i, O, r1)
      end in
    match ci, cf with
    | O, O => None
    | _, _ =>
        let '(x, r3) := read_exponent r2 in
        Some (of_decimal neg m (x - Z.of_nat cf), r3)
    end.

Definition read_decimal (s : jsstring) : option (number * jsstring) :=
  let '(neg, s') := read_sign s in read_unsigned neg s'.

Definition read_radix (radix : N) (s : jsstring) : number :=
  let '(v, cnt, rest) := read_digits radix 0 0 s in
  match cnt, rest with
  | S _, [] => ofZ (Z.of_N v)
  | _, _ => NaN
  end.

(** The radix announced by a prefix [0x], [0o] or [0b], in either case. *)
Definition radix_prefix (t : jsstring) : option N :=
  if startsWith (js "0x") t || startsWith (js "0X") t then Some 16%N
  else if startsWith (js "0o") t || startsWith (js "0O") t then Some 8%N
  else if startsWith (js "0b") t || startsWith (js "0B") t then Some 2%N
  else None.

(** [Number(s)]. *)
Definition Number (s : jsstring) : number :=
  match trim s with
  | [] => S754_zero false
  | t => match radix_prefix t with
         | Some radix => read_radix radix (skipn 2 t)
         | None =>
             match read_decimal t with
             | Some (x, []) => x
             | _ => NaN
             end
         end
  end.

(** [parseFloat(s)]. *)
Definition parseFloat (s : jsstring) : number :=
  match read_decimal (trimStart s) with
  | Some (x, _) => x
  | None => NaN
  end.

(** [parseInt(s)] without a radix: [None] stands for NaN, [Some n] for the
    number nearest to the integer [n] (the integer itself up to 2^53). *)
Definition parseInt (s : jsstring) : option Z :=
  let '(neg, t) := read_sign (trimStart s) in
  let '(radix, t') :=
    if startsWith (js "0x") t || startsWith (js "0X") t then (16%N, skipn 2 t)
    else (10%N, t) in
  let '(v, cnt, _) := read_digits radix 0 0 t' in
  match cnt with
  | O => None
  | _ => Some (if neg then - Z.of_N v else Z.of_N v)
  end.

(** ** POSIX paths ([path.join], [path.dirname], [path.extname]) *)

Definition jseqb (a b : jsstring) : bool :=
  (List.length a =? List.length b)%nat && startsWith a b.

(** Segments are kept in reverse order while a path is normalized. *)
Fixpoint normalize_segments (allowAbove : bool) (acc segs : list jsstring) : list jsstring :=
  match segs with
  | [] => rev acc
  | seg :: segs' =>
      if jseqb seg [] || jseqb seg [dot] then normalize_segments allowAbove acc segs'
      else if jseqb seg [dot; dot] then
        match acc with
        | last :: acc' =>
            if jseqb last [dot; dot]
            then normalize_segments allowAbove (seg :: acc) segs'
            else normalize_segments allowAbove acc' segs'
        | [] =>
            if allowAbove then normalize_segments allowAbove [seg] segs'
            else normalize_segments allowAbove [] segs'
        end
      else normalize_segments allowAbove (seg :: acc) segs'
  end.

Definition path_normalize (p : jsstring) : jsstring :=
  match p with
  | [] => [dot]
  | _ =>
      let absolute := startsWith [slash] p in
      let trailing := endsWith [slash] p in
      let body := join [slash] (normalize_segments (negb absolute) [] (split_char slash [] p)) in
      let body := match body with
                  | [] => if absolute then [] else [dot]
                  | _ => if trailing then body ++ [slash] else body
                  end in
      if absolute then slash :: body else body
  end.

Definition path_join (parts : list jsstring) : jsstring :=
  match List.filter nonempty parts with
  | [] => [dot]
  | ps => path_normalize (join [slash] ps)
  end.

Fixpoint drop_trailing_slashes (r : jsstring) : jsstring :=
  match r with
  | c :: r' => if (c =? slash)%N then drop_trailing_slashes r' else r
  | [] => []
  end.

Fixpoint drop_segment (r : jsstring) : option jsstring :=
  match r with
  | c :: r' => if (c =? slash)%N then Some r' else drop_segment r'
  | [] => None
  end.

(** [path.dirname]: everything before the slash that precedes the last
    segment; the first character is never taken for that slash. *)
Definition path_dirname (p : jsstring) : jsstring :=
  match p with
  | [] => [dot]
  | c0 :: rest =>
      let root := (c0 =? slash)%N in
      match drop_segment (drop_trailing_slashes (rev rest)) with
      | None => if root then [slash] else [dot]
      | Some r => match r with
                  | [] => if root then [slash; slash] else [c0]
                  | _ => c0 :: rev r
                  end
      end
  end.

(** The last path segment, trailing slashes apart. *)
Fixpoint take_until_slash (r : jsstring) : jsstring :=
  match r with
  | c :: r' => if (c =? slash)%N then [] else c :: take_until_slash r'
  | [] => []
  end.

Definition path_basename (p : jsstring) : jsstring :=
  rev (take_until_slash (drop_trailing_slashes (rev p))).

Fixpoint ext_from_rev (acc r : jsstring) : jsstring :=
  match r with
  | [] => []
  | c :: r' => if (c =? dot)%N then
                 match r' with [] => [] | _ => c :: acc end
               else ext_from_rev (c :: acc) r'
  end.

(** [path.extname]: from the last dot of the base name, unless that dot is
    its first character or the base name is [..]. *)
Definition path_extname (p : jsstring) : jsstring :=
  let base := path_basename p in
  if jseqb base [dot; dot] then [] else ext_from_rev [] (rev base).

(** [s.replace(/\.[^...]+$/, r)]: the leftmost dot that is followed, up to
    the end of the string, by one or more characters of the class. *)
Fixpoint replace_tail (class : N -> bool) (r s : jsstring) : jsstring :=
  match s with
  | [] => []
  | c :: s' =>
      if (c =? dot)%N && nonempty s' && forallb class s'
      then r
      else c :: replace_tail class r s'
  end.

(** [s.replace(/\.[^.]+$/, r)] *)
Definition replace_extension (r s : jsstring) : jsstring :=
  replace_tail (fun x => negb (x =? dot)%N) r s.

(** Stable sorting with a comparator: [after a b] says that the comparator
    is positive on [(a, b)], so that [a] goes behind [b].  For a comparator
    that is a consistent order every stable sort returns this list. *)
Fixpoint insert_sorted {A} (after : A -> A -> bool) (x : A) (l : list A) : list A :=
  match l with
  | [] => [x]
  | y :: l' => if after x y then y :: insert_sorted after x l' else x :: l
  end.

Fixpoint sort_by {A} (after : A -> A -> bool) (l : list A) : list A :=
  match l with
  | [] => []
  | x :: l' => insert_sorted after x (sort_by after l')
  end.

(** Matching an ASCII literal without regard to case (flag [i]). *)
Definition upper_unit (c : N) : N :=
  if ((97 <=? c) && (c <=? 122))%N then (c - 32)%N else c.

Fixpoint startsWith_ci (p s : jsstring) : bool :=
  match p, s with
  | [], _ => true
  | a :: p', b :: s' => (upper_unit a =? upper_unit b)%N && startsWith_ci p' s'
  | _ :: _, [] => false
  end.

(** [s.replace(/p1|p2|.../g, "")] for literal alternatives. *)
Fixpoint remove_all (pats : list jsstring) (skip : nat) (s : jsstring) : jsstring :=
  match s with
  | [] => []
  | c :: s' =>
      match skip with
      | S k => remove_all pats k s'
      | O =>
          match List.find (fun p => startsWith p s) pats with
          | Some p => remove_all pats (List.length p - 1) s'
          | None => c :: remove_all pats 0 s'
          end
      end
  end.

(** [s.split(sep)] for a separator that is not empty: the pieces between
    its occurrences, found from left to right without overlap.  [skip]
    counts the characters of a separator just found that are still to pass. *)
Fixpoint split_string (sep piece : jsstring) (skip : nat) (s : jsstring) : list jsstring :=
  match s with
  | [] => [piece]
  | c :: s' =>
      match skip with
      | S k => split_string sep piece k s'
      | O =>
          if startsWith sep s
          then piece :: split_string sep [] (List.length sep - 1) s'
          else split_string sep (piece ++ [c]) 0 s'
      end
  end.

End JS.



Import JS.

(** * The world outside the process *)

Module World.

(** A thrown [Error]: its message and, for a failed child process, what the
    process wrote on its error stream. *)
Record exn : Type := mkExn { message : jsstring; stderr : jsstring }.

Definition Error (msg : jsstring) : exn := mkExn msg [].

(** What is written to a file: a text, or bytes followed by a run of zero
    bytes (the silent samples of a WAV file are not spelled out). *)
Inductive filedata : Type :=
| Text (s : jsstring)
| Binary (bytes : list N) (zero_tail : Z).

(** The output of the probe, once parsed: the fields the code reads. *)
Record stream : Type := mkStream {
  codec_type : jsstring;
  stream_width : option Z;
  stream_height : option Z;
  stream_duration : option jsstring;
  r_frame_rate : option jsstring;
  codec_name : option jsstring }.

Record report : Type := mkReport {
  streams : option (list stream);
  format_duration : option jsstring }.

(** The body of a POST request: the text to speak, the prompt of a text
    generation (its sampling parameters are constants), or the text and the
    speed of a premium synthesis. *)
Inductive request_body : Type :=
| Inputs (text : jsstring)
| Generation (prompt : jsstring)
| Speech (text : jsstring) (speed : number).

Inductive call : Type :=
| Exec (cmd : jsstring)
| WriteFile (path : jsstring) (data : filedata)
| ReadFile (path : jsstring)
| Unlink (path : jsstring)
| Mkdir (path : jsstring)
| ExistsSync (path : jsstring)
| Readdir (path : jsstring)
| Alloc (size : Z)
| Fetch (url credential : jsstring) (body : request_body)
| Random (options : nat)
| Now
| FreshId.

(** The calls made so far, the latest first. *)
Definition history : Type := list call.

Inductive result (A : Type) : Type :=
| Ok (a : A)
| Throw (e : exn).
Arguments Ok {A} a.
Arguments Throw {A} e.

Inductive response : Type :=
| NetworkError (e : exn)
| Response (ok : bool) (status : Z) (body : list N).

(** The environment answers every call, knowing the calls made before. *)
Record oracle : Type := mkOracle {
  on_exec : history -> jsstring -> result (jsstring * jsstring);
  on_write : history -> jsstring -> filedata -> result unit;
  on_read : history -> jsstring -> result (list N);
  on_unlink : history -> jsstring -> result unit;
  on_mkdir : history -> jsstring -> result unit;
  on_exists : history -> jsstring -> bool;
  on_readdir : history -> jsstring -> result (list jsstring);
  on_alloc : history -> Z -> result unit;
  on_fetch : history -> jsstring -> jsstring -> request_body -> response;
  on_random : history -> nat;
  on_now : history -> Z;
  (** [Date.now().toString(36) + Math.random().toString(36).substr(2)] *)
  on_fresh_id : history -> jsstring;
  os_tmpdir : jsstring;
  (** [JSON.parse] of the probe's output; [None] when it throws. *)
  parse_report : jsstring -> option report;
  (** [response.json()] and the [generated_text] it carries; the outer
      [None] when parsing throws. *)
  parse_generated : list N -> option (option jsstring);
  (** [response.text()]. *)
  decode_text : list N -> jsstring;
  (** The message of the [RangeError] of a buffer write or allocation. *)
  out_of_range : number -> jsstring }.

(** Computations that call the world and may throw. *)
Definition M (A : Type) : Type := oracle -> history -> result A * history.

Definition ret {A} (a : A) : M A := fun _ h => (Ok a, h).

Definition throw {A} (e : exn) : M A := fun _ h => (Throw e, h).

Definition bind {A B} (c : M A) (k : A -> M B) : M B :=
  fun o h =>
    match c o h with
    | (Ok a, h') => k a o h'
    | (Throw e, h') => (Throw e, h')
    end.

Definition try_catch {A} (c : M A) (handler : exn -> M A) : M A :=
  fun o h =>
    match c o h with
    | (Ok a, h') => (Ok a, h')
    | (Throw e, h') => handler e o h'
    end.

(** [try { c } finally { f }], for an [f] that does not throw. *)
Definition try_finally {A} (c : M A) (f : M unit) : M A :=
  fun o h =>
    match c o h with
    | (r, h') => (r, snd (f o h'))
    end.

Definition of_result {A} (r : result A) : M A := fun _ h => (r, h).

Definition ask {A} (f : oracle -> A) : M A := fun o h => (Ok (f o), h).

Definition execAsync (cmd : jsstring) : M (jsstring * jsstring) :=
  fun o h => (on_exec o h cmd, Exec cmd :: h).

Definition writeFile (path : jsstring) (data : filedata) : M unit :=
  fun o h => (on_write o h path data, WriteFile path data :: h).

Definition readFile (path : jsstring) : M (list N) :=
  fun o h => (on_read o h path, ReadFile path :: h).

Definition unlink (path : jsstring) : M unit :=
  fun o h => (on_unlink o h path, Unlink path :: h).

Definition mkdir (path : jsstring) : M unit :=
  fun o h => (on_mkdir o h path, Mkdir path :: h).

Definition existsSync (path : jsstring) : M bool :=
  fun o h => (Ok (on_exists o h path), ExistsSync path :: h).

Definition readdir (path : jsstring) : M (list jsstring) :=
  fun o h => (on_readdir o h path, Readdir path :: h).

Definition alloc (size : Z) : M unit :=
  fun o h => (on_alloc o h size, Alloc size :: h).

Definition fetch (url credential : jsstring) (body : request_body) : M response :=
  fun o h => (Ok (on_fetch o h url credential body),
              Fetch url credential body :: h).

(** [Math.floor(Math.random() * n)]: any index below [n]. *)
Definition pick (n : nat) : M nat :=
  fun o h => (Ok (on_random o h mod n)%nat, Random n :: h).

Definition now : M Z := fun o h => (Ok (on_now o h), Now :: h).

Definition fresh_id : M jsstring := fun o h => (Ok (on_fresh_id o h), FreshId :: h).

(** [p.catch(() => {})]. *)
Definition swallow (c : M unit) : M unit := try_catch c (fun _ => ret tt).

Fixpoint for_each {A} (l : list A) (body : A -> M unit) : M unit :=
  match l with
  | [] => ret tt
  | x :: l' => bind (body x) (fun _ => for_each l' body)
  end.

End World.

Import World.

Declare Scope world_scope.
Delimit Scope world_scope with world.
Notation "x <- c ;; k" := (bind c (fun x => k))
  (at level 100, c at next level, right associativity) : world_scope.
Notation "c ;;; k" := (bind c (fun _ => k))
  (at level 100, right associativity) : world_scope.
Local Open Scope world_scope.

(** * The speech synthesizer (tts-service) *)

Module TtsService.

Record TTSOptions : Type := mkOptions {
  voice : option jsstring;
  speed : option number;
  pitch : option number }.

Record TTSResult : Type := mkResult {
  audioPath : jsstring;
  duration : number;
  service : jsstring }.

Inductive TTSService : Type := Mock | HuggingFace | ElevenLabs | Coqui.

Definition service_name (s : TTSService) : jsstring :=
  match s with
  | Mock => js "mock"
  | HuggingFace => js "huggingface"
  | ElevenLabs => js "elevenlabs"
  | Coqui => js "coqui"
  end.

(** TTS_CONFIG *)
Definition maxCharsPerChunk : nat := 1000.
Definition wordsPerMinute : Z := 150.
Definition hf_apiUrl : jsstring := js "https://api-inference.huggingface.co/models".
Definition hf_defaultModel : jsstring := js "facebook/mms-tts-eng".
Definition el_apiUrl : jsstring := js "https://api.elevenlabs.io/v1/text-to-speech".
Definition el_defaultVoiceId : jsstring := js "pNInz6obpgDQGcFmaJgB".
Definition sampleRate : Z := 44100.
Definition audio_format : jsstring := js "mp3".

Definition tempDir (o : oracle) : jsstring :=
  path_join [os_tmpdir o; js "shorts-ranker"; js "tts"].

(** [process.env]: a variable that is unset or empty is falsy. *)
Definition env_get (env : gmap jsstring jsstring) (name : string) : option jsstring :=
  match env !! js name with
  | Some (c :: v) => Some (c :: v)
  | _ => None
  end.

Definition env_set (env : gmap jsstring jsstring) (name : string) : bool :=
  match env_get env name with Some _ => true | None => false end.

Definition service_of_name (s : jsstring) : option TTSService :=
  if jseqb s (js "mock") then Some Mock
  else if jseqb s (js "huggingface") then Some HuggingFace
  else if jseqb s (js "elevenlabs") then Some ElevenLabs
  else if jseqb s (js "coqui") then Some Coqui
  else None.

Definition detectTTSService (env : gmap jsstring jsstring) : TTSService :=
  let explicitService := option_map toLowerCase (env !! js "TTS_SERVICE") in
  match explicitService ≫= service_of_name with
  | Some s => s
  | None =>
      if env_set env "ELEVENLABS_API_KEY" then ElevenLabs
      else if env_set env "HUGGINGFACE_API_KEY" then HuggingFace
      else
        match env !! js "USE_COQUI_TTS" with
        | Some v => if jseqb v (js "true") then Coqui else Mock
        | None => Mock
        end
  end.

Definition ensureTTSDirectory : M unit :=
  dir <- ask tempDir ;;
  present <- existsSync dir ;;
  if present then ret tt else mkdir dir.

Definition wordCount (text : jsstring) : Z :=
  Z.of_nat (List.length (split_ws text)).

(** [Math.ceil((wordCount / TTS_CONFIG.wordsPerMinute) * 60)] *)
Definition estimate (words : Z) : number :=
  Math_ceil (fmul (fdiv (ofZ words) (ofZ wordsPerMinute)) (ofZ 60)).

(** [buf.writeUInt32LE(x)] and [buf.writeUInt16LE(x)]: the bytes written, or
    [None] when the value is out of range. *)
Definition little_endian (width : nat) (x : number) : option (list N) :=
  if flt x (ofZ 0) || fgt x (ofZ (2 ^ (8 * Z.of_nat width) - 1)) then None
  else
    let z := match x with
             | S754_finite s m e => floorZ s m e
             | _ => 0
             end in
    Some (List.map (fun i => Z.to_N ((z / 2 ^ (8 * Z.of_nat i)) mod 256)) (seq 0 width)).

Definition write_le (width : nat) (x : number) : M (list N) :=
  match little_endian width x with
  | Some bytes => ret bytes
  | None => msg <- ask (fun o => out_of_range o x) ;; throw (Error msg)
  end.

Definition silence_command (seconds : number) (outputPath : jsstring) : jsstring :=
  join (js " ")
    [ js "ffmpeg -y";
      js "-f lavfi";
      js "-i anullsrc=r=" ++ showZ sampleRate ++ js ":cl=stereo";
      js "-t " ++ showNumber seconds;
      js "-acodec libmp3lame";
      js "-q:a 2";
      dq ++ outputPath ++ dq ].

(** The 44 bytes of the WAV header, for [dataSize] bytes of samples. *)
Definition wav_header (dataSize : number) : M (list N) :=
  let channels := 2 in
  let bitsPerSample := 16 in
  let byteRate := fdiv (fmul (fmul (ofZ sampleRate) (ofZ channels)) (ofZ bitsPerSample)) (ofZ 8) in
  let blockAlign := fdiv (fmul (ofZ channels) (ofZ bitsPerSample)) (ofZ 8) in
  chunkSize <- write_le 4 (fadd (ofZ 36) dataSize) ;;
  subchunk1Size <- write_le 4 (ofZ 16) ;;
  audioFormat <- write_le 2 (ofZ 1) ;;
  numChannels <- write_le 2 (ofZ channels) ;;
  rate <- write_le 4 (ofZ sampleRate) ;;
  bytesPerSecond <- write_le 4 byteRate ;;
  align <- write_le 2 blockAlign ;;
  bits <- write_le 2 (ofZ bitsPerSample) ;;
  subchunk2Size <- write_le 4 dataSize ;;
  ret (js "RIFF" ++ chunkSize ++ js "WAVE" ++ js "fmt " ++ subchunk1Size
       ++ audioFormat ++ numChannels ++ rate ++ bytesPerSecond ++ align ++ bits
       ++ js "data" ++ subchunk2Size).

Definition generateMockTTS (scriptText outputPath : jsstring) : M TTSResult :=
  let words := wordCount scriptText in
  let seconds := Math_max (ofZ 10) (estimate words) in
  try_catch
    (try_catch
       (execAsync (js "ffmpeg -version") ;;;
        execAsync (silence_command seconds outputPath) ;;;
        ret (mkResult outputPath seconds (js "mock")))
       (fun _ =>
          let blockAlign := fdiv (fmul (ofZ 2) (ofZ 16)) (ofZ 8) in
          let numSamples := fmul (ofZ sampleRate) seconds in
          let dataSize := fmul numSamples blockAlign in
          header <- wav_header dataSize ;;
          size <- match toZ dataSize with
                  | Some z => alloc z ;;; ret z
                  | None => msg <- ask (fun o => out_of_range o dataSize) ;;
                            throw (Error msg)
                  end ;;
          ensureTTSDirectory ;;;
          let outputPath :=
            if negb (endsWith (js ".wav") (toLowerCase outputPath))
            then replace_extension (js ".wav") outputPath
            else outputPath in
          writeFile outputPath (Binary header size) ;;;
          ret (mkResult outputPath seconds (js "mock"))))
    (fun error => throw (Error (js "Mock TTS failed: " ++ message error))).

(** [text.split(/(?<=[.!?])\s+/)]: the pieces between the runs of white
    space that follow a full stop, an exclamation or a question mark. *)
Definition is_terminator (c : N) : bool := ((c =? 46) || (c =? 33) || (c =? 63))%N.

Fixpoint sentences_go (piece : jsstring) (after_end : bool) (s : jsstring) : list jsstring :=
  match s with
  | [] => [piece]
  | c :: s' =>
      if is_ws c && after_end then piece :: sentences_skip s'
      else sentences_go (piece ++ [c]) (is_terminator c) s'
  end
with sentences_skip (s : jsstring) : list jsstring :=
  match s with
  | [] => [[]]
  | c :: s' => if is_ws c then sentences_skip s'
               else sentences_go [c] (is_terminator c) s'
  end.

Definition split_sentences (s : jsstring) : list jsstring := sentences_go [] false s.

Definition append_piece (currentChunk piece : jsstring) : jsstring :=
  currentChunk ++ (if nonempty currentChunk then js " " else []) ++ piece.

Definition push_trimmed (chunks : list jsstring) (currentChunk : jsstring) : list jsstring :=
  if nonempty currentChunk then chunks ++ [trim currentChunk] else chunks.

(** One step of the loop over the words of an over-long sentence. *)
Definition chunk_word (maxChars : nat) (st : list jsstring * jsstring) (word : jsstring)
  : list jsstring * jsstring :=
  let '(chunks, currentChunk) := st in
  if (List.length currentChunk + List.length word + 1 <=? maxChars)%nat
  then (chunks, append_piece currentChunk word)
  else (push_trimmed chunks currentChunk, word).

(** One step of the loop over the sentences. *)
Definition chunk_sentence (maxChars : nat) (st : list jsstring * jsstring) (sentence : jsstring)
  : list jsstring * jsstring :=
  let '(chunks, currentChunk) := st in
  if (List.length currentChunk + List.length sentence <=? maxChars)%nat
  then (chunks, append_piece currentChunk sentence)
  else
    let chunks := push_trimmed chunks currentChunk in
    if (maxChars <? List.length sentence)%nat
    then fold_left (chunk_word maxChars) (split_ws sentence) (chunks, [])
    else (chunks, sentence).

Definition splitTextIntoChunks (text : jsstring) (maxChars : nat) : list jsstring :=
  if (List.length text <=? maxChars)%nat then [text]
  else
    let '(chunks, currentChunk) :=
      fold_left (chunk_sentence maxChars) (split_sentences text) ([], []) in
    if nonempty (trim currentChunk) then chunks ++ [trim currentChunk] else chunks.

Definition generateHuggingFaceChunk (text outputPath model apiKey : jsstring) : M unit :=
  r <- fetch (hf_apiUrl ++ js "/" ++ model) apiKey (Inputs text) ;;
  match r with
  | NetworkError e => throw e
  | Response ok status body =>
      if negb ok then
        errorText <- ask (fun o => decode_text o body) ;;
        throw (Error (js "Hugging Face API error: " ++ showZ status ++ js " - " ++ errorText))
      else writeFile outputPath (Binary body 0)
  end.

Definition concat_list (inputPaths : list jsstring) : jsstring :=
  join nl (List.map (fun p => js "file '" ++ p ++ js "'") inputPaths).

Definition concatenateAudioFiles (inputPaths : list jsstring) (outputPath : jsstring) : M unit :=
  let dir := path_dirname outputPath in
  t <- now ;;
  let listPath := path_join [dir; js "concat_" ++ showZ t ++ js ".txt"] in
  writeFile listPath (Text (concat_list inputPaths)) ;;;
  let command := join (js " ")
    [ js "ffmpeg -y"; js "-f concat"; js "-safe 0";
      js "-i " ++ dq ++ listPath ++ dq;
      js "-acodec libmp3lame"; js "-q:a 2";
      dq ++ outputPath ++ dq ] in
  try_finally (execAsync command ;;; ret tt) (swallow (unlink listPath)).

Fixpoint generate_chunks (i : Z) (chunks : list jsstring) (outputPath model apiKey : jsstring)
  : M (list jsstring) :=
  match chunks with
  | [] => ret []
  | chunk :: rest =>
      let chunkPath := replace_extension (js "_chunk" ++ showZ i ++ js ".wav") outputPath in
      generateHuggingFaceChunk chunk chunkPath model apiKey ;;;
      paths <- generate_chunks (i + 1) rest outputPath model apiKey ;;
      ret (chunkPath :: paths)
  end.

Definition generateHuggingFaceTTS (env : gmap jsstring jsstring)
    (scriptText outputPath : jsstring) (options : TTSOptions) : M TTSResult :=
  match env_get env "HUGGINGFACE_API_KEY" with
  | None => generateMockTTS scriptText outputPath
  | Some apiKey =>
      let model := default hf_defaultModel (env_get env "HUGGINGFACE_TTS_MODEL") in
      try_catch
        (let chunks := splitTextIntoChunks scriptText maxCharsPerChunk in
         match chunks with
         | [chunk] => generateHuggingFaceChunk chunk outputPath model apiKey
         | _ =>
             chunkPaths <- generate_chunks 0 chunks outputPath model apiKey ;;
             concatenateAudioFiles chunkPaths outputPath ;;;
             for_each chunkPaths (fun chunkPath => swallow (unlink chunkPath))
         end ;;;
         ret (mkResult outputPath (estimate (wordCount scriptText)) (js "huggingface")))
        (fun _ => generateMockTTS scriptText outputPath)
  end.

Definition generateElevenLabsTTS (env : gmap jsstring jsstring)
    (scriptText outputPath : jsstring) (options : TTSOptions) : M TTSResult :=
  match env_get env "ELEVENLABS_API_KEY" with
  | None => generateMockTTS scriptText outputPath
  | Some apiKey =>
      let voiceId :=
        match voice options with
        | Some (c :: v) => c :: v
        | _ => default el_defaultVoiceId (env_get env "ELEVENLABS_VOICE_ID")
        end in
      let rate := match speed options with
                  | Some x => if truthy x then x else ofZ 1
                  | None => ofZ 1
                  end in
      try_catch
        (r <- fetch (el_apiUrl ++ js "/" ++ voiceId) apiKey (Speech scriptText rate) ;;
         match r with
         | NetworkError e => throw e
         | Response ok status body =>
             if negb ok then
               errorText <- ask (fun o => decode_text o body) ;;
               throw (Error (js "ElevenLabs API error: " ++ showZ status ++ js " - " ++ errorText))
             else
               writeFile outputPath (Binary body 0) ;;;
               ret (mkResult outputPath (estimate (wordCount scriptText)) (js "elevenlabs"))
         end)
        (fun error => throw (Error (js "ElevenLabs TTS failed: " ++ message error)))
  end.

Definition coqui_check : jsstring :=
  js "python3 -c " ++ dq ++ js "from TTS.api import TTS; print('OK')" ++ dq.

Definition coqui_script (scriptPath outputPath : jsstring) : jsstring :=
  nl ++ join nl
    [ js "import sys";
      js "from TTS.api import TTS";
      [];
      js "# Initialize TTS with a basic English model";
      js "tts = TTS(model_name=" ++ dq ++ js "tts_models/en/ljspeech/tacotron2-DDC" ++ dq
        ++ js ", progress_bar=False)";
      [];
      js "# Read text from file";
      js "with open(" ++ dq ++ scriptPath ++ dq ++ js ", " ++ dq ++ js "r" ++ dq ++ js ") as f:";
      js "    text = f.read()";
      [];
      js "# Generate audio";
      js "tts.tts_to_file(text=text, file_path=" ++ dq ++ outputPath ++ dq ++ js ")";
      js "print(" ++ dq ++ js "OK" ++ dq ++ js ")" ] ++ nl.

(** The promise of the mock that the inner handler returns is not awaited
    inside the outer [try]: its failure is not caught there. *)
Definition generateCoquiTTS (scriptText outputPath : jsstring) (options : TTSOptions)
  : M TTSResult :=
  r <- try_catch
    (available <- try_catch (execAsync coqui_check ;;; ret true) (fun _ => ret false) ;;
     if negb available then ret None
     else
       let scriptPath := replace_extension (js "_script.txt") outputPath in
       writeFile scriptPath (Text scriptText) ;;;
       let pythonScriptPath := replace_extension (js "_tts.py") outputPath in
       writeFile pythonScriptPath (Text (coqui_script scriptPath outputPath)) ;;;
       execAsync (js "python3 " ++ dq ++ pythonScriptPath ++ dq) ;;;
       swallow (unlink scriptPath) ;;;
       swallow (unlink pythonScriptPath) ;;;
       ret (Some (mkResult outputPath (estimate (wordCount scriptText)) (js "coqui"))))
    (fun _ => ret None) ;;
  match r with
  | Some result => ret result
  | None => generateMockTTS scriptText outputPath
  end.

Definition textToSpeech (env : gmap jsstring jsstring) (scriptText : jsstring)
    (outputPath : option jsstring) (options : TTSOptions) : M TTSResult :=
  let service := detectTTSService env in
  ensureTTSDirectory ;;;
  finalOutputPath <-
    match outputPath with
    | Some (c :: p) => ret (c :: p)
    | _ => dir <- ask tempDir ;;
           t <- now ;;
           ret (path_join [dir; js "tts_" ++ showZ t ++ js "." ++ audio_format])
    end ;;
  match service with
  | HuggingFace => generateHuggingFaceTTS env scriptText finalOutputPath options
  | ElevenLabs => generateElevenLabsTTS env scriptText finalOutputPath options
  | Coqui => generateCoquiTTS scriptText finalOutputPath options
  | Mock => generateMockTTS scriptText finalOutputPath
  end.

(** Get audio file duration using ffprobe *)
Definition getAudioDuration (audioPath : jsstring) : M number :=
  try_catch
    (out <- execAsync
       (js "ffprobe -v quiet -show_entries format=duration -of default=noprint_wrappers=1:nokey=1 "
        ++ dq ++ audioPath ++ dq) ;;
     let seconds := parseFloat (trim (fst out)) in
     ret (if truthy seconds then seconds else ofZ 0))
    (fun _ => ret (ofZ 0)).

End TtsService.

(** * The narration generator (script-generator) *)

Module ScriptGenerator.

Inductive Style : Type := energetic | casual | professional.

Record RankingItem : Type := mkItem {
  rank : number;
  titleOrName : jsstring;
  description : option jsstring }.

Record ScriptOptions : Type := mkScriptOptions {
  opt_topic : option jsstring;
  opt_style : option Style;
  includeEmojis : option bool;
  useLLM : option bool }.

Record ScriptResult : Type := mkScript {
  script : jsstring;
  wasPolished : bool;
  wordCount : Z;
  estimatedDuration : number }.

(** SCRIPT_CONFIG *)
Definition wordsPerMinute : Z := 150.
Definition huggingFaceAPI : jsstring := js "https://api-inference.huggingface.co/models".
Definition defaultModel : jsstring := js "mistralai/Mistral-7B-Instruct-v0.2".
Definition fallbackModels : list jsstring :=
  [js "HuggingFaceH4/zephyr-7b-beta"; js "google/flan-t5-large"].

Definition glyph (emoji : bool) (units : jsstring) : jsstring :=
  if emoji then units else [].

(** [options[Math.floor(Math.random() * options.length)]] *)
Definition choose (options : list jsstring) : M jsstring :=
  i <- pick (List.length options) ;;
  ret (nth i options []).

(** The key under which a rank is looked up in the tables: 1 to 5, or none. *)
Definition rank_key (r : number) : Z :=
  match toZ r with
  | Some z => if (1 <=? z) && (z <=? 5) then z else 0
  | None => 0
  end.

Definition intros (topicText : jsstring) (emoji : bool) (st : Style) : list jsstring :=
  match st with
  | energetic =>
    [ js "What's up everyone! " ++ glyph emoji [55357; 56613]%N ++ js " Welcome back to the channel. Today we're counting down the top 5" ++ topicText ++ js " that absolutely blew our minds. Let's get into it!";
      js "Hey there! " ++ glyph emoji [55357; 56395]%N ++ js " You're about to see the most incredible" ++ topicText ++ js " ranked from number 5 all the way to number 1. Trust me, you don't want to miss the top spot!";
      js "Welcome to today's countdown! " ++ glyph emoji [55356; 57260]%N ++ js " We've got 5 amazing" ++ topicText ++ js " to show you, and I guarantee number 1 will leave you speechless. Let's go!" ]
  | casual =>
    [ js "Hey, what's going on? So today I'm ranking the top 5" ++ topicText ++ js ". Let's see what we've got.";
      js "Alright, so I put together my top 5" ++ topicText ++ js " for you. Let me know if you agree with this list.";
      js "Hey everyone. Today we're looking at my top 5" ++ topicText ++ js ". Some of these might surprise you." ]
  | professional =>
    [ js "Welcome. Today we present a curated selection of the top 5" ++ topicText ++ js ", ranked for your consideration.";
      js "In this presentation, we'll be examining the top 5" ++ topicText ++ js ", carefully selected and ranked.";
      js "Thank you for joining us. Today's countdown features the top 5" ++ topicText ++ js " in our collection." ]
  end.

Definition getIntro (topicText : jsstring) (st : Style) (emoji : bool) : M jsstring :=
  choose (intros topicText emoji st).

Definition energeticIntros (emoji : bool) (key : Z) : option (list jsstring) :=
  match key with
  | 5 => Some
    [ glyph emoji [55357; 56633]%N ++ js " Kicking things off at number 5...";
      glyph emoji [55357; 56633]%N ++ js " Starting our countdown at number 5, we have...";
      glyph emoji [55357; 56633]%N ++ js " Coming in at number 5 to get us started..." ]
  | 4 => Some
    [ glyph emoji [55357; 56632]%N ++ js " Moving up to number 4...";
      glyph emoji [55357; 56632]%N ++ js " At number 4, things are heating up...";
      glyph emoji [55357; 56632]%N ++ js " Sliding into the number 4 spot..." ]
  | 3 => Some
    [ glyph emoji [55358; 56649]%N ++ js " Now we're getting serious! At number 3...";
      glyph emoji [55358; 56649]%N ++ js " The bronze medal goes to number 3...";
      glyph emoji [55358; 56649]%N ++ js " Claiming the number 3 spot..." ]
  | 2 => Some
    [ glyph emoji [55358; 56648]%N ++ js " So close to the top! At number 2...";
      glyph emoji [55358; 56648]%N ++ js " The runner-up at number 2...";
      glyph emoji [55358; 56648]%N ++ js " Just barely missing the top spot, at number 2..." ]
  | 1 => Some
    [ glyph emoji [55358; 56647]%N ++ js " And finally, the moment you've been waiting for! Number 1 is...";
      glyph emoji [55358; 56647]%N ++ js " The undisputed champion at number 1...";
      glyph emoji [55358; 56647]%N ++ js " Taking the crown at number 1, we have..." ]
  | _ => None
  end.

Definition casualIntros (key : Z) : option (list jsstring) :=
  match key with
  | 5 => Some [js "At number 5..."; js "Starting off at 5..."; js "Kicking us off..."]
  | 4 => Some [js "Number 4..."; js "Moving to 4..."; js "At 4 we have..."]
  | 3 => Some [js "Now at number 3..."; js "The 3 spot goes to..."; js "Coming in at 3..."]
  | 2 => Some [js "Almost at the top, number 2..."; js "Just missing first, at 2..."; js "The runner-up..."]
  | 1 => Some [js "And number 1..."; js "Taking the top spot..."; js "My number 1 pick..."]
  | _ => None
  end.

Definition professionalIntros (key : Z) : option (list jsstring) :=
  match key with
  | 5 => Some [js "Beginning at position five..."; js "In fifth position..."; js "Our fifth entry..."]
  | 4 => Some [js "At position four..."; js "Moving to fourth place..."; js "Fourth in our ranking..."]
  | 3 => Some [js "In third position..."; js "Our bronze placement..."; js "At number three..."]
  | 2 => Some [js "In second position..."; js "Our silver placement..."; js "Taking second place..."]
  | 1 => Some [js "Our top selection..."; js "In first position..."; js "The leading entry..."]
  | _ => None
  end.

Definition getRankIntro (r : number) (st : Style) (emoji : bool) : M jsstring :=
  let table := match st with
               | energetic => energeticIntros emoji
               | casual => casualIntros
               | professional => professionalIntros
               end in
  choose (default [js "At number " ++ showNumber r ++ js "..."] (table (rank_key r))).

(** [title.replace(/\.[^/.]+$/, "").replace(/[-_]/g, " ")] *)
Definition cleanTitle (title : jsstring) : jsstring :=
  List.map (fun c => if ((c =? 45) || (c =? 95))%N then 32%N else c)
    (replace_tail (fun x => negb ((x =? 47) || (x =? 46))%N) [] title).

Definition energeticDescriptions (cleanTitle : jsstring) (key : Z) : option (list jsstring) :=
  match key with
  | 5 => Some
    [ js "This one kicks off our list perfectly. " ++ cleanTitle ++ js " sets the bar high right from the start!";
      js "A solid entry to begin our countdown. " ++ cleanTitle ++ js " shows us what we're working with!" ]
  | 4 => Some
    [ js "Now we're talking! " ++ cleanTitle ++ js " really impressed us and earned this spot.";
      js "Things are getting better. " ++ cleanTitle ++ js " brings the heat at number 4!" ]
  | 3 => Some
    [ js "This is where it gets competitive. " ++ cleanTitle ++ js " is absolutely top-tier content!";
      js "On the podium at number 3! " ++ cleanTitle ++ js " definitely deserves this recognition." ]
  | 2 => Some
    [ js "So incredibly close to the top! " ++ cleanTitle ++ js " is absolutely phenomenal. Any other day, this could've been number 1!";
      js "The runner-up is no joke. " ++ cleanTitle ++ js " had us on the edge of our seats!" ]
  | 1 => Some
    [ js "The champion! " ++ cleanTitle ++ js " blew everything else out of the water. This is peak content right here!";
      js "Absolutely unbeatable! " ++ cleanTitle ++ js " earned this spot and then some. Simply incredible!" ]
  | _ => None
  end.

Definition casualDescriptions (cleanTitle : jsstring) (key : Z) : option (list jsstring) :=
  match key with
  | 5 => Some [cleanTitle ++ js " is a good starting point."; js "Solid pick with " ++ cleanTitle ++ js "."]
  | 4 => Some [cleanTitle ++ js " is really good."; js "I liked " ++ cleanTitle ++ js " a lot."]
  | 3 => Some [cleanTitle ++ js " is excellent."; js "Really impressed by " ++ cleanTitle ++ js "."]
  | 2 => Some [cleanTitle ++ js " almost took the top spot."; js "So close! " ++ cleanTitle ++ js " is amazing."]
  | 1 => Some [cleanTitle ++ js " is my favorite."; js "Had to give it to " ++ cleanTitle ++ js ". The best!"]
  | _ => None
  end.

Definition professionalDescriptions (cleanTitle : jsstring) (key : Z) : option (list jsstring) :=
  match key with
  | 5 => Some [cleanTitle ++ js " demonstrates notable qualities that merit inclusion."]
  | 4 => Some [cleanTitle ++ js " exhibits commendable attributes worthy of recognition."]
  | 3 => Some [cleanTitle ++ js " stands out with exceptional merit and quality."]
  | 2 => Some [cleanTitle ++ js " presents outstanding characteristics, narrowly missing first."]
  | 1 => Some [cleanTitle ++ js " exemplifies the highest standard in this category."]
  | _ => None
  end.

Definition getDefaultDescription (r : number) (title : jsstring) (st : Style) : M jsstring :=
  let clean := cleanTitle title in
  let table := match st with
               | energetic => energeticDescriptions clean
               | casual => casualDescriptions clean
               | professional => professionalDescriptions clean
               end in
  choose (default [js "An impressive entry that deserves recognition."] (table (rank_key r))).

Definition outros (emoji : bool) (st : Style) : list jsstring :=
  match st with
  | energetic =>
    [ nl ++ nl ++ js "And that wraps up our top 5! " ++ glyph emoji [55357; 56908]%N ++ js " If you enjoyed this countdown, smash that like button and subscribe for more content like this. Drop a comment below telling me which one was YOUR favorite. See you in the next one!";
      nl ++ nl ++ js "There you have it, folks! The ultimate top 5. " ++ glyph emoji [55357; 56495]%N ++ js " Did your favorite make the list? Let me know in the comments! Don't forget to like and subscribe if you want more countdowns. Peace!";
      nl ++ nl ++ js "What a list! " ++ glyph emoji [55357; 56613]%N ++ js " If you made it this far, you're a real one. Hit that subscribe button and turn on notifications so you never miss a countdown. Until next time!" ]
  | casual =>
    [ nl ++ nl ++ js "So that's my top 5. Let me know in the comments what you think. See you next time.";
      nl ++ nl ++ js "That's the list. Would love to hear your thoughts. Thanks for watching.";
      nl ++ nl ++ js "And that's it! Hope you enjoyed. Leave a comment with your picks." ]
  | professional =>
    [ nl ++ nl ++ js "This concludes our presentation of the top 5 selections. We welcome your feedback and comments.";
      nl ++ nl ++ js "Thank you for your attention. We hope you found this ranking informative and engaging.";
      nl ++ nl ++ js "This concludes our ranking. We appreciate your viewership and welcome your perspectives." ]
  end.

Definition getOutro (st : Style) (emoji : bool) : M jsstring :=
  choose (outros emoji st).

(** The loop over the items of [generateTemplateScript]. *)
Fixpoint rankingSections (items : list RankingItem) (st : Style) (emoji : bool)
    (sections : jsstring) : M jsstring :=
  match items with
  | [] => ret sections
  | item :: rest =>
      rankIntro <- getRankIntro (rank item) st emoji ;;
      text <- match description item with
              | Some d => if nonempty (trim d) then ret d
                          else getDefaultDescription (rank item) (titleOrName item) st
              | None => getDefaultDescription (rank item) (titleOrName item) st
              end ;;
      rankingSections rest st emoji (sections ++ nl ++ nl ++ rankIntro ++ nl ++ text)
  end.

Definition generateTemplateScript (items : list RankingItem) (topic : option jsstring)
    (st : Style) (emoji : bool) : M jsstring :=
  let topicText := match topic with
                   | Some (c :: t) => js " " ++ c :: t
                   | _ => js " clips"
                   end in
  intro <- getIntro topicText st emoji ;;
  sections <- rankingSections items st emoji [] ;;
  outro <- getOutro st emoji ;;
  ret (intro ++ sections ++ outro).

Definition buildPolishPrompt (baseScript : jsstring) (topic : option jsstring) : jsstring :=
  let topicContext := match topic with
                      | Some (c :: t) => js " about " ++ c :: t
                      | _ => []
                      end in
  js "<s>[INST] You are a professional YouTube script writer. Rewrite the following countdown video script"
  ++ topicContext
  ++ js " to make it more engaging and natural-sounding while keeping the same structure and information. Keep the same ranking order and general content, but improve the flow and add personality."
  ++ nl ++ nl ++ js "Original script:" ++ nl ++ baseScript ++ nl ++ nl
  ++ js "Rewritten script: [/INST]".

Definition preambles : list jsstring :=
  [js "Rewritten script:"; js "Here's"; js "Here is"].

Definition openings : list jsstring :=
  [js "What"; js "Hey"; js "Welcome"; js "Alright"; js "Hi"; js "Hello"].

Fixpoint drop_colons_spaces (s : jsstring) : jsstring :=
  match s with
  | c :: s' => if (c =? 58)%N || is_ws c then drop_colons_spaces s' else s
  | [] => []
  end.

(** [s.replace(/^(Rewritten script:|Here's|Here is)[:\s]*/i, "")] *)
Definition strip_preamble (s : jsstring) : jsstring :=
  match List.find (fun p => startsWith_ci p s) preambles with
  | Some p => drop_colons_spaces (skipn (List.length p) s)
  | None => s
  end.

Definition opens_properly (s : jsstring) : bool :=
  existsb (fun w => startsWith_ci w s) openings.

Fixpoint through_terminator (s : jsstring) : option jsstring :=
  match s with
  | [] => None
  | c :: s' => if TtsService.is_terminator c then Some [c]
               else option_map (cons c) (through_terminator s')
  end.

(** The first match of [/(What|Hey|Welcome|Alright|Hi|Hello)[^.!?]*[.!?]/i]. *)
Fixpoint intro_match (s : jsstring) : option jsstring :=
  match s with
  | [] => None
  | _ :: s' =>
      if opens_properly s then
        match through_terminator s with
        | Some m => Some m
        | None => intro_match s'
        end
      else intro_match s'
  end.

Definition cleanLLMOutput (text : jsstring) : jsstring :=
  let cleaned :=
    trim (strip_preamble
            (remove_all [js "[INST]"; js "[/INST]"] 0
               (remove_all [js "<s>"; js "</s>"] 0 text))) in
  if opens_properly cleaned then cleaned
  else
    match intro_match cleaned with
    | Some m =>
        match indexOf m cleaned with
        | Some (S i) => skipn (S i) cleaned
        | _ => cleaned
        end
    | None => cleaned
    end.

(** The loop over the models of [polishScriptWithLLM]. *)
Fixpoint try_models (models : list jsstring) (prompt apiKey : jsstring) : M (option jsstring) :=
  match models with
  | [] => ret None
  | model :: rest =>
      r <- fetch (huggingFaceAPI ++ js "/" ++ model) apiKey (Generation prompt) ;;
      match r with
      | NetworkError _ => try_models rest prompt apiKey
      | Response ok _ body =>
          if negb ok then try_models rest prompt apiKey
          else
            parsed <- ask (fun o => parse_generated o body) ;;
            match parsed with
            | Some (Some generatedText) =>
                if (100 <? List.length generatedText)%nat
                then ret (Some (cleanLLMOutput generatedText))
                else try_models rest prompt apiKey
            | _ => try_models rest prompt apiKey
            end
      end
  end.

Definition polishScriptWithLLM (env : gmap jsstring jsstring) (baseScript : jsstring)
    (topic : option jsstring) : M (option jsstring) :=
  match TtsService.env_get env "HUGGINGFACE_API_KEY" with
  | None => ret None
  | Some apiKey =>
      try_models (defaultModel :: fallbackModels) (buildPolishPrompt baseScript topic) apiKey
  end.

(** [Math.ceil((wordCount / SCRIPT_CONFIG.wordsPerMinute) * 60)] *)
Definition estimate (words : Z) : number :=
  Math_ceil (fmul (fdiv (ofZ words) (ofZ wordsPerMinute)) (ofZ 60)).

Definition truthy_string (s : option jsstring) : option jsstring :=
  match s with
  | Some (c :: t) => Some (c :: t)
  | _ => None
  end.

Definition generateRankingScript (env : gmap jsstring jsstring)
    (rankingData : list RankingItem) (topic : option jsstring) (options : ScriptOptions)
  : M ScriptResult :=
  let st := default energetic (opt_style options) in
  let emoji := default true (includeEmojis options) in
  let llm := default false (useLLM options) in
  let sortedData :=
    sort_by (fun a b => fgt (fsub (rank b) (rank a)) (ofZ 0)) rankingData in
  let templateTopic := match truthy_string topic with
                       | Some t => Some t
                       | None => opt_topic options
                       end in
  template <- generateTemplateScript sortedData templateTopic st emoji ;;
  polished <-
    (if llm && TtsService.env_set env "HUGGINGFACE_API_KEY"
     then try_catch (polishScriptWithLLM env template topic) (fun _ => ret None)
     else ret None) ;;
  let '(text, wasPolished) :=
    match truthy_string polished with
    | Some p => (p, true)
    | None => (template, false)
    end in
  let words := Z.of_nat (List.length (split_ws text)) in
  ret (mkScript text wasPolished words (estimate words)).

Definition estimateScriptDuration (text : jsstring) : number :=
  estimate (Z.of_nat (List.length (split_ws text))).

(** ** Splitting a script by rank *)

Definition is_digit (c : N) : bool := ((48 <=? c) && (c <=? 57))%N.

(** [\s*(\d)] at the start of [s]: the digit. *)
Definition spaces_digit (s : jsstring) : option N :=
  match trimStart s with
  | c :: _ => if is_digit c then Some c else None
  | [] => None
  end.

(** The four alternatives of
    [/number\s*(\d)|#(\d)|position\s*(\d)|(\d)\s*spot/i] at the start of
    [s], in their order: the digit captured by the first that matches. *)
Definition rank_match_here (s : jsstring) : option N :=
  let number := if startsWith_ci (js "number") s then spaces_digit (skipn 6 s) else None in
  let hash := match s with
              | c :: d :: _ => if (c =? 35)%N && is_digit d then Some d else None
              | _ => None
              end in
  let position := if startsWith_ci (js "position") s then spaces_digit (skipn 8 s) else None in
  let spot := match s with
              | d :: s' => if is_digit d && startsWith_ci (js "spot") (trimStart s')
                           then Some d else None
              | [] => None
              end in
  match number, hash, position with
  | Some d, _, _ => Some d
  | None, Some d, _ => Some d
  | None, None, Some d => Some d
  | None, None, None => spot
  end.

(** [text.match(...)]: the leftmost match. *)
Fixpoint rank_match (s : jsstring) : option N :=
  match rank_match_here s with
  | Some d => Some d
  | None => match s with
            | [] => None
            | _ :: s' => rank_match s'
            end
  end.

Record ScriptSegments : Type := mkSegments {
  segment_intro : jsstring;
  segment_ranks : list (Z * jsstring);
  segment_outro : jsstring }.

(** The loop over [lines[1]] to [lines[lines.length - 2]]. *)
Definition rank_segment (text : jsstring) : option (Z * jsstring) :=
  match rank_match text with
  | Some d =>
      let r := Z.of_N d - 48 in
      if (1 <=? r) && (r <=? 5) then Some (r, text) else None
  | None => None
  end.

Definition splitScriptByRank (script : jsstring) : ScriptSegments :=
  let lines := split_string (nl ++ nl) [] 0 script in
  let intro := nth 0 lines [] in
  let outro := List.last lines [] in
  let middle := List.removelast (List.tl lines) in
  mkSegments intro (omap rank_segment middle) outro.

End ScriptGenerator.

(** * The media pipeline (video-processor) *)

Module VideoProcessor.

(** VIDEO_CONFIG *)
Definition targetWidth : Z := 1080.
Definition targetHeight : Z := 1920.
Definition targetFps : Z := 30.
Definition videoCodec : jsstring := js "libx264".
Definition videoPreset : jsstring := js "fast".
Definition videoCrf : Z := 23.
Definition audioCodec : jsstring := js "aac".
Definition audioBitrate : jsstring := js "192k".
Definition overlayFontSize : Z := 72.
Definition overlayFontColor : jsstring := js "white".
Definition overlayBorderColor : jsstring := js "black".
Definition overlayBorderWidth : Z := 3.
Definition overlayFadeInDuration : number := of_decimal false 5 (-1).
Definition overlayDisplayDuration : number := of_decimal false 25 (-1).
Definition overlayFadeOutDuration : number := of_decimal false 5 (-1).
Definition tempDir : jsstring := js "/tmp/shorts-ranker".
Definition outputDir : jsstring := js "/tmp/shorts-ranker/output".

Record VideoInfo : Type := mkInfo {
  width : Z;
  height : Z;
  duration : number;
  fps : number;
  hasAudio : bool;
  codec : jsstring }.

Record RankedVideo : Type := mkVideo {
  path : jsstring;
  rank : Z;
  description : option jsstring }.

Record ProcessingResult : Type := mkProcessing {
  success : bool;
  outputPath : jsstring;
  result_duration : number;
  resolution : jsstring;
  error : option jsstring }.

Definition checkFFmpegAvailable : M bool :=
  try_catch (execAsync (js "ffmpeg -version") ;;; ret true) (fun _ => ret false).

Definition runFFmpeg (command : jsstring) : M (jsstring * jsstring) :=
  try_catch (execAsync command)
    (fun execError =>
       let msg := match message execError with
                  | [] => js "FFmpeg command failed"
                  | m => m
                  end in
       let detail := match stderr execError with
                     | [] => msg
                     | e => e
                     end in
       throw (Error (js "FFmpeg failed: " ++ detail))).

(** Parse frame rate string (e.g., "30/1" or "29.97") *)
Definition evalFps (fpsString : jsstring) : number :=
  if includes (js "/") fpsString then
    match List.map Number (split_char slash [] fpsString) with
    | num :: den :: _ => if truthy den then fdiv num den else ofZ 30
    | _ => ofZ 30
    end
  else
    let x := parseFloat fpsString in
    if truthy x then x else ofZ 30.

Definition defaultInfo : VideoInfo :=
  mkInfo 0 0 (ofZ 0) (ofZ 30) false (js "unknown").

Definition is_codec_type (kind : string) (st : stream) : bool :=
  jseqb (codec_type st) (js kind).

Definition getVideoInfo (videoPath : jsstring) : M VideoInfo :=
  let command := js "ffprobe -v quiet -print_format json -show_streams -show_format "
                 ++ dq ++ videoPath ++ dq in
  try_catch
    (out <- runFFmpeg command ;;
     parsed <- ask (fun o => parse_report o (fst out)) ;;
     match parsed with
     | None => throw (Error (js "Unexpected token in JSON"))
     | Some info =>
         let videoStream := streams info ≫= List.find (is_codec_type "video") in
         let audioStream := streams info ≫= List.find (is_codec_type "audio") in
         let seconds :=
           match ScriptGenerator.truthy_string (format_duration info) with
           | Some d => d
           | None =>
               match ScriptGenerator.truthy_string (videoStream ≫= stream_duration) with
               | Some d => d
               | None => js "0"
               end
           end in
         let rate :=
           default (js "30/1") (ScriptGenerator.truthy_string (videoStream ≫= r_frame_rate)) in
         ret (mkInfo (default 0 (videoStream ≫= stream_width))
                     (default 0 (videoStream ≫= stream_height))
                     (parseFloat seconds)
                     (evalFps rate)
                     (match audioStream with Some _ => true | None => false end)
                     (default (js "unknown")
                        (ScriptGenerator.truthy_string (videoStream ≫= codec_name))))
     end)
    (fun _ => ret defaultInfo).

Definition ensureDirectories : M unit :=
  a <- existsSync tempDir ;;
  (if a then ret tt else mkdir tempDir) ;;;
  b <- existsSync outputDir ;;
  if b then ret tt else mkdir outputDir.

Definition cleanupDirectory (dirPath : jsstring) : M unit :=
  try_catch
    (present <- existsSync dirPath ;;
     if present then
       files <- readdir dirPath ;;
       for_each files (fun file => swallow (unlink (path_join [dirPath; file]))) ;;;
       swallow (unlink dirPath)
     else ret tt)
    (fun _ => ret tt).

Definition targetAspect : number := fdiv (ofZ targetWidth) (ofZ targetHeight).

(** The filter chain of [normalizeVideo] for a probed frame size. *)
Definition normalizeFilter (inW inH : Z) : jsstring :=
  let inputAspect := fdiv (ofZ inW) (ofZ inH) in
  if fgt inputAspect targetAspect then
    let cropWidth := Math_round (fmul (ofZ inH) targetAspect) in
    let cropX := Math_round (fdiv (fsub (ofZ inW) cropWidth) (ofZ 2)) in
    join (js ",")
      [ js "crop=" ++ showNumber cropWidth ++ js ":" ++ showNumber (ofZ inH)
          ++ js ":" ++ showNumber cropX ++ js ":0";
        js "scale=" ++ showZ targetWidth ++ js ":" ++ showZ targetHeight;
        js "setsar=1";
        js "fps=" ++ showZ targetFps ]
  else if flt inputAspect targetAspect then
    join (js ",")
      [ js "scale=" ++ showZ targetWidth ++ js ":-2";
        js "pad=" ++ showZ targetWidth ++ js ":" ++ showZ targetHeight
          ++ js ":(ow-iw)/2:(oh-ih)/2:black";
        js "setsar=1";
        js "fps=" ++ showZ targetFps ]
  else
    join (js ",")
      [ js "scale=" ++ showZ targetWidth ++ js ":" ++ showZ targetHeight;
        js "setsar=1";
        js "fps=" ++ showZ targetFps ].

Definition normalizeCommand (inputPath outputPath filterComplex : jsstring) : jsstring :=
  join (js " ")
    [ js "ffmpeg -y";
      js "-i " ++ dq ++ inputPath ++ dq;
      js "-vf " ++ dq ++ filterComplex ++ dq;
      js "-c:v " ++ videoCodec;
      js "-preset " ++ videoPreset;
      js "-crf " ++ showZ videoCrf;
      js "-c:a " ++ audioCodec;
      js "-b:a " ++ audioBitrate;
      js "-movflags +faststart";
      dq ++ outputPath ++ dq ].

Definition normalizeVideo (inputPath outputPath : jsstring) : M VideoInfo :=
  inputInfo <- getVideoInfo inputPath ;;
  let filterComplex := normalizeFilter (width inputInfo) (height inputInfo) in
  runFFmpeg (normalizeCommand inputPath outputPath filterComplex) ;;;
  getVideoInfo outputPath.

Definition overlayText (r : Z) : jsstring := js "Rank \#" ++ showNumber (ofZ r).

Definition alphaExpression : jsstring :=
  let total := fadd (fadd overlayFadeInDuration overlayDisplayDuration) overlayFadeOutDuration in
  js "if(lt(t," ++ showNumber overlayFadeInDuration ++ js "),t/" ++ showNumber overlayFadeInDuration
  ++ js ",if(lt(t," ++ showNumber (fadd overlayFadeInDuration overlayDisplayDuration) ++ js "),1"
  ++ js ",if(lt(t," ++ showNumber total ++ js "),(" ++ showNumber total ++ js "-t)/"
  ++ showNumber overlayFadeOutDuration
  ++ js ",0)))".

Definition drawTextFilter (r : Z) : jsstring :=
  js "drawtext="
  ++ js "text='" ++ overlayText r ++ js "'"
  ++ js ":fontsize=" ++ showZ overlayFontSize
  ++ js ":fontcolor_expr=" ++ overlayFontColor ++ js "@%{eif\:" ++ alphaExpression ++ js "\:d\:2}"
  ++ js ":borderw=" ++ showZ overlayBorderWidth
  ++ js ":bordercolor=" ++ overlayBorderColor ++ js "@%{eif\:" ++ alphaExpression ++ js "\:d\:2}"
  ++ js ":x=(w-text_w)/2"
  ++ js ":y=100".

Definition overlayCommand (inputPath outputPath : jsstring) (r : Z) : jsstring :=
  join (js " ")
    [ js "ffmpeg -y";
      js "-i " ++ dq ++ inputPath ++ dq;
      js "-vf " ++ dq ++ drawTextFilter r ++ dq;
      js "-c:v " ++ videoCodec;
      js "-preset " ++ videoPreset;
      js "-crf " ++ showZ videoCrf;
      js "-c:a " ++ audioCodec;
      js "-b:a " ++ audioBitrate;
      dq ++ outputPath ++ dq ].

Definition addRankingOverlay (inputPath outputPath : jsstring) (r : Z) : M unit :=
  runFFmpeg (overlayCommand inputPath outputPath r) ;;; ret tt.

(** Sort videos by rank (descending: 5, 4, 3, 2, 1 order) *)
Definition sortVideosByRank (videos : list RankedVideo) : list RankedVideo :=
  sort_by (fun a b => 0 <? rank b - rank a) videos.

Definition concatContent (inputPaths : list jsstring) : jsstring :=
  join nl (List.map (fun p => js "file '" ++ p ++ js "'") inputPaths).

Definition concatCommand (concatFilePath outputPath : jsstring) : jsstring :=
  join (js " ")
    [ js "ffmpeg -y"; js "-f concat"; js "-safe 0";
      js "-i " ++ dq ++ concatFilePath ++ dq;
      js "-c copy";
      dq ++ outputPath ++ dq ].

Definition concatenateVideos (inputPaths : list jsstring) (outputPath tempDir : jsstring) : M unit :=
  let concatFilePath := path_join [tempDir; js "concat_list.txt"] in
  writeFile concatFilePath (Text (concatContent inputPaths)) ;;;
  runFFmpeg (concatCommand concatFilePath outputPath) ;;; ret tt.

Definition replaceCommand (shortest : bool) (videoPath audioPath outputPath : jsstring) : jsstring :=
  join (js " ")
    ([ js "ffmpeg -y";
       js "-i " ++ dq ++ videoPath ++ dq;
       js "-i " ++ dq ++ audioPath ++ dq;
       js "-map 0:v";
       js "-map 1:a";
       js "-c:v " ++ videoCodec;
       js "-preset " ++ videoPreset;
       js "-crf " ++ showZ videoCrf;
       js "-c:a " ++ audioCodec;
       js "-b:a " ++ audioBitrate ]
     ++ (if shortest then [js "-shortest"] else [])
     ++ [ dq ++ outputPath ++ dq ]).

Definition replaceVideoAudio (videoPath audioPath outputPath : jsstring) : M unit :=
  getVideoInfo videoPath ;;;
  try_catch
    (runFFmpeg (replaceCommand true videoPath audioPath outputPath) ;;; ret tt)
    (fun _ => runFFmpeg (replaceCommand false videoPath audioPath outputPath) ;;; ret tt).

Definition mixCommand (videoPath audioPath outputPath : jsstring)
    (originalVolume voiceoverVolume : number) : jsstring :=
  let filterComplex := join (js ";")
    [ js "[0:a]volume=" ++ showNumber originalVolume ++ js "[a0]";
      js "[1:a]volume=" ++ showNumber voiceoverVolume ++ js "[a1]";
      js "[a0][a1]amix=inputs=2:duration=first:dropout_transition=2[aout]" ] in
  join (js " ")
    [ js "ffmpeg -y";
      js "-i " ++ dq ++ videoPath ++ dq;
      js "-i " ++ dq ++ audioPath ++ dq;
      js "-filter_complex " ++ dq ++ filterComplex ++ dq;
      js "-map 0:v";
      js "-map " ++ dq ++ js "[aout]" ++ dq;
      js "-c:v copy";
      js "-c:a " ++ audioCodec;
      js "-b:a " ++ audioBitrate;
      dq ++ outputPath ++ dq ].

Definition mixVideoAudio (videoPath audioPath outputPath : jsstring)
    (originalVolume voiceoverVolume : option number) : M unit :=
  let originalVolume := default (of_decimal false 3 (-1)) originalVolume in
  let voiceoverVolume := default (ofZ 1) voiceoverVolume in
  try_catch
    (runFFmpeg (mixCommand videoPath audioPath outputPath originalVolume voiceoverVolume) ;;;
     ret tt)
    (fun _ => replaceVideoAudio videoPath audioPath outputPath).

Inductive AudioMode : Type := replace | mix.

Record ProcessingOptions : Type := mkProcessingOptions {
  videos : list RankedVideo;
  audioPath : jsstring;
  opt_outputPath : jsstring;
  opt_tempDir : jsstring;
  addOverlays : option bool;
  audioMode : option AudioMode;
  originalAudioVolume : option number }.

(** Step 2: the loop that normalizes each video. *)
Fixpoint normalizeAll (i : Z) (sortedVideos : list RankedVideo) (tempDir : jsstring)
  : M (list jsstring) :=
  match sortedVideos with
  | [] => ret []
  | video :: rest =>
      let normalizedPath := path_join [tempDir; js "normalized_" ++ showZ i ++ js ".mp4"] in
      normalizeVideo (path video) normalizedPath ;;;
      paths <- normalizeAll (i + 1) rest tempDir ;;
      ret (normalizedPath :: paths)
  end.

(** Step 3: the loop that adds the overlays; [normalizedPaths[i]] is
    [undefined] when the list is too short. *)
Fixpoint overlayAll (i : Z) (sortedVideos : list RankedVideo) (normalizedPaths : list jsstring)
    (tempDir : jsstring) : M (list jsstring) :=
  match sortedVideos with
  | [] => ret []
  | video :: rest =>
      let overlayPath := path_join [tempDir; js "overlay_" ++ showZ i ++ js ".mp4"] in
      addRankingOverlay (nth (Z.to_nat i) normalizedPaths (js "undefined")) overlayPath (rank video) ;;;
      paths <- overlayAll (i + 1) rest normalizedPaths tempDir ;;
      ret (overlayPath :: paths)
  end.

(** Steps 1 to 6, the body of the [try] block of the pipeline. *)
Definition pipelineSteps (options : ProcessingOptions) : M ProcessingResult :=
  let tempDir := opt_tempDir options in
  let outputPath := opt_outputPath options in
  let sortedVideos := sortVideosByRank (videos options) in
  normalizedPaths <- normalizeAll 0 sortedVideos tempDir ;;
  overlayPaths <-
    (if default true (addOverlays options)
     then overlayAll 0 sortedVideos normalizedPaths tempDir
     else ret normalizedPaths) ;;
  let concatenatedPath := path_join [tempDir; js "concatenated.mp4"] in
  concatenateVideos overlayPaths concatenatedPath tempDir ;;;
  match default replace (audioMode options) with
  | replace => replaceVideoAudio concatenatedPath (audioPath options) outputPath
  | mix => mixVideoAudio concatenatedPath (audioPath options) outputPath
             (Some (default (of_decimal false 3 (-1)) (originalAudioVolume options))) None
  end ;;;
  finalInfo <- getVideoInfo outputPath ;;
  ret (mkProcessing true outputPath (duration finalInfo)
         (showNumber (ofZ (width finalInfo)) ++ js "x" ++ showNumber (ofZ (height finalInfo)))
         None).

Definition processVideoPipeline (options : ProcessingOptions) : M ProcessingResult :=
  ensureDirectories ;;;
  try_catch (pipelineSteps options)
    (fun e => ret (mkProcessing false [] (ofZ 0) [] (Some (message e)))).

Definition audioSampleRate : Z := 44100.

(** [inputPaths.map((_, i) => `[${i}:v][${i}:a]`).join("")] *)
Fixpoint streamLabels (i : Z) (inputPaths : list jsstring) : jsstring :=
  match inputPaths with
  | [] => []
  | _ :: rest =>
      js "[" ++ showZ i ++ js ":v][" ++ showZ i ++ js ":a]" ++ streamLabels (i + 1) rest
  end.

Definition concatFilterCommand (inputPaths : list jsstring) (outputPath : jsstring) : jsstring :=
  let inputs := join (js " ") (List.map (fun p => js "-i " ++ dq ++ p ++ dq) inputPaths) in
  let n := Z.of_nat (List.length inputPaths) in
  let filterComplex :=
    streamLabels 0 inputPaths ++ js "concat=n=" ++ showZ n ++ js ":v=1:a=1[outv][outa]" in
  join (js " ")
    [ js "ffmpeg -y";
      inputs;
      js "-filter_complex " ++ dq ++ filterComplex ++ dq;
      js "-map " ++ dq ++ js "[outv]" ++ dq;
      js "-map " ++ dq ++ js "[outa]" ++ dq;
      js "-s " ++ showZ targetWidth ++ js "x" ++ showZ targetHeight;
      js "-r " ++ showZ targetFps;
      js "-c:v " ++ videoCodec;
      js "-preset " ++ videoPreset;
      js "-crf " ++ showZ videoCrf;
      js "-c:a " ++ audioCodec;
      js "-b:a " ++ audioBitrate;
      dq ++ outputPath ++ dq ].

(** Concatenate videos using filter_complex (with re-encoding) *)
Definition concatenateVideosWithFilter (inputPaths : list jsstring) (outputPath : jsstring)
  : M unit :=
  runFFmpeg (concatFilterCommand inputPaths outputPath) ;;; ret tt.

Definition silentAudioCommand (outputPath : jsstring) (durationSeconds : number) : jsstring :=
  join (js " ")
    [ js "ffmpeg -y";
      js "-f lavfi";
      js "-i anullsrc=r=" ++ showZ audioSampleRate ++ js ":cl=stereo";
      js "-t " ++ showNumber durationSeconds;
      js "-acodec libmp3lame";
      js "-q:a 2";
      dq ++ outputPath ++ dq ].

(** Create a silent audio file (placeholder when TTS is not available) *)
Definition createSilentAudio (outputPath : jsstring) (durationSeconds : number) : M unit :=
  runFFmpeg (silentAudioCommand outputPath durationSeconds) ;;; ret tt.

(** Read the final video file as a buffer *)
Definition readVideoFile (videoPath : jsstring) : M (list N) := readFile videoPath.

End VideoProcessor.

(** * The API routes *)

Module Routes.

(** A value of a parsed JSON body, as far as the checks of the routes tell
    values apart. *)
Inductive value : Type :=
| Undefined
| Null
| Bool (b : bool)
| Num (x : number)
| Str (s : jsstring)
| Object.

Definition falsy (v : value) : bool :=
  match v with
  | Undefined | Null => true
  | Bool b => negb b
  | Num x => negb (truthy x)
  | Str s => negb (nonempty s)
  | Object => false
  end.

Definition is_string (v : value) : bool :=
  match v with Str _ => true | _ => false end.

Record VideoInput : Type := mkInput {
  tempId : value;
  title : value;
  rank : value;
  description : option jsstring }.

(** The body of a narration request.  [videos] is [None] when the field is
    missing or is not an array; an element is [None] when it is [null]. *)
Record GenerateScriptRequest : Type := mkRequest {
  videos : option (list (option VideoInput));
  topic : option jsstring;
  options : option ScriptGenerator.ScriptOptions }.

Inductive HttpResponse : Type :=
| ErrorResponse (status : Z) (error details : jsstring)
| ScriptResponse (r : ScriptGenerator.ScriptResult)
| VideoResponse (body : list N) (filename duration resolution service : jsstring).

Definition badRequest (details : string) : HttpResponse :=
  ErrorResponse 400 (js "Invalid request") (js details).

Definition typeError : exn :=
  Error (js "Cannot read properties of null").

(** The checks on one element of [videos]: [None] when it passes. *)
Definition validateVideo (video : option VideoInput) : result (option HttpResponse) :=
  match video with
  | None => Throw typeError
  | Some v =>
      if falsy (tempId v) || negb (is_string (tempId v))
      then Ok (Some (badRequest "Each video must have a tempId string"))
      else if falsy (title v) || negb (is_string (title v))
      then Ok (Some (badRequest "Each video must have a title string"))
      else
        match rank v with
        | Num r =>
            if flt r (ofZ 1) || fgt r (ofZ 5)
            then Ok (Some (badRequest "Each video must have a rank between 1 and 5"))
            else Ok None
        | _ => Ok (Some (badRequest "Each video must have a rank between 1 and 5"))
        end
  end.

Fixpoint validateVideos (l : list (option VideoInput)) : result (option HttpResponse) :=
  match l with
  | [] => Ok None
  | video :: rest =>
      match validateVideo video with
      | Ok None => validateVideos rest
      | r => r
      end
  end.

(** Equality of the members of a [Set]: SameValueZero. *)
Definition same_value_zero (x y : number) : bool :=
  match x, y with
  | S754_zero _, S754_zero _ => true
  | _, _ => number_eqb x y
  end.

(** [new Set(l).size] *)
Fixpoint set_size (l : list number) : nat :=
  match l with
  | [] => 0
  | x :: l' => if existsb (same_value_zero x) l' then set_size l' else S (set_size l')
  end.

Definition rank_of (v : VideoInput) : number :=
  match rank v with Num r => r | _ => NaN end.

Definition toRankingItem (v : VideoInput) : ScriptGenerator.RankingItem :=
  ScriptGenerator.mkItem (rank_of v)
    (match title v with Str s => s | _ => [] end)
    (description v).

(** Everything the handler does before it calls the generator: the
    rejection, or the ranking data handed on. *)
Definition validateScriptRequest (body : GenerateScriptRequest)
  : result (HttpResponse + list ScriptGenerator.RankingItem) :=
  match videos body with
  | None => Ok (inl (badRequest "videos array is required"))
  | Some vs =>
      if negb (List.length vs =? 5)%nat
      then Ok (inl (badRequest "Exactly 5 videos are required"))
      else
        match validateVideos vs with
        | Throw e => Throw e
        | Ok (Some rejection) => Ok (inl rejection)
        | Ok None =>
            let inputs := omap id vs in
            let ranks := List.map rank_of inputs in
            if negb (set_size ranks =? 5)%nat
            then Ok (inl (badRequest "All ranks must be unique (1-5)"))
            else Ok (inr (List.map toRankingItem inputs))
        end
  end.



(** ** POST /api/process-video *)

Record File : Type := mkFile { file_name : jsstring; file_bytes : list N }.

(** A multipart form: its text fields and its file fields, by name. *)
Record FormData : Type := mkForm {
  texts : gmap jsstring jsstring;
  files : gmap jsstring File }.

(** A request: its Content-Type header, and its form ([None] when
    [request.formData()] throws). *)
Record ProcessRequest : Type := mkProcessRequest {
  content_type : option jsstring;
  form : option FormData }.

Record Upload : Type := mkUpload {
  file : File;
  upload_rank : Z;
  index : Z;
  upload_description : jsstring }.

(** One pass over the video fields of a naming scheme: the fields
    [video<i>], [rank<i>], [description<i>] for the listed [i]; a missing
    or unreadable rank is replaced by [top - i]. *)
Fixpoint collect (prefix rankPrefix descriptionPrefix : string) (top offset : Z)
    (indices : list Z) (fd : FormData) : list Upload :=
  match indices with
  | [] => []
  | i :: rest =>
      let later := collect prefix rankPrefix descriptionPrefix top offset rest fd in
      match files fd !! (js prefix ++ showZ i) with
      | Some video =>
          if (0 <? List.length (file_bytes video))%nat then
            let parsed := texts fd !! (js rankPrefix ++ showZ i) ≫= parseInt in
            let r := match parsed with
                     | Some n => if n =? 0 then top - i else n
                     | None => top - i
                     end in
            let d := default [] (texts fd !! (js descriptionPrefix ++ showZ i)) in
            mkUpload video r (i - offset) d :: later
          else later
      | None => later
      end
  end.

Definition collectVideos (fd : FormData) : list Upload :=
  match collect "video" "rank" "description" 6 1 [1; 2; 3; 4; 5] fd with
  | [] => collect "video_" "rank_" "description_" 5 0 [0; 1; 2; 3; 4] fd
  | found => found
  end.

Definition getFileExtension (filename : jsstring) : jsstring :=
  match toLowerCase (path_extname filename) with
  | [] => js ".mp4"
  | ext => ext
  end.

(** The loop that saves the uploads in the job directory. *)
Fixpoint saveUploads (i : Z) (uploads : list Upload) (jobDir : jsstring)
  : M (list VideoProcessor.RankedVideo) :=
  match uploads with
  | [] => ret []
  | video :: rest =>
      let ext := getFileExtension (file_name (file video)) in
      let videoPath := path_join [jobDir; js "input_" ++ showZ i ++ ext] in
      writeFile videoPath (Binary (file_bytes (file video)) 0) ;;;
      saved <- saveUploads (i + 1) rest jobDir ;;
      ret (VideoProcessor.mkVideo videoPath (upload_rank video)
             (Some (upload_description video)) :: saved)
  end.

Definition noOptions : TtsService.TTSOptions := TtsService.mkOptions None None None.

(** The handler.  The sweep of old narration files that it starts without
    waiting for it, and the removal of the output file one minute after the
    response, are not part of the model; [rankingData] is parsed and never
    read. *)
Definition processVideoPOST (env : gmap jsstring jsstring) (request : ProcessRequest)
  : M HttpResponse :=
  jobId <- fresh_id ;;
  let jobDir := path_join [VideoProcessor.tempDir; jobId] in
  try_catch
    (VideoProcessor.ensureDirectories ;;;
     mkdir jobDir ;;;
     if negb (includes (js "multipart/form-data") (default [] (content_type request)))
     then ret (ErrorResponse 400 (js "Invalid Content-Type")
                 (js "Request must be multipart/form-data"))
     else
       match form request with
       | None => throw (Error (js "Failed to parse body as FormData."))
       | Some fd =>
           let finalScript :=
             match ScriptGenerator.truthy_string (texts fd !! js "finalScript") with
             | Some t => Some t
             | None => ScriptGenerator.truthy_string (texts fd !! js "script")
             end in
           match finalScript with
           | None => ret (ErrorResponse 400 (js "Missing required field")
                            (js "finalScript is required"))
           | Some finalScript =>
               let uploads := collectVideos fd in
               if negb (List.length uploads =? 5)%nat
               then ret (ErrorResponse 400 (js "Invalid request")
                           (js "Exactly 5 videos are required. Received: "
                            ++ showZ (Z.of_nat (List.length uploads))))
               else
                 rankedVideos <- saveUploads 0 uploads jobDir ;;
                 ffmpegAvailable <- VideoProcessor.checkFFmpegAvailable ;;
                 if negb ffmpegAvailable then
                   VideoProcessor.cleanupDirectory jobDir ;;;
                   ret (ErrorResponse 500 (js "FFmpeg not available")
                          (js "FFmpeg is required for video processing but is not installed on this server."))
                 else
                   let audioPath := path_join [jobDir; js "voiceover.mp3"] in
                   ttsResult <- TtsService.textToSpeech env finalScript (Some audioPath) noOptions ;;
                   let outputPath :=
                     path_join [VideoProcessor.outputDir; jobId ++ js "_output.mp4"] in
                   result <- VideoProcessor.processVideoPipeline
                     (VideoProcessor.mkProcessingOptions rankedVideos
                        (TtsService.audioPath ttsResult) outputPath jobDir
                        (Some true) (Some VideoProcessor.replace) None) ;;
                   if negb (VideoProcessor.success result) then
                     VideoProcessor.cleanupDirectory jobDir ;;;
                     ret (ErrorResponse 500 (js "Video processing failed")
                            (default [] (VideoProcessor.error result)))
                   else
                     videoBuffer <- readFile outputPath ;;
                     VideoProcessor.cleanupDirectory jobDir ;;;
                     ret (VideoResponse videoBuffer
                            (js "shorts-ranker-" ++ jobId ++ js ".mp4")
                            (showNumber (VideoProcessor.result_duration result))
                            (VideoProcessor.resolution result)
                            (TtsService.service ttsResult))
           end
       end)
    (fun e =>
       VideoProcessor.cleanupDirectory jobDir ;;;
       let errorMessage := message e in
       let isFFmpegError := includes (js "FFmpeg") errorMessage
                            || includes (js "ffmpeg") errorMessage in
       ret (ErrorResponse 500
              (if isFFmpegError then js "FFmpeg processing error"
               else js "Failed to process video")
              errorMessage)).

End Routes.

(** * The page (app/page.tsx) *)

Module Page.


(** A video of the page's state.  The thumbnail, the duration and the
    resolution kept with it are shown and never decide anything. *)
Record VideoFile : Type := mkVideoFile {
  id : jsstring;
  file : Routes.File;
  name : jsstring;
  description : jsstring;
  rank : Z }.








(** [[...videos].sort((a, b) => b.rank - a.rank)] *)
Definition sortedVideos (videos : list VideoFile) : list VideoFile :=
  sort_by (fun a b => 0 <? rank b - rank a) videos.




(** The order of [Array.prototype.sort] without a comparator: by the
    strings of the elements, code unit by code unit. *)
Fixpoint string_lt (a b : jsstring) : bool :=
  match a, b with
  | _, [] => false
  | [], _ :: _ => true
  | x :: a', y :: b' => (x <? y)%N || ((x =? y)%N && string_lt a' b')
  end.

(** [ranks.every((r, i) => r === i + 1)] *)
Fixpoint counted (i : Z) (ranks : list Z) : bool :=
  match ranks with
  | [] => true
  | r :: rest => (r =? i + 1) && counted (i + 1) rest
  end.

Definition hasValidRanks (videos : list VideoFile) : bool :=
  let ranks := sort_by (fun a b => string_lt (showZ b) (showZ a)) (List.map rank videos) in
  (List.length ranks =? 5)%nat
  && counted 0 ranks
  && (List.length (nodup Z.eq_dec ranks) =? 5)%nat.

Definition canProceedToRank (videos : list VideoFile) : bool :=
  (List.length videos =? 5)%nat.

(** The body sent to /api/generate-script, as the route reads it back. *)
Definition scriptRequest (videos : list VideoFile) : Routes.GenerateScriptRequest :=
  Routes.mkRequest
    (Some (List.map
             (fun v => Some (Routes.mkInput (Routes.Str (id v)) (Routes.Str (name v))
                               (Routes.Num (ofZ (rank v)))
                               (ScriptGenerator.truthy_string (Some (description v)))))
             videos))
    None
    (Some (ScriptGenerator.mkScriptOptions None (Some ScriptGenerator.energetic)
             (Some false) None)).

(** [formData.append]: [formData.get] returns the first value appended
    under a name. *)
Definition appendText (field value : jsstring) (fd : Routes.FormData) : Routes.FormData :=
  match Routes.texts fd !! field with
  | Some _ => fd
  | None => Routes.mkForm (<[field := value]> (Routes.texts fd)) (Routes.files fd)
  end.

Definition appendFile (field : jsstring) (value : Routes.File) (fd : Routes.FormData)
  : Routes.FormData :=
  match Routes.files fd !! field with
  | Some _ => fd
  | None => Routes.mkForm (Routes.texts fd) (<[field := value]> (Routes.files fd))
  end.

(** The loop of [processVideo] over the sorted videos. *)
Fixpoint appendVideos (index : Z) (sorted : list VideoFile) (fd : Routes.FormData)
  : Routes.FormData :=
  match sorted with
  | [] => fd
  | video :: rest =>
      appendVideos (index + 1) rest
        (appendText (js "description_" ++ showZ index) (description video)
           (appendText (js "rank_" ++ showZ index) (showZ (rank video))
              (appendFile (js "video_" ++ showZ index) (file video) fd)))
  end.

(** The request sent to /api/process-video.  [rankingData] is the JSON text
    of the ranking data and [boundary] the boundary the browser chooses. *)
Definition processRequest (videos : list VideoFile) (editableScript rankingData
    boundary : jsstring) : Routes.ProcessRequest :=
  let formData :=
    appendText (js "finalScript") editableScript
      (appendText (js "rankingData") rankingData
         (appendVideos 0 (sortedVideos videos) (Routes.mkForm ∅ ∅))) in
  Routes.mkProcessRequest (Some (js "multipart/form-data; boundary=" ++ boundary))
    (Some formData).

End Page.

(** * Sample worlds and inputs *)

Module Samples.

(** A world in which child processes answer as [exec] says and the probe's
    output parses as [report] says; everything else succeeds with nothing
    to report. *)
Definition world (exec : jsstring -> result (jsstring * jsstring))
    (reports : jsstring -> option report) : oracle :=
  {| on_exec := fun _ cmd => exec cmd;
     on_write := fun _ _ _ => Ok tt;
     on_read := fun _ _ => Ok [];
     on_unlink := fun _ _ => Ok tt;
     on_mkdir := fun _ _ => Ok tt;
     on_exists := fun _ _ => true;
     on_readdir := fun _ _ => Ok [];
     on_alloc := fun _ _ => Ok tt;
     on_fetch := fun _ _ _ _ => Response true 200 [];
     on_random := fun _ => 0%nat;
     on_now := fun _ => 0;
     on_fresh_id := fun _ => js "job1";
     os_tmpdir := js "/tmp";
     parse_report := reports;
     parse_generated := fun _ => Some None;
     decode_text := fun _ => [];
     out_of_range := fun _ => js "The value is out of range." |}.

(** Every command succeeds; the probe reports nothing readable. *)
Definition quiet : oracle := world (fun _ => Ok ([], [])) (fun _ => None).

(** The header of the WAV file holding ten seconds of silence. *)
Definition ten_seconds_header : list N :=
  Eval vm_compute in
    match TtsService.wav_header (ofZ 1764000) quiet [] with
    | (Ok bytes, _) => bytes
    | _ => []
    end.

(** No child process can be started: the media tool is not installed. *)
Definition no_tools : oracle :=
  world (fun _ => Throw (Error (js "spawn ENOENT"))) (fun _ => None).


(** A processing request with five clips, four of rank 3 and one of rank 9. *)
Definition clip (name : string) : Routes.File := Routes.mkFile (js name) [0%N; 1%N].

Definition repeated_ranks : Routes.FormData :=
  Routes.mkForm
    (list_to_map
       [ (js "finalScript", js "Five great clips.");
         (js "rank1", js "3"); (js "rank2", js "3"); (js "rank3", js "3");
         (js "rank4", js "3"); (js "rank5", js "9") ])
    (list_to_map
       [ (js "video1", clip "a.mp4"); (js "video2", clip "b.mp4");
         (js "video3", clip "c.mp4"); (js "video4", clip "d.mp4");
         (js "video5", clip "e.mp4") ]).

Definition repeated_ranks_request : Routes.ProcessRequest :=
  Routes.mkProcessRequest (Some (js "multipart/form-data; boundary=x"))
    (Some repeated_ranks).

(** A narration request whose videos carry the given ranks. *)
Definition narration_request (ranks : list number) : Routes.GenerateScriptRequest :=
  Routes.mkRequest
    (Some (List.map (fun r => Some (Routes.mkInput (Routes.Str (js "id"))
                                      (Routes.Str (js "clip.mp4")) (Routes.Num r) None))
             ranks))
    None None.

Definition item (r : Z) (title : string) : ScriptGenerator.RankingItem :=
  ScriptGenerator.mkItem (ofZ r) (js title) None.

Definition five_items : list ScriptGenerator.RankingItem :=
  [item 3 "c.mp4"; item 1 "a.mp4"; item 5 "e.mp4"; item 2 "b.mp4"; item 4 "d.mp4"].

(** [n] times the word, each followed by [sep]. *)
Fixpoint words (n : nat) (word sep : jsstring) : jsstring :=
  match n with
  | O => []
  | S n' => word ++ sep ++ words n' word sep
  end.

(** A job of five clips given in the order of ranks 3, 1, 5, 2, 4. *)
Definition shuffled_job : VideoProcessor.ProcessingOptions :=
  VideoProcessor.mkProcessingOptions
    [ VideoProcessor.mkVideo (js "/tmp/up/c.mp4") 3 None;
      VideoProcessor.mkVideo (js "/tmp/up/a.mp4") 1 None;
      VideoProcessor.mkVideo (js "/tmp/up/e.mp4") 5 None;
      VideoProcessor.mkVideo (js "/tmp/up/b.mp4") 2 None;
      VideoProcessor.mkVideo (js "/tmp/up/d.mp4") 4 None ]
    (js "/tmp/job/voiceover.wav") (js "/tmp/out/final.mp4") (js "/tmp/job")
    None None None.

End Samples.

(** * Properties *)

(** ** Words and pieces *)

Section Words.

Lemma starts_ws_app (l : jsstring) (c : N) :
  starts_ws (l ++ [c]) = match l with [] => is_ws c | x :: _ => is_ws x end.
Proof. destruct l; reflexivity. Qed.

Lemma ends_ws_cons (c : N) (s : jsstring) :
  ends_ws (c :: s) = match s with [] => is_ws c | _ => ends_ws s end.
Proof.
  unfold ends_ws. simpl. rewrite starts_ws_app.
  destruct s as [|x s]; [reflexivity|].
  simpl. rewrite starts_ws_app. destruct (rev s); reflexivity.
Qed.

(** The pieces of [split(/\s+/)], counted: one per word that does not start
    the text, one for what precedes the first run of white space, and one
    more when the text ends with white space. *)
Lemma split_lengths (s : jsstring) :
  (forall piece, List.length (split_go piece s)
     = (count_tokens_from true s + 1 + if ends_ws s then 1 else 0)%nat)
  /\ List.length (split_skip s)
     = (count_tokens_from false s
        + match s with [] => 1 | _ => if ends_ws s then 1 else 0 end)%nat.
Proof.
  induction s as [|c s [IHgo IHskip]]; [split; reflexivity|].
  split.
  - intros piece. simpl. rewrite ends_ws_cons.
    destruct (is_ws c) eqn:Hc.
    + simpl. rewrite IHskip. destruct s; lia.
    + rewrite IHgo. destruct s; simpl; lia.
  - simpl. rewrite ends_ws_cons.
    destruct (is_ws c) eqn:Hc.
    + rewrite IHskip. destruct s; simpl; lia.
    + rewrite IHgo. destruct s; simpl; lia.
Qed.

Lemma split_ws_length (s : jsstring) :
  List.length (split_ws s)
  = (count_tokens s
     + (match s with [] => 1 | _ => if starts_ws s then 1 else 0 end)
     + (if ends_ws s then 1 else 0))%nat.
Proof.
  unfold split_ws, count_tokens.
  rewrite (proj1 (split_lengths s)).
  destruct s as [|c s]; [reflexivity|].
  simpl. destruct (is_ws c); lia.
Qed.

(** On a text with no white space at either end the pieces are the words. *)
Lemma split_ws_tight (s : jsstring) :
  tight s -> List.length (split_ws s) = count_tokens s.
Proof.
  intros (Hne & Hs & He). rewrite split_ws_length, Hs, He.
  destruct s; [contradiction|lia].
Qed.

Lemma tight_app (a b : jsstring) (x y : N) :
  is_ws x = false -> is_ws y = false -> tight ((x :: a) ++ b ++ [y]).
Proof.
  intros Hx Hy. repeat split.
  - discriminate.
  - exact Hx.
  - unfold ends_ws. rewrite !rev_app_distr. simpl. exact Hy.
Qed.

End Words.

(** ** Computations that return *)

Section Returns.

(** [returns c P]: whatever the world answers, [c] returns a value, and the
    value satisfies [P]. *)
Definition returns {A} (c : M A) (P : A -> Prop) : Prop :=
  forall o h, exists a h', c o h = (Ok a, h') /\ P a.

Lemma returns_ret {A} (a : A) (P : A -> Prop) : P a -> returns (ret a) P.
Proof. intros Ha o h. exists a, h. split; [reflexivity|exact Ha]. Qed.

Lemma returns_bind {A B} (c : M A) (k : A -> M B) (P : A -> Prop) (Q : B -> Prop) :
  returns c P -> (forall a, P a -> returns (k a) Q) -> returns (bind c k) Q.
Proof.
  intros Hc Hk o h. destruct (Hc o h) as (a & h1 & E & Ha).
  destruct (Hk a Ha o h1) as (b & h2 & E' & Hb).
  exists b, h2. unfold bind. rewrite E. split; assumption.
Qed.

Lemma returns_weaken {A} (c : M A) (P Q : A -> Prop) :
  returns c P -> (forall a, P a -> Q a) -> returns c Q.
Proof.
  intros Hc HPQ o h. destruct (Hc o h) as (a & h1 & E & Ha).
  exists a, h1. split; [exact E|apply HPQ, Ha].
Qed.




Lemma returns_choose (options : list jsstring) (P : jsstring -> Prop) :
  options <> [] ->
  (forall i, (i < List.length options)%nat -> P (nth i options [])) ->
  returns (ScriptGenerator.choose options) P.
Proof.
  intros Hne HP o h. eexists _, _. split; [reflexivity|].
  apply HP. apply Nat.mod_upper_bound. destruct options; [contradiction|discriminate].
Qed.

End Returns.

(** ** The narration text has no white space at its ends *)

Section ScriptShape.

Import ScriptGenerator.

Definition starts_tight (s : jsstring) : Prop :=
  exists x a, s = x :: a /\ is_ws x = false.

Definition ends_tight (s : jsstring) : Prop :=
  exists b y, s = b ++ [y] /\ is_ws y = false.

Lemma ends_ws_app (a b : jsstring) : b <> [] -> ends_ws (a ++ b) = ends_ws b.
Proof.
  intros Hb. unfold ends_ws. rewrite rev_app_distr.
  destruct (rev b) eqn:E; [|reflexivity].
  apply (f_equal (@rev N)) in E. rewrite rev_involutive in E. contradiction.
Qed.

Lemma ends_tight_intro (s : jsstring) : s <> [] -> ends_ws s = false -> ends_tight s.
Proof.
  intros Hne He. destruct (exists_last Hne) as (b & y & ->).
  exists b, y. split; [reflexivity|].
  unfold ends_ws in He. rewrite rev_unit in He. exact He.
Qed.

Lemma tight_of_ends (s : jsstring) : starts_tight s -> ends_tight s -> tight s.
Proof.
  intros (x & a & -> & Hx) (b & y & E & Hy). repeat split.
  - discriminate.
  - exact Hx.
  - rewrite E. unfold ends_ws. rewrite rev_unit. exact Hy.
Qed.

Lemma tight_concat (a b c : jsstring) :
  starts_tight a -> ends_tight c -> tight (a ++ b ++ c).
Proof.
  intros (x & a' & -> & Hx) (c' & y & -> & Hy).
  replace ((x :: a') ++ b ++ c' ++ [y]) with ((x :: a') ++ (b ++ c') ++ [y])
    by (rewrite <- !app_assoc; reflexivity).
  apply tight_app; assumption.
Qed.

Ltac literal_nonempty :=
  let H := fresh in
  intro H; apply (f_equal (@List.length N)) in H;
  rewrite ?length_app in H; cbn in H; lia.

Lemma intros_start topicText emoji st i :
  (i < 3)%nat -> starts_tight (nth i (intros topicText emoji st) []).
Proof.
  intros Hi.
  destruct st; destruct i as [|[|[|i]]]; try lia;
    cbn [intros nth]; eexists _, _; (split; [reflexivity|reflexivity]).
Qed.

Lemma outros_end emoji st i :
  (i < 3)%nat -> ends_tight (nth i (outros emoji st) []).
Proof.
  intros Hi.
  destruct st; destruct i as [|[|[|i]]]; try lia; cbn [outros nth];
    (apply ends_tight_intro;
     [ literal_nonempty
     | repeat (rewrite ends_ws_app by literal_nonempty); reflexivity ]).
Qed.

Ltac table_cases k :=
  destruct k as [|k|k]; try discriminate;
  repeat (destruct k as [k|k|]; try discriminate).

Lemma rankIntro_options r st emoji :
  default [js "At number " ++ showNumber r ++ js "..."]
    (match st with
     | energetic => energeticIntros emoji
     | casual => casualIntros
     | professional => professionalIntros
     end (rank_key r)) <> [].
Proof.
  destruct st; generalize (rank_key r); intros k; table_cases k.
Qed.

Lemma description_options r clean st :
  default [js "An impressive entry that deserves recognition."]
    (match st with
     | energetic => energeticDescriptions clean
     | casual => casualDescriptions clean
     | professional => professionalDescriptions clean
     end (rank_key r)) <> [].
Proof.
  destruct st; generalize (rank_key r); intros k; table_cases k.
Qed.

Lemma returns_getRankIntro r st emoji :
  returns (getRankIntro r st emoji) (fun _ => True).
Proof.
  apply returns_choose; [apply rankIntro_options|trivial].
Qed.

Lemma returns_getDefaultDescription r title st :
  returns (getDefaultDescription r title st) (fun _ => True).
Proof.
  apply returns_choose; [apply description_options|trivial].
Qed.

Lemma returns_rankingSections items st emoji sections :
  returns (rankingSections items st emoji sections) (fun _ => True).
Proof.
  revert sections. induction items as [|item rest IH]; intros sections.
  - apply returns_ret. exact I.
  - cbn [rankingSections].
    eapply returns_bind; [apply returns_getRankIntro|]. intros rankIntro _.
    eapply returns_bind with (P := fun _ => True).
    + destruct (description item) as [d|];
        [destruct (nonempty (trim d)); [apply returns_ret; exact I|]|];
        apply returns_getDefaultDescription.
    + intros text _. apply IH.
Qed.

(** The template script starts with a letter and ends with a full stop or an
    exclamation mark, whatever the random source draws. *)
Lemma returns_generateTemplateScript items topic st emoji :
  returns (generateTemplateScript items topic st emoji) tight.
Proof.
  unfold generateTemplateScript.
  eapply returns_bind.
  { apply returns_choose with (P := starts_tight).
    - destruct st; discriminate.
    - intros i Hi. apply intros_start. destruct st; exact Hi. }
  intros intro Hintro.
  eapply returns_bind; [apply returns_rankingSections|]. intros sections _.
  eapply returns_bind.
  { apply returns_choose with (P := ends_tight).
    - destruct st; discriminate.
    - intros i Hi. apply outros_end. destruct st; exact Hi. }
  intros outro Houtro. apply returns_ret. apply tight_concat; assumption.
Qed.

(** *** What the cleaning of a model's answer leaves *)















End ScriptShape.

(** ** Backend selection *)

Section BackendSelection.

Import TtsService.

(** The selection as the specification words it. *)
Definition named (env : gmap jsstring jsstring) (s : TTSService) : Prop :=
  exists v, env !! js "TTS_SERVICE" = Some v /\ toLowerCase v = service_name s.

Definition key_set (env : gmap jsstring jsstring) (name : string) : Prop :=
  exists v, env !! js name = Some v /\ v <> [].

Definition flag_set (env : gmap jsstring jsstring) : Prop :=
  env !! js "USE_COQUI_TTS" = Some (js "true").

Inductive selects (env : gmap jsstring jsstring) : TTSService -> Prop :=
| by_name s :
    named env s -> selects env s
| by_premium_key :
    (forall s, ~ named env s) -> key_set env "ELEVENLABS_API_KEY" ->
    selects env ElevenLabs
| by_free_key :
    (forall s, ~ named env s) -> ~ key_set env "ELEVENLABS_API_KEY" ->
    key_set env "HUGGINGFACE_API_KEY" -> selects env HuggingFace
| by_local_flag :
    (forall s, ~ named env s) -> ~ key_set env "ELEVENLABS_API_KEY" ->
    ~ key_set env "HUGGINGFACE_API_KEY" -> flag_set env -> selects env Coqui
| by_default :
    (forall s, ~ named env s) -> ~ key_set env "ELEVENLABS_API_KEY" ->
    ~ key_set env "HUGGINGFACE_API_KEY" -> ~ flag_set env -> selects env Mock.

Lemma jseqb_eq (a b : jsstring) : jseqb a b = true <-> a = b.
Proof.
  unfold jseqb. rewrite andb_true_iff, Nat.eqb_eq. split.
  - intros [Hl Hs]. revert b Hl Hs.
    induction a as [|x a IH]; intros [|y b]; try discriminate; [reflexivity|].
    cbn. intros [= Hl] H. apply andb_true_iff in H as [Hx Hs].
    apply N.eqb_eq in Hx. f_equal; [exact Hx|apply IH; assumption].
  - intros <-. split; [reflexivity|].
    induction a as [|x a IH]; [reflexivity|]. cbn. rewrite N.eqb_refl. exact IH.
Qed.

Lemma service_of_name_spec (v : jsstring) (s : TTSService) :
  service_of_name v = Some s <-> v = service_name s.
Proof.
  unfold service_of_name.
  destruct (jseqb v (js "mock")) eqn:E1;
    [apply jseqb_eq in E1; subst; destruct s; split; (discriminate || reflexivity)|].
  destruct (jseqb v (js "huggingface")) eqn:E2;
    [apply jseqb_eq in E2; subst; destruct s; split; (discriminate || reflexivity)|].
  destruct (jseqb v (js "elevenlabs")) eqn:E3;
    [apply jseqb_eq in E3; subst; destruct s; split; (discriminate || reflexivity)|].
  destruct (jseqb v (js "coqui")) eqn:E4;
    [apply jseqb_eq in E4; subst; destruct s; split; (discriminate || reflexivity)|].
  split; [discriminate|]. intros ->.
  destruct s; [rewrite (proj2 (jseqb_eq _ _) eq_refl) in E1
              |rewrite (proj2 (jseqb_eq _ _) eq_refl) in E2
              |rewrite (proj2 (jseqb_eq _ _) eq_refl) in E3
              |rewrite (proj2 (jseqb_eq _ _) eq_refl) in E4]; discriminate.
Qed.

Lemma env_set_spec env name : env_set env name = true <-> key_set env name.
Proof.
  unfold env_set, env_get, key_set.
  destruct (env !! js name) as [[|c v]|]; split;
    try discriminate; try reflexivity.
  - intros (v & [= <-] & H). contradiction.
  - intros _. eexists. split; [reflexivity|discriminate].
  - intros (v & [=] & _).
Qed.

Lemma flag_set_spec env :
  match env !! js "USE_COQUI_TTS" with
  | Some v => jseqb v (js "true")
  | None => false
  end = true <-> flag_set env.
Proof.
  unfold flag_set. destruct (env !! js "USE_COQUI_TTS") as [v|].
  - rewrite jseqb_eq. split; [intros ->; reflexivity|intros [= ->]; reflexivity].
  - split; discriminate.
Qed.

Lemma named_spec env s :
  option_map toLowerCase (env !! js "TTS_SERVICE") ≫= service_of_name = Some s
  <-> named env s.
Proof.
  unfold named. destruct (env !! js "TTS_SERVICE") as [v|]; cbn.
  - rewrite service_of_name_spec. split.
    + intros H. exists v. split; [reflexivity|exact H].
    + intros (v' & [= <-] & H). exact H.
  - split; [discriminate|]. intros (v & [=] & _).
Qed.

Lemma detect_selects env : selects env (detectTTSService env).
Proof.
  unfold detectTTSService.
  destruct (option_map toLowerCase (env !! js "TTS_SERVICE") ≫= service_of_name)
    as [s|] eqn:En.
  { apply by_name, named_spec, En. }
  assert (Hn : forall s, ~ named env s).
  { intros s H. apply named_spec in H. congruence. }
  destruct (env_set env "ELEVENLABS_API_KEY") eqn:E1.
  { apply by_premium_key; [exact Hn|apply env_set_spec, E1]. }
  assert (H1 : ~ key_set env "ELEVENLABS_API_KEY").
  { intros H. apply env_set_spec in H. congruence. }
  destruct (env_set env "HUGGINGFACE_API_KEY") eqn:E2.
  { apply by_free_key; [exact Hn|exact H1|apply env_set_spec, E2]. }
  assert (H2 : ~ key_set env "HUGGINGFACE_API_KEY").
  { intros H. apply env_set_spec in H. congruence. }
  pose proof (flag_set_spec env) as Hf.
  destruct (env !! js "USE_COQUI_TTS") as [v|].
  - destruct (jseqb v (js "true")).
    + apply by_local_flag; try assumption. apply Hf. reflexivity.
    + apply by_default; try assumption. intros H. apply Hf in H. discriminate.
  - apply by_default; try assumption. intros H. apply Hf in H. discriminate.
Qed.

Lemma service_name_inj s s' : service_name s = service_name s' -> s = s'.
Proof. destruct s, s'; (reflexivity || discriminate). Qed.

Lemma selects_unique env s s' : selects env s -> selects env s' -> s = s'.
Proof.
  intros H H'.
  destruct H as [s (v & Hv & Hs)| | | | ];
    destruct H' as [s' (v' & Hv' & Hs')| | | | ];
    try reflexivity; try contradiction;
    try (exfalso; eapply H; eexists; split; eassumption);
    try (exfalso; eapply H2; eexists; split; eassumption).
  rewrite Hv in Hv'. injection Hv' as <-. apply service_name_inj. congruence.
Qed.

(** The backend a call is routed to, by service. *)
Definition backend (s : TTSService) (env : gmap jsstring jsstring)
    (text path : jsstring) (options : TTSOptions) : M TTSResult :=
  match s with
  | HuggingFace => generateHuggingFaceTTS env text path options
  | ElevenLabs => generateElevenLabsTTS env text path options
  | Coqui => generateCoquiTTS text path options
  | Mock => generateMockTTS text path
  end.

(** C5.  The backend of a synthesis call is chosen from the environment
    alone, in this order of precedence: the service named by TTS_SERVICE
    when that name is, letter case apart, one of the four service names;
    else the premium backend when ELEVENLABS_API_KEY is set; else the free
    backend when HUGGINGFACE_API_KEY is set; else the local engine when
    USE_COQUI_TTS is "true"; else the mock.  The choice is the only one the
    order allows, it reads no variable besides these four, and every call
    routes by the choice made from the environment of that call. *)
Theorem backend_selection_precedence (env : gmap jsstring jsstring) :
  selects env (detectTTSService env)
  /\ (forall s, selects env s -> s = detectTTSService env)
  /\ (forall env' : gmap jsstring jsstring,
        env' !! js "TTS_SERVICE" = env !! js "TTS_SERVICE" ->
        env' !! js "ELEVENLABS_API_KEY" = env !! js "ELEVENLABS_API_KEY" ->
        env' !! js "HUGGINGFACE_API_KEY" = env !! js "HUGGINGFACE_API_KEY" ->
        env' !! js "USE_COQUI_TTS" = env !! js "USE_COQUI_TTS" ->
        detectTTSService env' = detectTTSService env)
  /\ (forall text c path options,
        textToSpeech env text (Some (c :: path)) options
        = (ensureTTSDirectory ;;;
           backend (detectTTSService env) env text (c :: path) options)).
Proof.
  split; [apply detect_selects|].
  split; [intros s Hs; exact (selects_unique env _ _ Hs (detect_selects env))|].
  split.
  - intros env' H1 H2 H3 H4.
    unfold detectTTSService, env_set, env_get. rewrite H1, H2, H3, H4. reflexivity.
  - intros text c path options. unfold textToSpeech, backend.
    destruct (detectTTSService env); reflexivity.
Qed.

End BackendSelection.

(** ** Narration results *)

Section Narration.

Import ScriptGenerator.



(** The same count on any text without white space at its ends. *)
Lemma estimateScriptDuration_words (text : jsstring) :
  tight text ->
  estimateScriptDuration text = estimate (Z.of_nat (count_tokens text)).
Proof.
  intros H. unfold estimateScriptDuration. rewrite (split_ws_tight _ H). reflexivity.
Qed.

(** The binary64 product is not the exact one: 155 words are estimated at
    63 seconds, one more than the exact ceiling of 155 / 150 * 60 = 62. *)
Remark estimate_155 : estimate 155 = ofZ 63 /\ (155 * 60 + 149) / 150 = 62.
Proof. split; vm_compute; reflexivity. Qed.

(** C8.  With no HUGGINGFACE_API_KEY in the environment, a run that asks for
    the remote model and a run that does not return the same result from the
    same world (the same draws of the random source): the same script, word
    count and duration, with [wasPolished] false; the calls they make are
    the same too.  This holds for every list of items, topic, style and
    emoji setting. *)
Theorem llm_without_credential env rankingData topic optTopic st emoji o h :
  TtsService.env_set env "HUGGINGFACE_API_KEY" = false ->
  generateRankingScript env rankingData topic
    (mkScriptOptions optTopic st emoji (Some true)) o h
  = generateRankingScript env rankingData topic
      (mkScriptOptions optTopic st emoji (Some false)) o h
  /\ exists r h',
       generateRankingScript env rankingData topic
         (mkScriptOptions optTopic st emoji (Some true)) o h = (Ok r, h')
       /\ wasPolished r = false.
Proof.
  intros Hkey.
  assert (E : generateRankingScript env rankingData topic
                (mkScriptOptions optTopic st emoji (Some true))
              = generateRankingScript env rankingData topic
                  (mkScriptOptions optTopic st emoji (Some false))).
  { unfold generateRankingScript. cbn [useLLM opt_style includeEmojis opt_topic default].
    rewrite Hkey. reflexivity. }
  split; [rewrite E; reflexivity|].
  rewrite E. unfold generateRankingScript.
  cbn [useLLM opt_style includeEmojis opt_topic default andb].
  destruct (returns_generateTemplateScript
              (sort_by (fun a b => fgt (fsub (rank b) (rank a)) (ofZ 0)) rankingData)
              (match truthy_string topic with
               | Some t => Some t
               | None => optTopic
               end) (default energetic st) (default true emoji) o h)
    as (template & h' & Et & _).
  eexists _, h'. unfold bind at 1. rewrite Et. cbn. split; reflexivity.
Qed.

Lemma llm_without_credential_witness :
  generateRankingScript ∅ Samples.five_items None
    (mkScriptOptions None (Some casual) (Some false) (Some true)) Samples.quiet []
  = generateRankingScript ∅ Samples.five_items None
      (mkScriptOptions None (Some casual) (Some false) (Some false)) Samples.quiet []
  /\ exists r h',
       generateRankingScript ∅ Samples.five_items None
         (mkScriptOptions None (Some casual) (Some false) (Some true)) Samples.quiet []
       = (Ok r, h')
       /\ wasPolished r = false.
Proof.
  apply (llm_without_credential ∅ Samples.five_items None None (Some casual)
           (Some false) Samples.quiet []).
  reflexivity.
Defined.

End Narration.

(** ** The normalizer *)

Section Normalizer.

Import VideoProcessor.

Lemma SFcompare_antisym (x y : spec_float) :
  SFcompare y x = option_map CompOpp (SFcompare x y).
Proof.
  destruct x as [sx|sx| |sx mx ex], y as [sy|sy| |sy my ey]; cbn;
    try reflexivity;
    try (destruct sx; reflexivity);
    try (destruct sy; reflexivity);
    try (destruct sx, sy; reflexivity).
  destruct sx, sy; try reflexivity; f_equal;
    rewrite (Z.compare_antisym ex ey);
    destruct (ex ?= ey)%Z; cbn; try reflexivity.
  - f_equal. exact (eq_sym (Pos.compare_cont_antisym mx my Eq)).
  - exact (eq_sym (Pos.compare_cont_antisym mx my Eq)).
Qed.

Lemma flt_not_fgt (x y : number) : flt x y = true -> fgt x y = false.
Proof.
  unfold flt, fgt, SFltb. rewrite (SFcompare_antisym x y).
  destruct (SFcompare x y) as [[]|]; cbn; congruence.
Qed.

Lemma feq_neither (x y : number) :
  feq x y = true -> fgt x y = false /\ flt x y = false.
Proof.
  unfold feq, flt, fgt, SFeqb, SFltb. rewrite (SFcompare_antisym x y).
  destruct (SFcompare x y) as [[]|]; cbn; try discriminate. split; reflexivity.
Qed.

Definition cropFilter (inW inH : Z) : jsstring :=
  let cropWidth := Math_round (fmul (ofZ inH) targetAspect) in
  let cropX := Math_round (fdiv (fsub (ofZ inW) cropWidth) (ofZ 2)) in
  js "crop=" ++ showNumber cropWidth ++ js ":" ++ showNumber (ofZ inH) ++ js ":"
  ++ showNumber cropX ++ js ":0,scale=1080:1920,setsar=1,fps=30".

Definition padFilter : jsstring :=
  js "scale=1080:-2,pad=1080:1920:(ow-iw)/2:(oh-ih)/2:black,setsar=1,fps=30".

Definition scaleFilter : jsstring := js "scale=1080:1920,setsar=1,fps=30".

Lemma normalizeFilter_cases (w h : Z) :
  normalizeFilter w h
  = if fgt (fdiv (ofZ w) (ofZ h)) targetAspect then cropFilter w h
    else if flt (fdiv (ofZ w) (ofZ h)) targetAspect then padFilter
    else scaleFilter.
Proof.
  unfold normalizeFilter, cropFilter.
  destruct (fgt (fdiv (ofZ w) (ofZ h)) targetAspect).
  - cbn [join]. rewrite <- !app_assoc. reflexivity.
  - destruct (flt (fdiv (ofZ w) (ofZ h)) targetAspect); vm_compute; reflexivity.
Qed.

Lemma returns_runFFmpeg_or_throws command o h :
  exists r, runFFmpeg command o h = (r, Exec command :: h).
Proof.
  unfold runFFmpeg, try_catch, execAsync.
  destruct (on_exec o h command); eexists; reflexivity.
Qed.

Lemma returns_getVideoInfo videoPath o h :
  exists info,
    getVideoInfo videoPath o h
    = (Ok info,
       Exec (js "ffprobe -v quiet -print_format json -show_streams -show_format "
             ++ dq ++ videoPath ++ dq) :: h).
Proof.
  unfold getVideoInfo.
  set (command := js "ffprobe -v quiet -print_format json -show_streams -show_format "
                  ++ dq ++ videoPath ++ dq).
  unfold try_catch, bind.
  destruct (returns_runFFmpeg_or_throws command o h) as (r & E). rewrite E.
  destruct r as [out|e]; [|eexists; reflexivity].
  cbn. destruct (parse_report o out.1); eexists; reflexivity.
Qed.

(** What [normalizeVideo] runs, once the probe has answered. *)
Lemma normalizeVideo_runs inputPath outputPath o h info h1 :
  getVideoInfo inputPath o h = (Ok info, h1) ->
  exists r h2 tail,
    normalizeVideo inputPath outputPath o h = (r, h2)
    /\ h2 = tail ++ Exec (normalizeCommand inputPath outputPath
                            (normalizeFilter (width info) (height info))) :: h1.
Proof.
  intros E. unfold normalizeVideo, bind. rewrite E.
  destruct (returns_runFFmpeg_or_throws
              (normalizeCommand inputPath outputPath
                 (normalizeFilter (width info) (height info))) o h1) as (r & Er).
  rewrite Er. destruct r as [out|e].
  - destruct (returns_getVideoInfo outputPath o
                (Exec (normalizeCommand inputPath outputPath
                         (normalizeFilter (width info) (height info))) :: h1))
      as (info' & E').
    rewrite E'. eexists _, _, [_]. split; reflexivity.
  - eexists _, _, []. split; reflexivity.
Qed.

(** C7.  For a probed frame of [w] by [h] pixels the filter chain follows
    the comparison of [w / h] with 1080 / 1920: when it is greater, a crop of
    width [Math.round(h * targetAspect)] at horizontal offset
    [Math.round((w - cropWidth) / 2)] and full height, then a scale to
    1080x1920; when it is smaller, a scale to width 1080 that keeps the
    aspect, then a black pad to 1080x1920 centred vertically; when it is
    equal, a scale to 1080x1920.  In every case the chain ends by setting
    square pixels and 30 frames per second, and it is the chain of the
    command that [normalizeVideo] runs for the size the probe reported. *)
Theorem normalizer_decision_rule (w h : Z) :
  let inputAspect := fdiv (ofZ w) (ofZ h) in
  (fgt inputAspect targetAspect = true -> normalizeFilter w h = cropFilter w h)
  /\ (flt inputAspect targetAspect = true -> normalizeFilter w h = padFilter)
  /\ (feq inputAspect targetAspect = true -> normalizeFilter w h = scaleFilter)
  /\ (exists chain, normalizeFilter w h = chain ++ js ",setsar=1,fps=30")
  /\ (forall inputPath outputPath o hist info hist1,
        getVideoInfo inputPath o hist = (Ok info, hist1) ->
        width info = w -> height info = h ->
        exists r hist2 tail,
          normalizeVideo inputPath outputPath o hist = (r, hist2)
          /\ hist2 = tail ++ Exec (normalizeCommand inputPath outputPath
                                     (normalizeFilter w h)) :: hist1).
Proof.
  intros inputAspect.
  pose proof (normalizeFilter_cases w h) as Hcases. fold inputAspect in Hcases.
  split; [intros H; rewrite Hcases, H; reflexivity|].
  split; [intros H; rewrite Hcases, (flt_not_fgt _ _ H), H; reflexivity|].
  split; [intros H; rewrite Hcases; destruct (feq_neither _ _ H) as [-> ->];
          reflexivity|].
  split.
  - rewrite Hcases.
    destruct (fgt inputAspect targetAspect); [|destruct (flt inputAspect targetAspect)].
    + unfold cropFilter.
      exists (js "crop=" ++ showNumber (Math_round (fmul (ofZ h) targetAspect))
              ++ js ":" ++ showNumber (ofZ h) ++ js ":"
              ++ showNumber (Math_round
                   (fdiv (fsub (ofZ w) (Math_round (fmul (ofZ h) targetAspect))) (ofZ 2)))
              ++ js ":0,scale=1080:1920").
      rewrite <- !app_assoc. reflexivity.
    + exists (js "scale=1080:-2,pad=1080:1920:(ow-iw)/2:(oh-ih)/2:black"). reflexivity.
    + exists (js "scale=1080:1920"). reflexivity.
  - intros inputPath outputPath o hist info hist1 E Hw Hh. subst w h.
    exact (normalizeVideo_runs inputPath outputPath o hist info hist1 E).
Qed.

Example normalize_landscape :
  normalizeFilter 1920 1080 = js "crop=608:1080:656:0,scale=1080:1920,setsar=1,fps=30".
Proof. vm_compute. reflexivity. Qed.

Example normalize_tall :
  normalizeFilter 720 1600 = padFilter.
Proof. vm_compute. reflexivity. Qed.

Example normalize_exact :
  normalizeFilter 1080 1920 = scaleFilter.
Proof. vm_compute. reflexivity. Qed.

Definition probeCommand (videoPath : jsstring) : jsstring :=
  js "ffprobe -v quiet -print_format json -show_streams -show_format "
  ++ dq ++ videoPath ++ dq.





End Normalizer.

(** * The frame rate of a probed stream

    [evalFps] reads the rate the probe prints, [n/d] or a decimal, with
    [Number] and divides in binary64. *)

Section FrameRate.
Import JS VideoProcessor.


(** *** Integers are read back from their decimal rendering *)

Definition is_digit (c : N) : Prop := (48 <= c <= 57)%N.

Definition plain (s : jsstring) : Prop := List.Forall is_digit s.

Lemma show_uint_plain (d : Decimal.uint) : plain (show_uint d).
Proof.
  induction d; cbn [show_uint]; constructor; try assumption; unfold is_digit; lia.
Qed.

Lemma to_uint_not_nil (p : positive) : Pos.to_uint p <> Decimal.Nil.
Proof.
  intros E. pose proof (Unsigned.of_to p) as H. rewrite E in H. discriminate H.
Qed.

Lemma show_uint_not_nil (d : Decimal.uint) : d <> Decimal.Nil -> show_uint d <> [].
Proof. destruct d; intros H; try discriminate; congruence. Qed.

(** The value of a row of decimal digits read after [acc]. *)
Fixpoint uint_value (acc : N) (d : Decimal.uint) : N :=
  match d with
  | Decimal.Nil => acc
  | Decimal.D0 d => uint_value (acc * 10 + 0) d
  | Decimal.D1 d => uint_value (acc * 10 + 1) d
  | Decimal.D2 d => uint_value (acc * 10 + 2) d
  | Decimal.D3 d => uint_value (acc * 10 + 3) d
  | Decimal.D4 d => uint_value (acc * 10 + 4) d
  | Decimal.D5 d => uint_value (acc * 10 + 5) d
  | Decimal.D6 d => uint_value (acc * 10 + 6) d
  | Decimal.D7 d => uint_value (acc * 10 + 7) d
  | Decimal.D8 d => uint_value (acc * 10 + 8) d
  | Decimal.D9 d => uint_value (acc * 10 + 9) d
  end%N.

Lemma uint_value_acc (d : Decimal.uint) (p : positive) :
  uint_value (Npos p) d = Npos (Pos.of_uint_acc d p).
Proof.
  revert p. induction d; intros p; cbn [uint_value Pos.of_uint_acc];
    try reflexivity;
    match goal with
    | |- uint_value ?a _ = N.pos (Pos.of_uint_acc _ ?q) =>
        replace a with (N.pos q) by lia; apply IHd
    end.
Qed.

Lemma uint_value_of_uint (d : Decimal.uint) : uint_value 0 d = Pos.of_uint d.
Proof.
  induction d; cbn [uint_value Pos.of_uint]; try reflexivity;
    try (rewrite <- uint_value_acc; reflexivity).
  exact IHd.
Qed.

Lemma read_digits_show (d : Decimal.uint) (acc : N) (cnt : nat) :
  read_digits 10 acc cnt (show_uint d)
  = (uint_value acc d, (cnt + length (show_uint d))%nat, []).
Proof.
  revert acc cnt. induction d; intros acc cnt; cbn [show_uint read_digits uint_value length];
    try (change (digit_of 10 _) with (Some 0%N) || change (digit_of 10 _) with (Some 1%N)
         || change (digit_of 10 _) with (Some 2%N) || change (digit_of 10 _) with (Some 3%N)
         || change (digit_of 10 _) with (Some 4%N) || change (digit_of 10 _) with (Some 5%N)
         || change (digit_of 10 _) with (Some 6%N) || change (digit_of 10 _) with (Some 7%N)
         || change (digit_of 10 _) with (Some 8%N) || change (digit_of 10 _) with (Some 9%N));
    cbv iota; try (rewrite IHd; f_equal; f_equal; lia).
  f_equal. f_equal. lia.
Qed.

Lemma read_digits_to_uint (p : positive) :
  exists n, read_digits 10 0 0 (show_uint (Pos.to_uint p))
            = (Npos p, S n, []).
Proof.
  rewrite read_digits_show, uint_value_of_uint, Unsigned.of_to.
  pose proof (show_uint_not_nil _ (to_uint_not_nil p)) as H.
  destruct (show_uint (Pos.to_uint p)) as [|c s]; [congruence|].
  exists (length s). reflexivity.
Qed.

Lemma digit_not_ws (c : N) : (45 <= c <= 57)%N -> is_ws c = false.
Proof.
  intros H. unfold is_ws.
  replace (c <=? 13)%N with false by (symmetry; apply N.leb_gt; lia).
  replace (8192 <=? c)%N with false by (symmetry; apply N.leb_gt; lia).
  repeat match goal with
         | |- context [(c =? ?k)%N] =>
             replace (c =? k)%N with false by (symmetry; apply N.eqb_neq; lia)
         end.
  rewrite andb_false_r. reflexivity.
Qed.

Lemma trim_solid (s : jsstring) :
  List.Forall (fun c => is_ws c = false) s -> trim s = s.
Proof.
  intros H.
  assert (Hstart : forall t, List.Forall (fun c => is_ws c = false) t -> trimStart t = t).
  { intros [|c t] Ht; [reflexivity|]. cbn [trimStart].
    inversion Ht as [|? ? Hc _]; subst. rewrite Hc. reflexivity. }
  unfold trim, trimEnd. rewrite (Hstart s H).
  rewrite Hstart by (apply List.Forall_rev; exact H).
  apply rev_involutive.
Qed.

Lemma plain_solid (s : jsstring) :
  plain s -> List.Forall (fun c => is_ws c = false) s.
Proof.
  apply List.Forall_impl. intros c Hc. apply digit_not_ws. unfold is_digit in Hc. lia.
Qed.

Lemma radix_prefix_plain (s : jsstring) : plain s -> radix_prefix s = None.
Proof.
  intros H. destruct s as [|c1 [|c2 s]]; try reflexivity.
  - unfold radix_prefix. cbn [js startsWith List.map list_ascii_of_string].
    rewrite !andb_false_r. reflexivity.
  - inversion H as [|? ? _ H']; subst. inversion H' as [|? ? Hc _]; subst.
    unfold is_digit in Hc.
    unfold radix_prefix. cbn [js startsWith List.map list_ascii_of_string].
    repeat match goal with
           | |- context [(N_of_ascii ?a =? c2)%N] =>
               replace (N_of_ascii a =? c2)%N with false
                 by (symmetry; apply N.eqb_neq; cbn; lia)
           end.
    rewrite !andb_false_r. reflexivity.
Qed.

Lemma read_unsigned_to_uint (neg : bool) (p : positive) :
  read_unsigned neg (show_uint (Pos.to_uint p)) = Some (ofZ (signed neg p), []).
Proof.
  unfold read_unsigned.
  destruct (read_digits_to_uint p) as [n Hn]. rewrite Hn.
  pose proof (show_uint_plain (Pos.to_uint p)) as Hp.
  destruct (show_uint (Pos.to_uint p)) as [|c s] eqn:E.
  - cbn in Hn. discriminate Hn.
  - inversion Hp as [|? ? Hc _]; subst. unfold is_digit in Hc.
    cbn [js startsWith List.map list_ascii_of_string].
    replace (N_of_ascii "I" =? c)%N with false
      by (symmetry; apply N.eqb_neq; cbn; lia).
    cbn [andb read_exponent of_decimal Z.of_nat Z.sub Z.opp Z.leb Z.compare].
    unfold ofZ. rewrite Z.pow_0_r, Z.mul_1_r. reflexivity.
Qed.

(** [Number] reads the decimal rendering of an integer as that integer. *)
Lemma Number_showZ (z : Z) : Number (showZ z) = ofZ z.
Proof.
  destruct z as [|p|p].
  - vm_compute. reflexivity.
  - unfold showZ, Z.to_int, Number.
    pose proof (show_uint_plain (Pos.to_uint p)) as Hp.
    rewrite trim_solid by (apply plain_solid; exact Hp).
    pose proof (read_unsigned_to_uint false p) as Hr.
    destruct (show_uint (Pos.to_uint p)) as [|c s] eqn:E.
    + exfalso. exact (show_uint_not_nil _ (to_uint_not_nil p) E).
    + rewrite radix_prefix_plain by exact Hp.
      inversion Hp as [|? ? Hc _]; subst. unfold is_digit in Hc.
      unfold read_decimal, read_sign.
      replace (c =? 43)%N with false by (symmetry; apply N.eqb_neq; lia).
      replace (c =? 45)%N with false by (symmetry; apply N.eqb_neq; lia).
      rewrite Hr. reflexivity.
  - unfold showZ, Z.to_int, Number.
    pose proof (show_uint_plain (Pos.to_uint p)) as Hp.
    rewrite trim_solid.
    2:{ constructor; [reflexivity|]. apply plain_solid; exact Hp. }
    change (radix_prefix (45%N :: show_uint (Pos.to_uint p))) with (@None N).
    unfold read_decimal, read_sign.
    change (45 =? 43)%N with false. change (45 =? 45)%N with true. cbv iota.
    rewrite read_unsigned_to_uint. reflexivity.
Qed.


(** *** Only zero is rounded to zero *)

Lemma digits2_bounds (p : positive) :
  2 ^ (Z.pos (digits2_pos p) - 1) <= Z.pos p < 2 ^ Z.pos (digits2_pos p).
Proof.
  induction p as [p IH|p IH|]; cbn [digits2_pos].
  - rewrite Pos2Z.inj_succ. replace (Z.succ (Z.pos (digits2_pos p)) - 1) with (Z.pos (digits2_pos p)) by lia.
    rewrite Z.pow_succ_r by lia.
    replace (Z.pos (digits2_pos p)) with (Z.succ (Z.pos (digits2_pos p) - 1)) at 1 by lia.
    rewrite Z.pow_succ_r by lia. lia.
  - rewrite Pos2Z.inj_succ. replace (Z.succ (Z.pos (digits2_pos p)) - 1) with (Z.pos (digits2_pos p)) by lia.
    rewrite Z.pow_succ_r by lia.
    replace (Z.pos (digits2_pos p)) with (Z.succ (Z.pos (digits2_pos p) - 1)) at 1 by lia.
    rewrite Z.pow_succ_r by lia. lia.
  - cbn. lia.
Qed.

Lemma shr_1_half (mrs : shr_record) :
  0 <= shr_m mrs -> shr_m (shr_1 mrs) = shr_m mrs / 2.
Proof.
  destruct mrs as [m r s]. cbn [shr_m]. intros Hm.
  destruct m as [|[p|p|]|p]; cbn [shr_1 shr_m]; try lia; try reflexivity.
  - apply Z.div_unique with 1; lia.
  - apply Z.div_unique with 0; lia.
Qed.

Lemma iter_shr_1 (q : positive) (mrs : shr_record) :
  0 <= shr_m mrs -> shr_m (SpecFloat.iter_pos shr_1 q mrs) = shr_m mrs / 2 ^ Z.pos q.
Proof.
  revert mrs. induction q as [q IH|q IH|]; intros mrs Hm; cbn [SpecFloat.iter_pos].
  - assert (H1 : 0 <= shr_m (shr_1 mrs)) by (rewrite shr_1_half by lia; apply Z.div_pos; lia).
    assert (H2 : 0 <= shr_m (SpecFloat.iter_pos shr_1 q (shr_1 mrs))) by (rewrite IH by lia; apply Z.div_pos; lia).
    rewrite IH, IH, shr_1_half by lia.
    rewrite !Z.div_div by lia. f_equal.
    rewrite Pos2Z.inj_xI. rewrite <- Z.pow_add_r by lia. rewrite <- Z.pow_succ_r by lia. f_equal. lia.
  - assert (H2 : 0 <= shr_m (SpecFloat.iter_pos shr_1 q mrs)) by (rewrite IH by lia; apply Z.div_pos; lia).
    rewrite IH, IH by lia.
    rewrite !Z.div_div by lia. f_equal.
    rewrite Pos2Z.inj_xO. rewrite <- Z.pow_add_r by lia. f_equal. lia.
  - rewrite shr_1_half by lia. reflexivity.
Qed.

(** A significand with more digits than the distance of its exponent to the
    least exponent: rounding cannot flush it to zero. *)
Definition roomy (m e : Z) : Prop :=
  exists d, 0 < d /\ 2 ^ (d - 1) <= m /\ emin prec emax - e < d.

Lemma roomy_pos (m e : Z) : roomy m e -> 0 < m.
Proof. intros (d & Hd & Hm & _). assert (0 < 2 ^ (d - 1)) by (apply Z.pow_pos_nonneg; lia). lia. Qed.

Lemma Zdigits2_ge (m d : Z) : 0 < d -> 2 ^ (d - 1) <= m -> d <= Zdigits2 m.
Proof.
  intros Hd Hm. assert (0 < 2 ^ (d - 1)) by (apply Z.pow_pos_nonneg; lia).
  destruct m as [|p|p]; try lia. cbn [Zdigits2].
  destruct (digits2_bounds p) as [_ Hlt].
  assert (2 ^ (d - 1) < 2 ^ Z.pos (digits2_pos p)) by lia.
  apply Z.pow_lt_mono_r_iff in H0; lia.
Qed.

Lemma Zdigits2_le (m : Z) : 0 < m -> 2 ^ (Zdigits2 m - 1) <= m.
Proof. destruct m as [|p|p]; try lia. intros _. apply digits2_bounds. Qed.

Lemma shr_fexp_roomy (m e : Z) (l : location) :
  roomy m e ->
  roomy (shr_m (fst (shr_fexp prec emax m e l))) (snd (shr_fexp prec emax m e l)).
Proof.
  intros Hr. pose proof (roomy_pos _ _ Hr) as Hpos.
  destruct Hr as (d & Hd & Hm & He).
  pose proof (Zdigits2_ge m d Hd Hm) as Hdm.
  pose proof (Zdigits2_le m Hpos) as Hlow.
  assert (Hshr : forall l, shr_m (shr_record_of_loc m l) = m) by (intros [|[]]; reflexivity).
  unfold shr_fexp, shr.
  assert (Hn : fexp prec emax (Zdigits2 m + e) - e < Zdigits2 m
               /\ emin prec emax - e <= fexp prec emax (Zdigits2 m + e) - e).
  { unfold fexp, emin, prec, emax in *. lia. }
  destruct (fexp prec emax (Zdigits2 m + e) - e) as [|q|q]; cbn [fst snd].
  - rewrite Hshr. exists d. auto.
  - rewrite iter_shr_1 by (rewrite Hshr; lia). rewrite Hshr.
    exists (Zdigits2 m - Z.pos q). split; [lia|]. split.
    + apply Z.div_le_lower_bound; [apply Z.pow_pos_nonneg; lia|].
      rewrite <- Z.pow_add_r by lia.
      replace (Z.pos q + (Zdigits2 m - Z.pos q - 1)) with (Zdigits2 m - 1) by lia.
      exact Hlow.
    + lia.
  - rewrite Hshr. exists d. auto.
Qed.

Lemma round_roomy (m e : Z) (l : location) : roomy m e -> roomy (round_nearest_even m l) e.
Proof.
  intros (d & Hd & Hm & He). exists d. split; [exact Hd|]. split; [|exact He].
  unfold round_nearest_even. destruct l as [|[]]; try lia. destruct (Z.even m); lia.
Qed.

Lemma binary_round_aux_truthy (s : bool) (m e : Z) (l : location) :
  roomy m e ->
  match binary_round_aux prec emax s m e l with
  | S754_zero _ | S754_nan => False
  | _ => True
  end.
Proof.
  intros Hr. unfold binary_round_aux.
  pose proof (shr_fexp_roomy m e l Hr) as H1.
  destruct (shr_fexp prec emax m e l) as [mrs' e'] eqn:E1. cbn [fst snd] in H1.
  apply (round_roomy _ _ (loc_of_shr_record mrs')) in H1.
  pose proof (shr_fexp_roomy _ _ loc_Exact H1) as H2.
  destruct (shr_fexp prec emax (round_nearest_even (shr_m mrs') (loc_of_shr_record mrs')) e' loc_Exact) as [mrs'' e''] eqn:E2.
  cbn [fst snd] in H2. apply roomy_pos in H2.
  destruct (shr_m mrs''); try lia. destruct (e'' <=? emax - prec); exact I.
Qed.

Lemma iter_xO (p k : positive) : Z.pos (Pos.iter xO p k) = Z.pos p * 2 ^ Z.pos k.
Proof.
  induction k as [|k IH] using Pos.peano_ind.
  - cbn. lia.
  - rewrite Pos.iter_succ, Pos2Z.inj_xO, IH, Pos2Z.inj_succ, Z.pow_succ_r by lia. lia.
Qed.

Lemma binary_round_truthy (s : bool) (p : positive) :
  match binary_round prec emax s p 0 with
  | S754_zero _ | S754_nan => False
  | _ => True
  end.
Proof.
  unfold binary_round.
  destruct (shl_align p 0 (fexp prec emax (Z.pos (digits2_pos p) + 0))) as [mz ez] eqn:E.
  apply binary_round_aux_truthy.
  unfold shl_align in E.
  destruct (digits2_bounds p) as [Hlow _].
  set (d := Z.pos (digits2_pos p)) in *.
  destruct (fexp prec emax (d + 0) - 0) as [|k|k] eqn:Ek; injection E as <- <-.
  - exists d. unfold emin, prec, emax. repeat split; lia.
  - exists d. unfold emin, prec, emax. repeat split; lia.
  - rewrite iter_xO. exists (d + Z.pos k). split; [lia|]. split.
    + replace (d + Z.pos k - 1) with ((d - 1) + Z.pos k) by lia.
      rewrite Z.pow_add_r by lia. apply Z.mul_le_mono_nonneg_r; [apply Z.pow_nonneg; lia|exact Hlow].
    + unfold fexp, emin, prec, emax in *. lia.
Qed.

Lemma ofZ_truthy (z : Z) : truthy (ofZ z) = negb (z =? 0).
Proof.
  destruct z as [|p|p]; [reflexivity| |]; cbn [Z.eqb negb];
    unfold ofZ, binary_normalize.
  - pose proof (binary_round_truthy false p) as H.
    destruct (binary_round prec emax false p 0); try contradiction; reflexivity.
  - pose proof (binary_round_truthy true p) as H.
    destruct (binary_round prec emax true p 0); try contradiction; reflexivity.
Qed.

(** *** Splitting at the stroke *)

Definition numeral (s : jsstring) : Prop :=
  List.Forall (fun c => c = 45%N \/ is_digit c) s.

Lemma showZ_numeral (z : Z) : numeral (showZ z).
Proof.
  unfold showZ. destruct (Z.to_int z) as [d|d].
  - eapply List.Forall_impl; [|apply show_uint_plain]. intros c Hc. right. exact Hc.
  - constructor; [left; reflexivity|].
    eapply List.Forall_impl; [|apply show_uint_plain]. intros c Hc. right. exact Hc.
Qed.

Lemma numeral_no_slash (s : jsstring) : numeral s -> ~ In slash s.
Proof.
  intros H Hin. unfold numeral in H. rewrite List.Forall_forall in H.
  destruct (H _ Hin) as [E|E]; [discriminate E|].
  unfold is_digit, slash in E. lia.
Qed.

Lemma includes_unit (c : N) (s : jsstring) : In c s -> includes [c] s = true.
Proof.
  unfold includes. induction s as [|x s IH]; intros Hin; [destruct Hin|].
  cbn [indexOf startsWith].
  destruct (N.eqb_spec c x) as [E|E].
  - destruct s; reflexivity.
  - destruct Hin as [Hx|Hin]; [congruence|].
    cbn [andb]. specialize (IH Hin).
    destruct (indexOf [c] s); [reflexivity|discriminate IH].
Qed.

Lemma split_char_whole (c : N) (piece s : jsstring) :
  ~ In c s -> split_char c piece s = [piece ++ s].
Proof.
  revert piece. induction s as [|x s IH]; intros piece Hin; cbn [split_char].
  - rewrite app_nil_r. reflexivity.
  - destruct (N.eqb_spec x c) as [E|E].
    + exfalso. apply Hin. left. exact E.
    + rewrite IH by (intros H; apply Hin; right; exact H).
      rewrite <- app_assoc. reflexivity.
Qed.

Lemma split_char_app (c : N) (piece a b : jsstring) :
  ~ In c a -> split_char c piece (a ++ c :: b) = (piece ++ a) :: split_char c [] b.
Proof.
  revert piece. induction a as [|x a IH]; intros piece Hin; cbn [split_char app].
  - rewrite N.eqb_refl, app_nil_r. reflexivity.
  - destruct (N.eqb_spec x c) as [E|E].
    + exfalso. apply Hin. left. exact E.
    + rewrite IH by (intros H; apply Hin; right; exact H).
      rewrite <- app_assoc. reflexivity.
Qed.

(** The rate [n/d] as the probe prints it. *)
Definition rational (n d : Z) : jsstring := showZ n ++ js "/" ++ showZ d.

(** C4, as amended: a rate written [n/d] with integers [n] and [d] is the
    binary64 quotient of [n] by [d], fraction included, and 30 when [d] is
    zero. *)
Theorem frame_rate_of_rational (n d : Z) :
  evalFps (rational n d) = if d =? 0 then ofZ 30 else fdiv (ofZ n) (ofZ d).
Proof.
  unfold evalFps, rational.
  change (js "/") with [slash].
  rewrite includes_unit by (apply in_or_app; right; left; reflexivity).
  cbn [app].
  rewrite split_char_app by (apply numeral_no_slash, showZ_numeral).
  rewrite split_char_whole by (apply numeral_no_slash, showZ_numeral).
  cbn [app List.map]. rewrite !Number_showZ, ofZ_truthy.
  destruct (d =? 0); reflexivity.
Qed.

(** The rate of NTSC film, [30000/1001], is 29.97002997002997 and not the
    integer quotient 29. *)
Lemma frame_rate_keeps_fraction :
  evalFps (js "30000/1001") = S754_finite false 8435813487831848 (-48)
  /\ showNumber (evalFps (js "30000/1001")) = js "29.97002997002997"
  /\ evalFps (js "30000/1001") <> ofZ (30000 / 1001).
Proof.
  split; [vm_compute; reflexivity|]. split; [vm_compute; reflexivity|].
  vm_compute. discriminate.
Qed.

End FrameRate.

(** * The order of the clips in the final video *)

Section Ordering.
Import JS VideoProcessor.

(** *** The sort *)

Section InsertionSort.
Context {A : Type} (key : A -> Z).

Let after (a b : A) : bool := 0 <? key b - key a.

Lemma insert_sorted_perm (x : A) (l : list A) :
  Permutation (insert_sorted after x l) (x :: l).
Proof.
  induction l as [|y l IH]; cbn [insert_sorted]; [reflexivity|].
  destruct (after x y); [|reflexivity].
  rewrite IH. apply perm_swap.
Qed.

Lemma sort_by_perm (l : list A) : Permutation (sort_by after l) l.
Proof.
  induction l as [|x l IH]; cbn [sort_by]; [reflexivity|].
  rewrite insert_sorted_perm, IH. reflexivity.
Qed.

Lemma insert_sorted_descending (x : A) (l : list A) :
  StronglySorted (fun a b => key b <= key a) l ->
  StronglySorted (fun a b => key b <= key a) (insert_sorted after x l).
Proof.
  induction l as [|y l IH]; intros Hs; cbn [insert_sorted].
  - repeat constructor.
  - inversion Hs as [|? ? Hl Hy]; subst.
    unfold after at 1. destruct (Z.ltb_spec 0 (key y - key x)) as [Hlt|Hge].
    + constructor; [apply IH; exact Hl|].
      rewrite (insert_sorted_perm x l). constructor; [lia|exact Hy].
    + constructor; [exact Hs|]. constructor; [lia|].
      eapply List.Forall_impl; [|exact Hy]. cbn. intros a Ha. lia.
Qed.

Lemma sort_by_descending (l : list A) :
  StronglySorted (fun a b => key b <= key a) (sort_by after l).
Proof.
  induction l as [|x l IH]; cbn [sort_by]; [constructor|].
  apply insert_sorted_descending, IH.
Qed.

Lemma descending_strict (l : list A) :
  List.NoDup (List.map key l) ->
  StronglySorted (fun a b => key b <= key a) l ->
  StronglySorted (fun a b => key b < key a) l.
Proof.
  induction l as [|x l IH]; intros Hn Hs; [constructor|].
  inversion Hs as [|? ? Hl Hx]; subst. cbn [List.map] in Hn.
  inversion Hn as [|? ? Hnotin Hn']; subst.
  constructor; [apply IH; assumption|].
  rewrite List.Forall_forall in Hx |- *. intros y Hy.
  specialize (Hx y Hy).
  assert (key y <> key x).
  { intros E. apply Hnotin. rewrite <- E. apply List.in_map. exact Hy. }
  lia.
Qed.

End InsertionSort.

Lemma descending_unique (l1 l2 : list Z) :
  StronglySorted (fun a b => b < a) l1 ->
  StronglySorted (fun a b => b < a) l2 ->
  Permutation l1 l2 -> l1 = l2.
Proof.
  revert l2. induction l1 as [|a l1 IH]; intros l2 H1 H2 Hp.
  - apply Permutation_nil in Hp. congruence.
  - destruct l2 as [|b l2].
    + apply Permutation_sym, Permutation_nil in Hp. discriminate Hp.
    + inversion H1 as [|? ? H1' Ha]; subst. inversion H2 as [|? ? H2' Hb]; subst.
      rewrite List.Forall_forall in Ha, Hb.
      assert (a = b).
      { assert (Hin1 : In a (b :: l2)) by (eapply Permutation_in; [exact Hp|left; reflexivity]).
        assert (Hin2 : In b (a :: l1))
          by (eapply Permutation_in; [symmetry; exact Hp|left; reflexivity]).
        destruct Hin1 as [E|Hin1]; [congruence|].
        destruct Hin2 as [E|Hin2]; [congruence|].
        specialize (Ha _ Hin2). specialize (Hb _ Hin1). lia. }
      subst b. f_equal. apply IH; try assumption.
      eapply Permutation_cons_inv. exact Hp.
Qed.

Lemma sorted_map {A} (key : A -> Z) (l : list A) :
  StronglySorted (fun a b => key b < key a) l ->
  StronglySorted (fun a b => b < a) (List.map key l).
Proof.
  induction 1 as [|x l Hl IH Hx]; cbn [List.map]; constructor; [exact IH|].
  rewrite List.Forall_forall in Hx |- *. intros k Hk.
  apply List.in_map_iff in Hk. destruct Hk as (y & <- & Hy). apply Hx, Hy.
Qed.




(** *** The calls of the pipeline *)

(** The files written by a run, the latest first. *)
Definition writes (h : history) : list (jsstring * filedata) :=
  flat_map (fun c => match c with WriteFile p d => [(p, d)] | _ => [] end) h.

Definition ran (cmd : jsstring) (h : history) : Prop := In (Exec cmd) h.

(** A world in which every command, every write and every [mkdir] succeeds. *)
Definition cooperative (o : oracle) : Prop :=
  (forall h cmd, exists out, on_exec o h cmd = Ok out)
  /\ (forall h p d, on_write o h p d = Ok tt)
  /\ (forall h p, on_mkdir o h p = Ok tt).

Definition succeeded {A} (r : result A) : Prop :=
  match r with Ok _ => True | Throw _ => False end.

(** What a step of the pipeline does: it extends the history by calls that
    satisfy [Q], and in a cooperative world it does not throw. *)
Definition step {A} (c : M A) (o : oracle) (h : history)
    (Q : result A -> history -> Prop) : Prop :=
  exists r new,
    c o h = (r, new ++ h) /\ Q r new /\ (cooperative o -> succeeded r).









Definition normalizedPath (dir : jsstring) (i : Z) : jsstring :=
  path_join [dir; js "normalized_" ++ showZ i ++ js ".mp4"].

Definition overlayPath (dir : jsstring) (i : Z) : jsstring :=
  path_join [dir; js "overlay_" ++ showZ i ++ js ".mp4"].





















(** *** The manifest *)










Definition completed (r : result ProcessingResult) : Prop :=
  exists res, r = Ok res /\ success res = true.



(** The run of the shuffled job in a world where every command succeeds:
    the manifest and the labels of its entries. *)
Example shuffled_job_manifest :
  let run := processVideoPipeline Samples.shuffled_job Samples.quiet [] in
  completed (fst run)
  /\ writes (snd run)
     = [ (js "/tmp/job/concat_list.txt",
          Text (join nl [ js "file '/tmp/job/overlay_0.mp4'";
                          js "file '/tmp/job/overlay_1.mp4'";
                          js "file '/tmp/job/overlay_2.mp4'";
                          js "file '/tmp/job/overlay_3.mp4'";
                          js "file '/tmp/job/overlay_4.mp4'" ])) ]
  /\ ran (overlayCommand (js "/tmp/job/normalized_0.mp4") (js "/tmp/job/overlay_0.mp4") 5)
         (snd run)
  /\ ran (overlayCommand (js "/tmp/job/normalized_4.mp4") (js "/tmp/job/overlay_4.mp4") 1)
         (snd run)
  /\ (exists chain,
        ran (normalizeCommand (js "/tmp/up/e.mp4") (js "/tmp/job/normalized_0.mp4") chain)
            (snd run)).
Proof.
  cbv zeta. unfold ran.
  split; [eexists; split; vm_compute; reflexivity|].
  split; [vm_compute; reflexivity|].
  split; [apply (nth_error_In _ 9); vm_compute; reflexivity|].
  split; [apply (nth_error_In _ 5); vm_compute; reflexivity|].
  exists (normalizeFilter 0 0). apply (nth_error_In _ 23). vm_compute. reflexivity.
Qed.

End Ordering.



(** ** The mock synthesizer *)

Section MockSynthesizer.

Import TtsService.

(** The path of the WAV file written when the media tool is missing. *)
Definition wavPath (outputPath : jsstring) : jsstring :=
  if negb (endsWith (js ".wav") (toLowerCase outputPath))
  then replace_extension (js ".wav") outputPath
  else outputPath.

Definition mockSeconds (text : jsstring) : number :=
  Math_max (ofZ 10) (estimate (wordCount text)).

(** The number of bytes of silence for a text. *)
Definition mockDataSize (text : jsstring) : number :=
  fmul (fmul (ofZ sampleRate) (mockSeconds text)) (fdiv (fmul (ofZ 2) (ofZ 16)) (ofZ 8)).

(** Whatever the world answers, a result of the mock names the mock as its
    service and carries the duration computed from the pieces of the text. *)
Lemma mock_result text outputPath o h r h' :
  generateMockTTS text outputPath o h = (Ok r, h') ->
  service r = js "mock" /\ duration r = mockSeconds text
  /\ (audioPath r = outputPath \/ audioPath r = wavPath outputPath).
Proof.
  unfold generateMockTTS, try_catch, bind, execAsync.
  destruct (on_exec o h (js "ffmpeg -version")) as [v|e].
  - match goal with
    | |- context [on_exec o ?hh ?cmd] => destruct (on_exec o hh cmd) as [out|e]
    end.
    + cbn. intros [= <- <-]. cbn. auto.
    + match goal with
      | |- context [wav_header ?d o ?hh] => destruct (wav_header d o hh) as [[hd|e1] h1]
      end; [|cbn; discriminate].
      destruct (toZ _) as [z|]; [|cbn; discriminate].
      unfold alloc, bind, ret, ensureTTSDirectory, bind, ask, existsSync, mkdir, writeFile.
      destruct (on_alloc _ _ _); [|cbn; discriminate].
      cbn. destruct (on_exists _ _ _); cbn.
      * destruct (on_write _ _ _ _); cbn; [|discriminate].
        intros [= <- <-]. cbn. auto.
      * destruct (on_mkdir _ _ _); cbn; [|discriminate].
        destruct (on_write _ _ _ _); cbn; [|discriminate].
        intros [= <- <-]. cbn. auto.
  - match goal with
    | |- context [wav_header ?d o ?hh] => destruct (wav_header d o hh) as [[hd|e1] h1]
    end; [|cbn; discriminate].
    destruct (toZ _) as [z|]; [|cbn; discriminate].
    unfold alloc, bind, ret, ensureTTSDirectory, bind, ask, existsSync, mkdir, writeFile.
    destruct (on_alloc _ _ _); [|cbn; discriminate].
    cbn. destruct (on_exists _ _ _); cbn.
    + destruct (on_write _ _ _ _); cbn; [|discriminate].
      intros [= <- <-]. cbn. auto.
    + destruct (on_mkdir _ _ _); cbn; [|discriminate].
      destruct (on_write _ _ _ _); cbn; [|discriminate].
      intros [= <- <-]. cbn. auto.
Qed.

(** With the media tool at hand the mock returns, for the path it was given. *)
Lemma mock_with_media_tool text outputPath o h v out :
  on_exec o h (js "ffmpeg -version") = Ok v ->
  on_exec o (Exec (js "ffmpeg -version") :: h)
    (silence_command (mockSeconds text) outputPath) = Ok out ->
  generateMockTTS text outputPath o h
  = (Ok (mkResult outputPath (mockSeconds text) (js "mock")),
     [ Exec (silence_command (mockSeconds text) outputPath);
       Exec (js "ffmpeg -version") ] ++ h).
Proof.
  intros H1 H2. unfold generateMockTTS, try_catch, bind, execAsync.
  rewrite H1. fold (mockSeconds text). rewrite H2. reflexivity.
Qed.

Lemma mock_with_media_tool_witness :
  generateMockTTS (js "five great clips") (js "/tmp/job/voiceover.mp3") Samples.quiet []
  = (Ok (mkResult (js "/tmp/job/voiceover.mp3") (mockSeconds (js "five great clips"))
           (js "mock")),
     [ Exec (silence_command (mockSeconds (js "five great clips"))
               (js "/tmp/job/voiceover.mp3"));
       Exec (js "ffmpeg -version") ] ++ []).
Proof.
  apply (mock_with_media_tool _ _ Samples.quiet [] ([], []) ([], [])); reflexivity.
Defined.

Definition no_dot (x : N) : bool := negb (x =? dot)%N.

Lemma replace_extension_last (r stem ext : jsstring) :
  ext <> [] -> forallb no_dot ext = true ->
  replace_extension r (stem ++ dot :: ext) = stem ++ r.
Proof.
  intros Hne Hext. unfold replace_extension.
  induction stem as [|c stem IH]; cbn [app replace_tail].
  - rewrite N.eqb_refl. fold no_dot. rewrite Hext.
    destruct ext; [contradiction|reflexivity].
  - destruct (c =? dot)%N eqn:Ec; cbn [andb].
    + fold no_dot. rewrite forallb_app. cbn [forallb]. unfold no_dot at 2.
      rewrite N.eqb_refl. cbn [negb andb]. rewrite !andb_false_r.
      f_equal. exact IH.
    + f_equal. exact IH.
Qed.

Lemma replace_extension_no_dot (r s : jsstring) :
  forallb no_dot s = true -> replace_extension r s = s.
Proof.
  unfold replace_extension. induction s as [|c s IH]; [reflexivity|].
  cbn [forallb replace_tail]. intros H. apply andb_true_iff in H as [Hc Hs].
  unfold no_dot in Hc. apply negb_true_iff in Hc. rewrite Hc. cbn [andb].
  f_equal. apply IH, Hs.
Qed.

Lemma startsWith_app (p s : jsstring) : startsWith p (p ++ s) = true.
Proof. induction p as [|c p IH]; [reflexivity|]. cbn. rewrite N.eqb_refl. exact IH. Qed.

Lemma endsWith_app (p a : jsstring) : endsWith p (a ++ p) = true.
Proof. unfold endsWith. rewrite rev_app_distr. apply startsWith_app. Qed.

Lemma wavPath_replaces (stem ext : jsstring) :
  ext <> [] -> forallb no_dot ext = true ->
  endsWith (js ".wav") (toLowerCase (stem ++ dot :: ext)) = false ->
  wavPath (stem ++ dot :: ext) = stem ++ js ".wav"
  /\ wavPath (stem ++ dot :: ext) <> stem ++ dot :: ext.
Proof.
  intros Hne Hext Hends. unfold wavPath. rewrite Hends. cbn [negb].
  rewrite (replace_extension_last _ _ _ Hne Hext).
  split; [reflexivity|].
  intros E. apply app_inv_head in E. injection E as <-.
  unfold toLowerCase in Hends. rewrite map_app in Hends.
  change (List.map lower_unit (dot :: [119; 97; 118]%N)) with (js ".wav") in Hends.
  rewrite endsWith_app in Hends. discriminate.
Qed.

(** C10, as amended.  When the check for the media tool fails and the WAV
    header can be built, the buffer allocated, the directory ensured and the
    file written, the mock returns; the file it has written holds the header
    and the silence, at the path of the result.  That path is the requested
    one when the requested path ends in ".wav" in any letter case; when it
    does not, and the last dot of the requested path is followed by one or
    more characters, it is the requested path with everything from that dot
    on replaced by ".wav", which differs from the requested path.  The
    duration and the service are those of a run with the media tool. *)
Theorem mock_without_media_tool text outputPath o h e header size h1 :
  on_exec o h (js "ffmpeg -version") = Throw e ->
  wav_header (mockDataSize text) o (Exec (js "ffmpeg -version") :: h)
    = (Ok header, Exec (js "ffmpeg -version") :: h) ->
  toZ (mockDataSize text) = Some size ->
  on_alloc o (Exec (js "ffmpeg -version") :: h) size = Ok tt ->
  ensureTTSDirectory o (Alloc size :: Exec (js "ffmpeg -version") :: h) = (Ok tt, h1) ->
  on_write o h1 (wavPath outputPath) (Binary header size) = Ok tt ->
  generateMockTTS text outputPath o h
  = (Ok (mkResult (wavPath outputPath) (mockSeconds text) (js "mock")),
     WriteFile (wavPath outputPath) (Binary header size) :: h1)
  /\ (endsWith (js ".wav") (toLowerCase outputPath) = true ->
      wavPath outputPath = outputPath)
  /\ (forall stem ext,
        outputPath = stem ++ dot :: ext -> ext <> [] -> forallb no_dot ext = true ->
        endsWith (js ".wav") (toLowerCase outputPath) = false ->
        wavPath outputPath = stem ++ js ".wav" /\ wavPath outputPath <> outputPath).
Proof.
  intros Hver Hheader Hsize Halloc Hdir Hwrite.
  split; [|split].
  - unfold generateMockTTS, try_catch, bind, execAsync. rewrite Hver.
    fold (mockSeconds text). fold (mockDataSize text).
    rewrite Hheader, Hsize. unfold alloc, ret. rewrite Halloc, Hdir.
    fold (wavPath outputPath). unfold writeFile. rewrite Hwrite. reflexivity.
  - intros H. unfold wavPath. rewrite H. reflexivity.
  - intros stem ext -> Hne Hext Hends. apply wavPath_replaces; assumption.
Qed.

Lemma mock_without_media_tool_witness :
  generateMockTTS (js "hello world") (js "/tmp/job/voiceover.mp3") Samples.no_tools []
  = (Ok (mkResult (wavPath (js "/tmp/job/voiceover.mp3"))
           (mockSeconds (js "hello world")) (js "mock")),
     WriteFile (wavPath (js "/tmp/job/voiceover.mp3"))
       (Binary Samples.ten_seconds_header 1764000)
     :: [ ExistsSync (js "/tmp/shorts-ranker/tts"); Alloc 1764000;
          Exec (js "ffmpeg -version") ])
  /\ (endsWith (js ".wav") (toLowerCase (js "/tmp/job/voiceover.mp3")) = true ->
      wavPath (js "/tmp/job/voiceover.mp3") = js "/tmp/job/voiceover.mp3")
  /\ (forall stem ext,
        js "/tmp/job/voiceover.mp3" = stem ++ dot :: ext -> ext <> [] ->
        forallb no_dot ext = true ->
        endsWith (js ".wav") (toLowerCase (js "/tmp/job/voiceover.mp3")) = false ->
        wavPath (js "/tmp/job/voiceover.mp3") = stem ++ js ".wav"
        /\ wavPath (js "/tmp/job/voiceover.mp3") <> js "/tmp/job/voiceover.mp3").
Proof.
  apply (mock_without_media_tool (js "hello world") (js "/tmp/job/voiceover.mp3")
           Samples.no_tools [] (Error (js "spawn ENOENT"))
           Samples.ten_seconds_header 1764000
           [ ExistsSync (js "/tmp/shorts-ranker/tts"); Alloc 1764000;
             Exec (js "ffmpeg -version") ]);
    vm_compute; reflexivity.
Defined.

(** The path written for "voiceover.mp3" is "voiceover.wav". *)
Example wavPath_mp3 :
  wavPath (js "/tmp/job/voiceover.mp3") = js "/tmp/job/voiceover.wav".
Proof. vm_compute. reflexivity. Qed.

(** C10, as stated, fails on a requested path that ends in ".WAV": the path
    does not end in ".wav", the media tool is missing and the WAV file is
    written, yet the path is not rewritten and the path of the result is the
    requested path itself. *)
Lemma mock_keeps_upper_case_wav :
  endsWith (js ".wav") (js "/tmp/job/take.WAV") = false
  /\ generateMockTTS (js "hello world") (js "/tmp/job/take.WAV") Samples.no_tools []
     = (Ok (mkResult (js "/tmp/job/take.WAV") (ofZ 10) (js "mock")),
        [ WriteFile (js "/tmp/job/take.WAV") (Binary Samples.ten_seconds_header 1764000);
          ExistsSync (js "/tmp/shorts-ranker/tts"); Alloc 1764000;
          Exec (js "ffmpeg -version") ]).
Proof. split; vm_compute; reflexivity. Qed.

(** A requested path without a dot is not rewritten either, although the
    file written is a WAV file. *)
Example mock_keeps_path_without_extension :
  generateMockTTS (js "hello world") (js "/tmp/job/voiceover") Samples.no_tools []
  = (Ok (mkResult (js "/tmp/job/voiceover") (ofZ 10) (js "mock")),
     [ WriteFile (js "/tmp/job/voiceover") (Binary Samples.ten_seconds_header 1764000);
       ExistsSync (js "/tmp/shorts-ranker/tts"); Alloc 1764000;
       Exec (js "ffmpeg -version") ]).
Proof. vm_compute. reflexivity. Qed.

(** *** Falling back to the mock *)

Lemma huggingface_without_key env text outputPath options :
  env_get env "HUGGINGFACE_API_KEY" = None ->
  generateHuggingFaceTTS env text outputPath options = generateMockTTS text outputPath.
Proof. intros H. unfold generateHuggingFaceTTS. rewrite H. reflexivity. Qed.

Lemma elevenlabs_without_key env text outputPath options :
  env_get env "ELEVENLABS_API_KEY" = None ->
  generateElevenLabsTTS env text outputPath options = generateMockTTS text outputPath.
Proof. intros H. unfold generateElevenLabsTTS. rewrite H. reflexivity. Qed.

(** A backend without its key answers as the mock does: its result names
    the mock, and its duration is [max(10, ceil(n / 150 * 60))] for the
    number [n] of pieces of [text.split(/\s+/)], which is the number of words
    when the text has no white space at its ends. *)
Lemma fallback_result env text outputPath options o h r h' :
  (env_get env "HUGGINGFACE_API_KEY" = None
   /\ generateHuggingFaceTTS env text outputPath options o h = (Ok r, h'))
  \/ (env_get env "ELEVENLABS_API_KEY" = None
      /\ generateElevenLabsTTS env text outputPath options o h = (Ok r, h')) ->
  service r = js "mock"
  /\ duration r = Math_max (ofZ 10) (estimate (Z.of_nat (List.length (split_ws text))))
  /\ (tight text ->
      duration r = Math_max (ofZ 10) (estimate (Z.of_nat (count_tokens text)))).
Proof.
  intros [[Hk E]|[Hk E]];
    [rewrite (huggingface_without_key _ _ _ _ Hk) in E
    |rewrite (elevenlabs_without_key _ _ _ _ Hk) in E];
    destruct (mock_result _ _ _ _ _ _ E) as (Hs & Hd & _);
    (split; [exact Hs|split; [exact Hd|]]);
    intros Ht; rewrite Hd; unfold mockSeconds, wordCount;
    rewrite (split_ws_tight _ Ht); reflexivity.
Qed.

Lemma fallback_result_witness :
  exists r h',
    generateHuggingFaceTTS ∅ (js "five great clips") (js "/tmp/job/voiceover.mp3")
      (mkOptions None None None) Samples.quiet [] = (Ok r, h')
    /\ service r = js "mock"
    /\ duration r = ofZ 10.
Proof.
  destruct (generateHuggingFaceTTS ∅ (js "five great clips") (js "/tmp/job/voiceover.mp3")
              (mkOptions None None None) Samples.quiet []) as [[r|e] h'] eqn:E;
    [|vm_compute in E; discriminate E].
  exists r, h'. split; [reflexivity|].
  assert (Hk : env_get ∅ "HUGGINGFACE_API_KEY" = None) by (vm_compute; reflexivity).
  destruct (fallback_result ∅ (js "five great clips") (js "/tmp/job/voiceover.mp3")
              (mkOptions None None None) Samples.quiet [] r h'
              (or_introl (conj Hk E))) as (Hs & _ & Hd).
  split; [exact Hs|]. rewrite Hd.
  - vm_compute. reflexivity.
  - split; [discriminate|]. split; vm_compute; reflexivity.
Defined.

(** Twenty-five words and the line feed that ends the text. *)
Definition padded_script : jsstring := Samples.words 25 (js "word") (js " ") ++ nl.

(** C6 at a script that ends with a line feed, routed to the free backend by
    name with no key configured: the mock answers, and it reports 11
    seconds, the estimate for 26 words, where the 25 words of the script
    give [max(10, ceil(25 / 150 * 60))] = 10. *)
Lemma fallback_counts_trailing_white_space :
  textToSpeech {[ js "TTS_SERVICE" := js "huggingface" ]} padded_script
    (Some (js "/tmp/job/voiceover.mp3")) (mkOptions None None None) Samples.quiet []
  = (Ok (mkResult (js "/tmp/job/voiceover.mp3") (ofZ 11) (js "mock")),
     [ Exec (silence_command (ofZ 11) (js "/tmp/job/voiceover.mp3"));
       Exec (js "ffmpeg -version");
       ExistsSync (js "/tmp/shorts-ranker/tts") ])
  /\ count_tokens padded_script = 25%nat
  /\ Math_max (ofZ 10) (estimate 25) = ofZ 10.
Proof. repeat split; vm_compute; reflexivity. Qed.

End MockSynthesizer.

(** ** Validation of the ranks *)

Section RankValidation.

Import Routes.

Lemma validateVideos_ranks (l : list (option VideoInput)) :
  validateVideos l = Ok None ->
  Forall (fun v => flt (rank_of v) (ofZ 1) = false /\ fgt (rank_of v) (ofZ 5) = false)
    (omap id l).
Proof.
  induction l as [|video rest IH]; [constructor|].
  cbn [validateVideos]. destruct (validateVideo video) as [[rejection|]|e] eqn:E;
    try discriminate.
  intros H. unfold validateVideo in E. destruct video as [v|]; [|discriminate].
  cbn [omap id]. destruct (falsy (tempId v) || negb (is_string (tempId v)));
    [discriminate|].
  destruct (falsy (title v) || negb (is_string (title v))); [discriminate|].
  constructor; [|apply IH, H].
  unfold rank_of. destruct (rank v) as [| | |r| |]; try discriminate.
  destruct (flt r (ofZ 1)) eqn:E1; [discriminate|].
  destruct (fgt r (ofZ 5)) eqn:E2; [discriminate|]. split; reflexivity.
Qed.

Lemma set_size_le (l : list number) : (set_size l <= List.length l)%nat.
Proof.
  induction l as [|x l IH]; [reflexivity|].
  cbn. destruct (existsb (same_value_zero x) l); lia.
Qed.

(** A [Set] as large as the list it was built from: no value occurs twice. *)
Lemma set_size_distinct (l : list number) :
  set_size l = List.length l ->
  ForallOrdPairs (fun x y => same_value_zero x y = false) l.
Proof.
  induction l as [|x l IH]; [constructor|].
  cbn. destruct (existsb (same_value_zero x) l) eqn:E.
  - intros H. pose proof (set_size_le l). lia.
  - intros [= H]. constructor; [|apply IH, H].
    apply List.Forall_forall. intros y Hy.
    destruct (same_value_zero x y) eqn:Exy; [|reflexivity].
    assert (existsb (same_value_zero x) l = true)
      by (apply existsb_exists; exists y; split; assumption).
    congruence.
Qed.

(** The narration route hands on only requests with five ranks, each within
    1 and 5, no two of them the same number. *)
Lemma script_request_accepted (body : GenerateScriptRequest) items :
  validateScriptRequest body = Ok (inr items) ->
  List.length items = 5%nat
  /\ Forall (fun it => flt (ScriptGenerator.rank it) (ofZ 1) = false
                       /\ fgt (ScriptGenerator.rank it) (ofZ 5) = false) items
  /\ ForallOrdPairs (fun x y => same_value_zero x y = false)
       (List.map ScriptGenerator.rank items).
Proof.
  unfold validateScriptRequest. destruct (videos body) as [vs|]; [|discriminate].
  destruct (List.length vs =? 5)%nat eqn:El; cbn [negb]; [|discriminate].
  destruct (validateVideos vs) as [[rejection|]|e] eqn:Ev; try discriminate.
  destruct (set_size (List.map rank_of (omap id vs)) =? 5)%nat eqn:Es; cbn [negb];
    [|discriminate].
  intros [= <-]. apply Nat.eqb_eq in El, Es.
  pose proof (validateVideos_ranks vs Ev) as Hr.
  assert (Hlen : List.length (omap id vs) = 5%nat).
  { pose proof (set_size_le (List.map rank_of (omap id vs))) as Hle.
    rewrite length_map in Hle.
    assert (List.length (omap id vs) <= List.length vs)%nat.
    { clear. induction vs as [|[v|] vs IH]; cbn; lia. }
    lia. }
  rewrite !length_map. split; [exact Hlen|]. split.
  - apply Forall_map. cbn. exact Hr.
  - rewrite map_map.
    replace (List.map _ (omap id vs)) with (List.map rank_of (omap id vs))
      by (apply List.map_ext; reflexivity).
    apply set_size_distinct. rewrite length_map. lia.
Qed.

Lemma script_request_accepted_witness :
  exists items,
    validateScriptRequest (Samples.narration_request (List.map ofZ [3; 1; 5; 2; 4]))
    = Ok (inr items)
    /\ List.length items = 5%nat.
Proof.
  destruct (validateScriptRequest
              (Samples.narration_request (List.map ofZ [3; 1; 5; 2; 4])))
    as [[rejection|items]|e] eqn:E; try (vm_compute in E; discriminate E).
  exists items. split; [reflexivity|].
  exact (proj1 (script_request_accepted _ items E)).
Defined.

Example script_request_rejects_repeated_rank :
  validateScriptRequest (Samples.narration_request (List.map ofZ [3; 3; 1; 2; 4]))
  = Ok (inl (badRequest "All ranks must be unique (1-5)")).
Proof. vm_compute. reflexivity. Qed.

Example script_request_rejects_rank_out_of_range :
  validateScriptRequest (Samples.narration_request (List.map ofZ [1; 2; 3; 4; 9]))
  = Ok (inl (badRequest "Each video must have a rank between 1 and 5")).
Proof. vm_compute. reflexivity. Qed.

(** The rank 1.5 lies within 1 and 5: the narration route accepts it. *)
Example script_request_accepts_fractional_rank :
  exists items,
    validateScriptRequest
      (Samples.narration_request (of_decimal false 15 (-1) :: List.map ofZ [1; 2; 3; 4]))
    = Ok (inr items)
    /\ List.map ScriptGenerator.rank items
       = of_decimal false 15 (-1) :: List.map ofZ [1; 2; 3; 4].
Proof. eexists. split; vm_compute; reflexivity. Qed.

Definition job1 (name : string) : jsstring := js "/tmp/shorts-ranker/job1/" ++ js name.

(** C1 at a processing request whose ranks are 3, 3, 3, 3 and 9: the route
    does not reject it.  The five clips go through the pipeline, labelled
    "Rank #9" and four times "Rank #3", and the compiled video is returned. *)
Lemma process_route_accepts_repeated_ranks :
  List.map upload_rank (collectVideos Samples.repeated_ranks) = [3; 3; 3; 3; 9]
  /\ exists h,
       processVideoPOST ∅ Samples.repeated_ranks_request Samples.quiet []
       = (Ok (VideoResponse [] (js "shorts-ranker-job1.mp4") (js "0") (js "0x0")
                (js "mock")), h)
       /\ List.filter
            (fun c => match c with
                      | Exec cmd => includes (js "drawtext") cmd
                      | _ => false
                      end) (rev h)
          = [ Exec (VideoProcessor.overlayCommand (job1 "normalized_0.mp4")
                      (job1 "overlay_0.mp4") 9);
              Exec (VideoProcessor.overlayCommand (job1 "normalized_1.mp4")
                      (job1 "overlay_1.mp4") 3);
              Exec (VideoProcessor.overlayCommand (job1 "normalized_2.mp4")
                      (job1 "overlay_2.mp4") 3);
              Exec (VideoProcessor.overlayCommand (job1 "normalized_3.mp4")
                      (job1 "overlay_3.mp4") 3);
              Exec (VideoProcessor.overlayCommand (job1 "normalized_4.mp4")
                      (job1 "overlay_4.mp4") 3) ].
Proof.
  split; [vm_compute; reflexivity|].
  eexists. split; vm_compute; reflexivity.
Qed.

End RankValidation.

(** * What a run may call *)

Section Runs.
Import JS.

(** [runs o c Q]: in the world [o], from every history, [c] adds calls to
    the history, and its result and the calls it added satisfy [Q]. *)
Definition runs {A} (o : oracle) (c : M A) (Q : result A -> history -> Prop) : Prop :=
  forall h, exists r new, c o h = (r, new ++ h) /\ Q r new.

Lemma runs_weaken {A} (o : oracle) (c : M A) (Q Q' : result A -> history -> Prop) :
  runs o c Q -> (forall r new, Q r new -> Q' r new) -> runs o c Q'.
Proof.
  intros Hc H h. destruct (Hc h) as (r & new & E & HQ). exists r, new. auto.
Qed.

Lemma runs_ret {A} (o : oracle) (a : A) (Q : result A -> history -> Prop) :
  Q (Ok a) [] -> runs o (ret a) Q.
Proof. intros HQ h. exists (Ok a), []. auto. Qed.

Lemma runs_throw {A} (o : oracle) (e : exn) (Q : result A -> history -> Prop) :
  Q (Throw e) [] -> runs o (throw e) Q.
Proof. intros HQ h. exists (Throw e), []. auto. Qed.

Lemma runs_ask {A} (o : oracle) (f : oracle -> A) (Q : result A -> history -> Prop) :
  Q (Ok (f o)) [] -> runs o (ask f) Q.
Proof. intros HQ h. exists (Ok (f o)), []. auto. Qed.

Lemma runs_of_result {A} (o : oracle) (r : result A) (Q : result A -> history -> Prop) :
  Q r [] -> runs o (of_result r) Q.
Proof. intros HQ h. exists r, []. auto. Qed.

Lemma runs_bind {A B} (o : oracle) (c : M A) (k : A -> M B)
    (Q1 : result A -> history -> Prop) (Q : result B -> history -> Prop) :
  runs o c Q1 ->
  (forall a new1, Q1 (Ok a) new1 -> runs o (k a) (fun r new2 => Q r (new2 ++ new1))) ->
  (forall e new1, Q1 (Throw e) new1 -> Q (Throw e) new1) ->
  runs o (bind c k) Q.
Proof.
  intros Hc Hk He h. unfold bind.
  destruct (Hc h) as (r1 & new1 & E1 & HQ1). rewrite E1. destruct r1 as [a|e].
  - destruct (Hk a new1 HQ1 (new1 ++ h)) as (r2 & new2 & E2 & HQ2).
    exists r2, (new2 ++ new1). rewrite <- app_assoc. auto.
  - exists (Throw e), new1. auto.
Qed.

Lemma runs_try_catch {A} (o : oracle) (c : M A) (handler : exn -> M A)
    (Q1 Q : result A -> history -> Prop) :
  runs o c Q1 ->
  (forall a new1, Q1 (Ok a) new1 -> Q (Ok a) new1) ->
  (forall e new1, Q1 (Throw e) new1 ->
     runs o (handler e) (fun r new2 => Q r (new2 ++ new1))) ->
  runs o (try_catch c handler) Q.
Proof.
  intros Hc Hok He h. unfold try_catch.
  destruct (Hc h) as (r1 & new1 & E1 & HQ1). rewrite E1. destruct r1 as [a|e].
  - exists (Ok a), new1. auto.
  - destruct (He e new1 HQ1 (new1 ++ h)) as (r2 & new2 & E2 & HQ2).
    exists r2, (new2 ++ new1). rewrite <- app_assoc. auto.
Qed.

Lemma runs_try_finally {A} (o : oracle) (c : M A) (f : M unit)
    (Q1 : result A -> history -> Prop) (Q2 : result unit -> history -> Prop)
    (Q : result A -> history -> Prop) :
  runs o c Q1 -> runs o f Q2 ->
  (forall r new1 r2 new2, Q1 r new1 -> Q2 r2 new2 -> Q r (new2 ++ new1)) ->
  runs o (try_finally c f) Q.
Proof.
  intros Hc Hf H h. unfold try_finally.
  destruct (Hc h) as (r1 & new1 & E1 & HQ1). rewrite E1.
  destruct (Hf (new1 ++ h)) as (r2 & new2 & E2 & HQ2). rewrite E2. cbn [snd].
  exists r1, (new2 ++ new1). rewrite <- app_assoc. eauto.
Qed.

(** The calls of the world, one by one. *)
Lemma runs_execAsync (o : oracle) (cmd : jsstring) :
  runs o (execAsync cmd) (fun _ new => new = [Exec cmd]).
Proof. intros h. eexists _, [_]. split; reflexivity. Qed.

Lemma runs_writeFile (o : oracle) (p : jsstring) (d : filedata) :
  runs o (writeFile p d) (fun _ new => new = [WriteFile p d]).
Proof. intros h. eexists _, [_]. split; reflexivity. Qed.

Lemma runs_readFile (o : oracle) (p : jsstring) :
  runs o (readFile p) (fun _ new => new = [ReadFile p]).
Proof. intros h. eexists _, [_]. split; reflexivity. Qed.

Lemma runs_unlink (o : oracle) (p : jsstring) :
  runs o (unlink p) (fun _ new => new = [Unlink p]).
Proof. intros h. eexists _, [_]. split; reflexivity. Qed.

Lemma runs_mkdir (o : oracle) (p : jsstring) :
  runs o (mkdir p) (fun _ new => new = [Mkdir p]).
Proof. intros h. eexists _, [_]. split; reflexivity. Qed.

Lemma runs_existsSync (o : oracle) (p : jsstring) :
  runs o (existsSync p) (fun r new => succeeded r /\ new = [ExistsSync p]).
Proof. intros h. eexists (Ok _), [_]. repeat split. Qed.

Lemma runs_readdir (o : oracle) (p : jsstring) :
  runs o (readdir p) (fun _ new => new = [Readdir p]).
Proof. intros h. eexists _, [_]. split; reflexivity. Qed.

Lemma runs_alloc (o : oracle) (size : Z) :
  runs o (alloc size) (fun _ new => new = [Alloc size]).
Proof. intros h. eexists _, [_]. split; reflexivity. Qed.

Lemma runs_fetch (o : oracle) (url credential : jsstring) (body : request_body) :
  runs o (fetch url credential body)
    (fun r new => succeeded r /\ new = [Fetch url credential body]).
Proof. intros h. eexists (Ok _), [_]. repeat split. Qed.

Lemma runs_pick (o : oracle) (n : nat) :
  runs o (pick n) (fun r new => succeeded r /\ new = [Random n]).
Proof. intros h. eexists (Ok _), [_]. repeat split. Qed.

Lemma runs_now (o : oracle) : runs o now (fun r new => succeeded r /\ new = [Now]).
Proof. intros h. eexists (Ok _), [_]. repeat split. Qed.

Lemma runs_fresh_id (o : oracle) :
  runs o fresh_id (fun r new => succeeded r /\ new = [FreshId]).
Proof. intros h. eexists (Ok _), [_]. repeat split. Qed.

(** [emits allowed c]: whatever the world answers, every call that [c]
    makes is an allowed one. *)
Definition emits {A} (allowed : call -> bool) (c : M A) : Prop :=
  forall o, runs o c (fun _ new => forallb allowed new = true).

Lemma emits_mono {A} (allowed allowed' : call -> bool) (c : M A) :
  (forall k, allowed k = true -> allowed' k = true) -> emits allowed c -> emits allowed' c.
Proof.
  intros H Hc o. eapply runs_weaken; [apply Hc|].
  cbv beta. intros _ new Hnew. rewrite forallb_forall in Hnew |- *. auto.
Qed.

Lemma emits_ret {A} (allowed : call -> bool) (a : A) : emits allowed (ret a).
Proof. intros o. apply runs_ret. reflexivity. Qed.

Lemma emits_throw {A} (allowed : call -> bool) (e : exn) : emits allowed (@throw A e).
Proof. intros o. apply runs_throw. reflexivity. Qed.

Lemma emits_ask {A} (allowed : call -> bool) (f : oracle -> A) : emits allowed (ask f).
Proof. intros o. apply runs_ask. reflexivity. Qed.

Lemma emits_of_result {A} (allowed : call -> bool) (r : result A) :
  emits allowed (of_result r).
Proof. intros o. apply runs_of_result. reflexivity. Qed.

Lemma emits_bind {A B} (allowed : call -> bool) (c : M A) (k : A -> M B) :
  emits allowed c -> (forall a, emits allowed (k a)) -> emits allowed (bind c k).
Proof.
  intros Hc Hk o. eapply runs_bind; [apply Hc| |].
  - intros a new1 H1. eapply runs_weaken; [apply Hk|].
    cbv beta. intros r new2 H2. rewrite forallb_app, H1, H2. reflexivity.
  - intros e new1 H1. exact H1.
Qed.

Lemma emits_try_catch {A} (allowed : call -> bool) (c : M A) (handler : exn -> M A) :
  emits allowed c -> (forall e, emits allowed (handler e)) ->
  emits allowed (try_catch c handler).
Proof.
  intros Hc Hk o. eapply runs_try_catch; [apply Hc| |].
  - intros a new1 H1. exact H1.
  - intros e new1 H1. eapply runs_weaken; [apply Hk|].
    cbv beta. intros r new2 H2. rewrite forallb_app, H1, H2. reflexivity.
Qed.

Lemma emits_try_finally {A} (allowed : call -> bool) (c : M A) (f : M unit) :
  emits allowed c -> emits allowed f -> emits allowed (try_finally c f).
Proof.
  intros Hc Hf o. eapply runs_try_finally; [apply Hc|apply Hf|].
  cbv beta. intros r new1 r2 new2 H1 H2. rewrite forallb_app, H1, H2. reflexivity.
Qed.

Lemma emits_for_each {A} (allowed : call -> bool) (l : list A) (body : A -> M unit) :
  (forall x, emits allowed (body x)) -> emits allowed (for_each l body).
Proof.
  intros Hb. induction l as [|x l IH]; cbn [for_each]; [apply emits_ret|].
  apply emits_bind; [apply Hb|intros _; exact IH].
Qed.

Lemma emits_call {A} (allowed : call -> bool) (c : M A) (k : call) :
  (forall o, runs o c (fun _ new => new = [k])) -> allowed k = true -> emits allowed c.
Proof.
  intros Hc Hk o. eapply runs_weaken; [apply Hc|].
  cbv beta. intros r new ->. cbn. rewrite Hk. reflexivity.
Qed.

Lemma emits_call_ok {A} (allowed : call -> bool) (c : M A) (k : call) :
  (forall o, runs o c (fun r new => succeeded r /\ new = [k])) -> allowed k = true ->
  emits allowed c.
Proof.
  intros Hc Hk o. eapply runs_weaken; [apply Hc|].
  cbv beta. intros r new (_ & ->). cbn. rewrite Hk. reflexivity.
Qed.

End Runs.

Create HintDb emits.

(** Walks through a computation, by the shape of its term; the calls it
    finds are checked against [allowed]. *)
Ltac emit_step :=
  lazymatch goal with
  | |- emits _ (ret _) => apply emits_ret
  | |- emits _ (throw _) => apply emits_throw
  | |- emits _ (ask _) => apply emits_ask
  | |- emits _ (of_result _) => apply emits_of_result
  | |- emits _ (bind _ _) => apply emits_bind; [|intros ?]
  | |- emits _ (try_catch _ _) => apply emits_try_catch; [|intros ?]
  | |- emits _ (try_finally _ _) => apply emits_try_finally
  | |- emits _ (swallow _) => apply emits_try_catch; [|intros ?]
  | |- emits _ (for_each _ _) => apply emits_for_each; intros ?
  | |- emits _ (execAsync _) =>
      apply (emits_call _ _ _ (fun o => runs_execAsync o _)); try reflexivity
  | |- emits _ (writeFile _ _) =>
      apply (emits_call _ _ _ (fun o => runs_writeFile o _ _)); try reflexivity
  | |- emits _ (readFile _) =>
      apply (emits_call _ _ _ (fun o => runs_readFile o _)); try reflexivity
  | |- emits _ (unlink _) =>
      apply (emits_call _ _ _ (fun o => runs_unlink o _)); try reflexivity
  | |- emits _ (mkdir _) =>
      apply (emits_call _ _ _ (fun o => runs_mkdir o _)); try reflexivity
  | |- emits _ (readdir _) =>
      apply (emits_call _ _ _ (fun o => runs_readdir o _)); try reflexivity
  | |- emits _ (alloc _) =>
      apply (emits_call _ _ _ (fun o => runs_alloc o _)); try reflexivity
  | |- emits _ (existsSync _) =>
      apply (emits_call_ok _ _ _ (fun o => runs_existsSync o _)); try reflexivity
  | |- emits _ (fetch _ _ _) =>
      apply (emits_call_ok _ _ _ (fun o => runs_fetch o _ _ _)); try reflexivity
  | |- emits _ (pick _) =>
      apply (emits_call_ok _ _ _ (fun o => runs_pick o _)); try reflexivity
  | |- emits _ now =>
      apply (emits_call_ok _ _ _ (fun o => runs_now o)); try reflexivity
  | |- emits _ fresh_id =>
      apply (emits_call_ok _ _ _ (fun o => runs_fresh_id o)); try reflexivity
  | |- emits _ (match ?x with _ => _ end) => destruct x
  | |- emits _ (let _ := _ in _) => cbv zeta
  | |- emits _ _ => solve [auto with emits]
  end.

Ltac emit := repeat emit_step.

Section Yields.
Import JS.

Definition outcome {A} (P : A -> Prop) (E : exn -> Prop) (r : result A) : Prop :=
  match r with
  | Ok a => P a
  | Throw e => E e
  end.

(** [yields c P E]: whatever the world answers, [c] returns a value that
    satisfies [P] or throws an exception that satisfies [E]. *)
Definition yields {A} (c : M A) (P : A -> Prop) (E : exn -> Prop) : Prop :=
  forall o, runs o c (fun r _ => outcome P E r).

Definition anything {A} (_ : A) : Prop := True.

Lemma yields_weaken {A} (c : M A) (P P' : A -> Prop) (E E' : exn -> Prop) :
  yields c P E -> (forall a, P a -> P' a) -> (forall e, E e -> E' e) -> yields c P' E'.
Proof.
  intros Hc HP HE o. eapply runs_weaken; [apply Hc|].
  intros [a|e] new; cbn; auto.
Qed.

Lemma yields_ret {A} (a : A) (P : A -> Prop) (E : exn -> Prop) : P a -> yields (ret a) P E.
Proof. intros H o. apply runs_ret. exact H. Qed.

Lemma yields_throw {A} (e : exn) (P : A -> Prop) (E : exn -> Prop) :
  E e -> yields (throw e) P E.
Proof. intros H o. apply runs_throw. exact H. Qed.

Lemma yields_ask {A} (f : oracle -> A) (P : A -> Prop) (E : exn -> Prop) :
  (forall o, P (f o)) -> yields (ask f) P E.
Proof. intros H o. apply runs_ask. apply H. Qed.

Lemma yields_bind {A B} (c : M A) (k : A -> M B) (P1 : A -> Prop) (P : B -> Prop)
    (E : exn -> Prop) :
  yields c P1 E -> (forall a, P1 a -> yields (k a) P E) -> yields (bind c k) P E.
Proof.
  intros Hc Hk o. eapply runs_bind; [apply Hc| |].
  - intros a new1 Ha. eapply runs_weaken; [apply (Hk a Ha)|]. auto.
  - intros e new1 He. exact He.
Qed.

Lemma yields_try_catch {A} (c : M A) (handler : exn -> M A) (P : A -> Prop)
    (E1 E : exn -> Prop) :
  yields c P E1 -> (forall e, E1 e -> yields (handler e) P E) ->
  yields (try_catch c handler) P E.
Proof.
  intros Hc Hk o. eapply runs_try_catch; [apply Hc| |].
  - intros a new1 Ha. exact Ha.
  - intros e new1 He. eapply runs_weaken; [apply (Hk e He)|]. auto.
Qed.

(** A computation of which nothing is known but that it ends. *)
Lemma yields_anything {A} (c : M A) (allowed : call -> bool) :
  emits allowed c -> yields c anything anything.
Proof.
  intros Hc o. eapply runs_weaken; [apply Hc|]. intros [a|e] new _; exact I.
Qed.

End Yields.

Definition any_call (c : call) : bool := true.

(** Walks through a computation whose result is decided by its last step;
    what the steps before it return or throw is left open. *)
Ltac plain_step := apply (yields_anything _ any_call); emit.

Ltac yield_step :=
  lazymatch goal with
  | |- yields (ret _) _ _ => apply yields_ret
  | |- yields (throw _) _ _ => apply yields_throw
  | |- yields (bind _ _) _ _ =>
      eapply yields_bind with (P1 := anything); [plain_step|intros ? _]
  | |- yields (match ?x with _ => _ end) _ _ => destruct x
  | |- yields (let _ := _ in _) _ _ => cbv zeta
  end.

Ltac yield := repeat yield_step.

(** * Where the narration is spoken *)

Section SpeechBackends.
Import JS TtsService.

(** Every call but a request over the network. *)
Definition local_call (c : call) : bool :=
  match c with Fetch _ _ _ => false | _ => true end.

Lemma emits_generateMockTTS (text outputPath : jsstring) :
  emits local_call (generateMockTTS text outputPath).
Proof.
  unfold generateMockTTS, wav_header, write_le, ensureTTSDirectory. emit.
Qed.

Lemma emits_generateCoquiTTS (text outputPath : jsstring) (options : TTSOptions) :
  emits local_call (generateCoquiTTS text outputPath options).
Proof.
  unfold generateCoquiTTS. emit. apply emits_generateMockTTS.
Qed.

(** With neither API key in the environment, whatever TTS_SERVICE and
    USE_COQUI_TTS say, the synthesizer never makes a request over the
    network: the narration does not leave the machine. *)
Theorem speech_without_keys_stays_local (env : gmap jsstring jsstring)
    (text : jsstring) (outputPath : option jsstring) (options : TTSOptions)
    (o : oracle) (h : history) :
  env_get env "HUGGINGFACE_API_KEY" = None ->
  env_get env "ELEVENLABS_API_KEY" = None ->
  exists r new,
    textToSpeech env text outputPath options o h = (r, new ++ h)
    /\ forallb local_call new = true.
Proof.
  intros Hhf Hel.
  assert (H : emits local_call (textToSpeech env text outputPath options)).
  { unfold textToSpeech, ensureTTSDirectory. emit;
      try apply emits_generateMockTTS; try apply emits_generateCoquiTTS.
    - rewrite huggingface_without_key by exact Hhf. apply emits_generateMockTTS.
    - rewrite elevenlabs_without_key by exact Hel. apply emits_generateMockTTS. }
  exact (H o h).
Qed.

Lemma speech_without_keys_stays_local_witness :
  exists r new,
    textToSpeech {[ js "TTS_SERVICE" := js "elevenlabs" ]} (js "five great clips")
      (Some (js "/tmp/job/voiceover.mp3")) (mkOptions None None None) Samples.quiet []
    = (r, new ++ [])
    /\ forallb local_call new = true.
Proof.
  apply speech_without_keys_stays_local; vm_compute; reflexivity.
Defined.

(** ** What a backend answers when it fails *)

Definition said (prefix : string) (e : exn) : Prop :=
  startsWith (js prefix) (message e) = true.

Lemma emits_any_generateMockTTS (text outputPath : jsstring) :
  emits any_call (generateMockTTS text outputPath).
Proof. eapply emits_mono; [|apply emits_generateMockTTS]. reflexivity. Qed.

Lemma emits_any_generateHuggingFaceChunk (text outputPath model apiKey : jsstring) :
  emits any_call (generateHuggingFaceChunk text outputPath model apiKey).
Proof. unfold generateHuggingFaceChunk. emit. Qed.

Lemma emits_any_generate_chunks (chunks : list jsstring) (i : Z)
    (outputPath model apiKey : jsstring) :
  emits any_call (generate_chunks i chunks outputPath model apiKey).
Proof.
  revert i. induction chunks as [|chunk rest IH]; intros i; cbn [generate_chunks]; emit.
  apply emits_any_generateHuggingFaceChunk.
Qed.

Lemma emits_any_concatenateAudioFiles (inputPaths : list jsstring) (outputPath : jsstring) :
  emits any_call (concatenateAudioFiles inputPaths outputPath).
Proof. unfold concatenateAudioFiles. emit. Qed.

#[local] Hint Resolve emits_any_generateMockTTS emits_any_generateHuggingFaceChunk
  emits_any_generate_chunks emits_any_concatenateAudioFiles : emits.

Lemma yields_generateMockTTS (text outputPath : jsstring) :
  yields (generateMockTTS text outputPath)
    (fun r => service r = js "mock") (said "Mock TTS failed: ").
Proof.
  unfold generateMockTTS.
  eapply yields_try_catch with (E1 := anything).
  - eapply yields_try_catch with (E1 := anything).
    + yield. reflexivity.
    + intros e _. unfold wav_header, write_le, ensureTTSDirectory. yield. reflexivity.
  - intros e _. apply yields_throw. apply startsWith_app.
Qed.

Lemma yields_generateHuggingFaceTTS (env : gmap jsstring jsstring)
    (text outputPath : jsstring) (options : TTSOptions) :
  yields (generateHuggingFaceTTS env text outputPath options)
    (fun r => service r = js "huggingface" \/ service r = js "mock")
    (said "Mock TTS failed: ").
Proof.
  assert (Hmock : yields (generateMockTTS text outputPath)
                    (fun r => service r = js "huggingface" \/ service r = js "mock")
                    (said "Mock TTS failed: ")).
  { eapply yields_weaken; [apply yields_generateMockTTS| |]; cbv beta; auto. }
  unfold generateHuggingFaceTTS.
  destruct (env_get env "HUGGINGFACE_API_KEY") as [apiKey|]; [|exact Hmock].
  cbv zeta. eapply yields_try_catch with (E1 := anything).
  - yield. left. reflexivity.
  - intros e _. exact Hmock.
Qed.

Lemma yields_generateCoquiTTS (text outputPath : jsstring) (options : TTSOptions) :
  yields (generateCoquiTTS text outputPath options)
    (fun r => service r = js "coqui" \/ service r = js "mock")
    (said "Mock TTS failed: ").
Proof.
  unfold generateCoquiTTS.
  eapply yields_bind with
    (P1 := fun r => match r with Some res => service res = js "coqui" | None => True end).
  - eapply yields_try_catch with (E1 := anything).
    + yield; try exact I. reflexivity.
    + intros e _. apply yields_ret. exact I.
  - intros [res|] H.
    + apply yields_ret. left. exact H.
    + eapply yields_weaken; [apply yields_generateMockTTS| |]; cbv beta; auto.
Qed.

(** The free backend and the local engine do not fail on their own: when
    the remote API or the Python engine fails in any way, the mock answers
    in their place.  Their result names the backend itself or the mock, and
    an exception they throw is the mock's. *)
Theorem free_backends_fall_back_to_mock (env : gmap jsstring jsstring)
    (text outputPath : jsstring) (options : TTSOptions) (o : oracle) (h : history) :
  outcome (fun r => service r = js "huggingface" \/ service r = js "mock")
          (said "Mock TTS failed: ")
          (fst (generateHuggingFaceTTS env text outputPath options o h))
  /\ outcome (fun r => service r = js "coqui" \/ service r = js "mock")
             (said "Mock TTS failed: ")
             (fst (generateCoquiTTS text outputPath options o h)).
Proof.
  split.
  - destruct (yields_generateHuggingFaceTTS env text outputPath options o h)
      as (r & new & E & H).
    rewrite E. exact H.
  - destruct (yields_generateCoquiTTS text outputPath options o h) as (r & new & E & H).
    rewrite E. exact H.
Qed.

(** The premium backend with its key configured has no fallback: it returns
    its own result for the requested path, or it throws
    "ElevenLabs TTS failed: ..." and no silent audio is substituted. *)
Theorem premium_failure_is_reported (env : gmap jsstring jsstring)
    (text outputPath apiKey : jsstring) (options : TTSOptions) (o : oracle) (h : history) :
  env_get env "ELEVENLABS_API_KEY" = Some apiKey ->
  outcome (fun r => r = mkResult outputPath (estimate (wordCount text)) (js "elevenlabs"))
          (said "ElevenLabs TTS failed: ")
          (fst (generateElevenLabsTTS env text outputPath options o h)).
Proof.
  intros Hkey.
  assert (H : yields (generateElevenLabsTTS env text outputPath options)
                (fun r => r = mkResult outputPath (estimate (wordCount text))
                                (js "elevenlabs"))
                (said "ElevenLabs TTS failed: ")).
  { unfold generateElevenLabsTTS. rewrite Hkey. cbv zeta.
    eapply yields_try_catch with (E1 := anything).
    - yield; try exact I. reflexivity.
    - intros e _. apply yields_throw. apply startsWith_app. }
  destruct (H o h) as (r & new & E & HQ). rewrite E. exact HQ.
Qed.

Lemma premium_failure_is_reported_witness :
  outcome (fun r => r = mkResult (js "/tmp/job/voiceover.mp3")
                          (estimate (wordCount (js "five great clips"))) (js "elevenlabs"))
          (said "ElevenLabs TTS failed: ")
          (fst (generateElevenLabsTTS {[ js "ELEVENLABS_API_KEY" := js "secret" ]}
                  (js "five great clips") (js "/tmp/job/voiceover.mp3")
                  (mkOptions None None None) Samples.no_tools [])).
Proof.
  apply (premium_failure_is_reported _ _ _ (js "secret")). vm_compute. reflexivity.
Defined.

End SpeechBackends.

#[global] Hint Resolve emits_any_generateMockTTS emits_any_generateHuggingFaceChunk
  emits_any_generate_chunks emits_any_concatenateAudioFiles : emits.

(** * Sweeping a directory, attaching the narration *)

Section Housekeeping.
Import JS VideoProcessor.

Definition sweep (dirPath : jsstring) (files : list jsstring) : history :=
  rev (List.map (fun file => Unlink (path_join [dirPath; file])) files).

Lemma for_each_unlink (dirPath : jsstring) (files : list jsstring) (o : oracle) (h : history) :
  for_each files (fun file => swallow (unlink (path_join [dirPath; file]))) o h
  = (Ok tt, sweep dirPath files ++ h).
Proof.
  revert h. induction files as [|file files IH]; intros h; [reflexivity|].
  cbn [for_each]. unfold bind at 1, swallow at 1, try_catch at 1, unlink at 1.
  destruct (on_unlink o h (path_join [dirPath; file])) as [[]|e]; cbn;
    rewrite IH; unfold sweep; cbn [List.map rev]; rewrite <- app_assoc; reflexivity.
Qed.

(** [cleanupDirectory] never throws.  When the directory is there and can be
    listed, it tries to unlink every file listed, whether or not the
    unlinks before it succeeded, and then the directory itself; otherwise it
    stops after the failed test or listing. *)
Theorem cleanup_never_throws (dirPath : jsstring) (o : oracle) (h : history) :
  exists new,
    cleanupDirectory dirPath o h = (Ok tt, new ++ h)
    /\ (on_exists o h dirPath = false -> new = [ExistsSync dirPath])
    /\ (on_exists o h dirPath = true ->
        match on_readdir o (ExistsSync dirPath :: h) dirPath with
        | Ok files =>
            new = Unlink dirPath :: sweep dirPath files
                  ++ [Readdir dirPath; ExistsSync dirPath]
        | Throw _ => new = [Readdir dirPath; ExistsSync dirPath]
        end).
Proof.
  unfold cleanupDirectory, try_catch, bind, existsSync, readdir.
  destruct (on_exists o h dirPath) eqn:Ex.
  - destruct (on_readdir o (ExistsSync dirPath :: h) dirPath) as [files|e] eqn:Er.
    + rewrite for_each_unlink. unfold swallow, try_catch, unlink.
      exists (Unlink dirPath :: sweep dirPath files ++ [Readdir dirPath; ExistsSync dirPath]).
      split; [|split; [discriminate|intros _; reflexivity]].
      destruct (on_unlink o _ dirPath) as [[]|e]; cbn; rewrite <- app_assoc; reflexivity.
    + exists [Readdir dirPath; ExistsSync dirPath].
      split; [reflexivity|]. split; [discriminate|intros _; reflexivity].
  - exists [ExistsSync dirPath].
    split; [reflexivity|]. split; [reflexivity|discriminate].
Qed.

Lemma runFFmpeg_cases (command : jsstring) (o : oracle) (h : history) :
  (exists out, runFFmpeg command o h = (Ok out, Exec command :: h))
  \/ (exists e, runFFmpeg command o h = (Throw e, Exec command :: h)
                /\ startsWith (js "FFmpeg failed: ") (message e) = true).
Proof.
  unfold runFFmpeg, try_catch, execAsync.
  destruct (on_exec o h command) as [out|e]; [left; eauto|right].
  eexists. split; [reflexivity|]. apply startsWith_app.
Qed.

(** The narration is attached in at most three attempts, in this order: the
    mix (when mixing is asked for), the replacement cut to the shorter
    input, the replacement without the cut.  The first attempt that succeeds
    ends the chain; an exception is thrown only when the last attempt has
    failed, and it is that attempt's. *)
Theorem audio_fallback_chain (videoPath audioPath outputPath : jsstring)
    (originalVolume voiceoverVolume : option number) (o : oracle) (h : history) :
  let mixing := mixCommand videoPath audioPath outputPath
                  (default (of_decimal false 3 (-1)) originalVolume)
                  (default (ofZ 1) voiceoverVolume) in
  let cut := replaceCommand true videoPath audioPath outputPath in
  let plain := replaceCommand false videoPath audioPath outputPath in
  let failed (r : result unit) :=
    exists e, r = Throw e /\ startsWith (js "FFmpeg failed: ") (message e) = true in
  (exists r new,
     replaceVideoAudio videoPath audioPath outputPath o h = (r, new ++ h)
     /\ (r = Ok tt /\ new = [Exec cut; Exec (probeCommand videoPath)]
         \/ (r = Ok tt \/ failed r)
            /\ new = [Exec plain; Exec cut; Exec (probeCommand videoPath)]))
  /\ (exists r new,
        mixVideoAudio videoPath audioPath outputPath originalVolume voiceoverVolume o h
        = (r, new ++ h)
        /\ (r = Ok tt /\ new = [Exec mixing]
            \/ r = Ok tt /\ new = [Exec cut; Exec (probeCommand videoPath); Exec mixing]
            \/ (r = Ok tt \/ failed r)
               /\ new = [Exec plain; Exec cut; Exec (probeCommand videoPath); Exec mixing])).
Proof.
  intros mixing cut plain failed.
  assert (Hreplace : forall h0, exists r new,
             replaceVideoAudio videoPath audioPath outputPath o h0 = (r, new ++ h0)
             /\ (r = Ok tt /\ new = [Exec cut; Exec (probeCommand videoPath)]
                 \/ (r = Ok tt \/ failed r)
                    /\ new = [Exec plain; Exec cut; Exec (probeCommand videoPath)])).
  { intros h0. unfold replaceVideoAudio, bind at 1.
    destruct (returns_getVideoInfo videoPath o h0) as (info & ->).
    fold (probeCommand videoPath). unfold try_catch, bind. fold cut plain.
    destruct (runFFmpeg_cases cut o (Exec (probeCommand videoPath) :: h0))
      as [(out & ->)|(e & -> & _)].
    - exists (Ok tt), [Exec cut; Exec (probeCommand videoPath)]. split; [reflexivity|]. auto.
    - destruct (runFFmpeg_cases plain o (Exec cut :: Exec (probeCommand videoPath) :: h0))
        as [(out & ->)|(e' & -> & He')].
      + exists (Ok tt), [Exec plain; Exec cut; Exec (probeCommand videoPath)].
        split; [reflexivity|]. auto.
      + exists (Throw e'), [Exec plain; Exec cut; Exec (probeCommand videoPath)].
        split; [reflexivity|]. right. split; [right; exists e'; auto|reflexivity]. }
  split; [apply Hreplace|].
  unfold mixVideoAudio, try_catch, bind. fold mixing.
  destruct (runFFmpeg_cases mixing o h) as [(out & ->)|(e & -> & _)].
  - exists (Ok tt), [Exec mixing]. split; [reflexivity|]. auto.
  - destruct (Hreplace (Exec mixing :: h)) as (r & new & -> & [[-> ->]|[Hr ->]]).
    + exists (Ok tt), [Exec cut; Exec (probeCommand videoPath); Exec mixing].
      split; [reflexivity|]. auto.
    + exists r, [Exec plain; Exec cut; Exec (probeCommand videoPath); Exec mixing].
      split; [reflexivity|]. auto.
Qed.

End Housekeeping.

Section StableOrder.
Import JS VideoProcessor.

Lemma insert_sorted_filter {A} (key : A -> Z) (r : Z) (x : A) (l : list A) :
  List.filter (fun v => key v =? r) (insert_sorted (fun a b => 0 <? key b - key a) x l)
  = List.filter (fun v => key v =? r) (x :: l).
Proof.
  induction l as [|y l IH]; [reflexivity|].
  cbn [insert_sorted]. destruct (Z.ltb_spec 0 (key y - key x)) as [Hlt|Hge]; [|reflexivity].
  cbn [List.filter] in *. rewrite IH.
  destruct (Z.eqb_spec (key x) r) as [Ex|Ex]; destruct (Z.eqb_spec (key y) r) as [Ey|Ey];
    try reflexivity.
  lia.
Qed.

Lemma insert_sorted_head {A} (key : A -> Z) (x : A) (l : list A) :
  List.Forall (fun y => key y <= key x) l ->
  insert_sorted (fun a b => 0 <? key b - key a) x l = x :: l.
Proof.
  intros H. destruct l as [|y l]; [reflexivity|].
  inversion H as [|? ? Hy _]; subst. cbn [insert_sorted].
  destruct (Z.ltb_spec 0 (key y - key x)); [lia|reflexivity].
Qed.

Lemma sort_by_sorted {A} (key : A -> Z) (l : list A) :
  StronglySorted (fun a b => key b <= key a) l ->
  sort_by (fun a b => 0 <? key b - key a) l = l.
Proof.
  induction 1 as [|x l Hl IH Hx]; [reflexivity|].
  cbn [sort_by]. rewrite IH. apply insert_sorted_head, Hx.
Qed.

(** Sorting is stable and idempotent: the clips of one rank stay in the
    order in which they were given, also when ranks repeat, and sorting a
    sorted list changes nothing. *)
Theorem sort_is_stable (videos : list RankedVideo) :
  (forall r, List.filter (fun v => rank v =? r) (sortVideosByRank videos)
             = List.filter (fun v => rank v =? r) videos)
  /\ sortVideosByRank (sortVideosByRank videos) = sortVideosByRank videos.
Proof.
  split.
  - intros r. unfold sortVideosByRank.
    induction videos as [|x l IH]; [reflexivity|].
    cbn [sort_by]. rewrite (insert_sorted_filter rank). cbn [List.filter]. rewrite IH.
    reflexivity.
  - apply (sort_by_sorted rank), (sort_by_descending rank).
Qed.

(** ** The lines of the manifest *)

Lemma split_char_join (c : N) (entries : list jsstring) :
  entries <> [] -> List.Forall (fun e => ~ In c e) entries ->
  split_char c [] (join [c] entries) = entries.
Proof.
  intros Hne H. induction H as [|e l He Hl IH]; [contradiction|].
  destruct l as [|e' l].
  - cbn [join]. rewrite split_char_whole by exact He. reflexivity.
  - cbn [join app]. rewrite split_char_app by exact He.
    cbn [app]. f_equal. apply IH. discriminate.
Qed.

(** The manifest read back line by line gives one entry per clip, in the
    order of the clips, provided no path holds a line feed. *)
Theorem manifest_lines (inputPaths : list jsstring) :
  inputPaths <> [] ->
  List.Forall (fun p => ~ In 10%N p) inputPaths ->
  split_char 10%N [] (concatContent inputPaths)
  = List.map (fun p => js "file '" ++ p ++ js "'") inputPaths.
Proof.
  intros Hne Hp. unfold concatContent. apply split_char_join.
  - destruct inputPaths; [contradiction|discriminate].
  - apply List.Forall_map. eapply List.Forall_impl; [|exact Hp].
    intros p Hnl Hin. apply in_app_or in Hin as [Hin|Hin].
    + vm_compute in Hin. intuition discriminate.
    + apply in_app_or in Hin as [Hin|Hin]; [contradiction|].
      vm_compute in Hin. intuition discriminate.
Qed.

Lemma manifest_lines_witness :
  split_char 10%N [] (concatContent [js "/tmp/job/overlay_0.mp4"; js "/tmp/job/overlay_1.mp4"])
  = [js "file '/tmp/job/overlay_0.mp4'"; js "file '/tmp/job/overlay_1.mp4'"].
Proof.
  apply (manifest_lines [js "/tmp/job/overlay_0.mp4"; js "/tmp/job/overlay_1.mp4"]).
  - discriminate.
  - repeat constructor; vm_compute; intuition discriminate.
Defined.

End StableOrder.

(** * The narration route *)

Section ScriptRoute.
Import JS Routes.

(** What the route asks of a video: a [tempId] and a [title] that are
    strings and not empty, a [rank] that is a number neither below 1 nor
    above 5. *)
Definition acceptable (v : VideoInput) : Prop :=
  (exists s, tempId v = Str s /\ s <> [])
  /\ (exists s, title v = Str s /\ s <> [])
  /\ (exists r, rank v = Num r /\ flt r (ofZ 1) = false /\ fgt r (ofZ 5) = false).

Lemma validateVideo_passes (video : option VideoInput) :
  validateVideo video = Ok None <-> exists v, video = Some v /\ acceptable v.
Proof.
  split.
  - destruct video as [v|]; [|discriminate]. intros H. exists v. split; [reflexivity|].
    unfold validateVideo in H.
    destruct (tempId v) as [| |b|x|s|] eqn:Ei;
      cbn [falsy is_string negb orb nonempty] in H; rewrite ?orb_true_r in H;
      try discriminate H.
    destruct s as [|c s]; [discriminate H|]. cbn [falsy is_string negb orb nonempty] in H.
    destruct (title v) as [| |b|x|t|] eqn:Et;
      cbn [falsy is_string negb orb nonempty] in H; rewrite ?orb_true_r in H;
      try discriminate H.
    destruct t as [|c' t]; [discriminate H|]. cbn [falsy is_string negb orb nonempty] in H.
    destruct (rank v) as [| |b|r|t'|] eqn:Er; try discriminate H.
    destruct (flt r (ofZ 1)) eqn:E1; [discriminate H|].
    destruct (fgt r (ofZ 5)) eqn:E2; [discriminate H|].
    repeat split; eexists; repeat split; try eassumption; discriminate.
  - intros (v & -> & (s & Hs & Hne) & (t & Ht & Hnt) & (r & Hr & H1 & H5)).
    unfold validateVideo. rewrite Hs, Ht, Hr, H1, H5.
    destruct s; [contradiction|]. destruct t; [contradiction|]. reflexivity.
Qed.

Lemma validateVideos_pass (l : list (option VideoInput)) :
  validateVideos l = Ok None
  <-> exists vs, l = List.map Some vs /\ List.Forall acceptable vs.
Proof.
  induction l as [|video rest IH].
  - split; [intros _; exists []; split; [reflexivity|constructor]|reflexivity].
  - cbn [validateVideos]. split.
    + destruct (validateVideo video) as [[rejection|]|e] eqn:E; try discriminate.
      intros H. apply validateVideo_passes in E as (v & -> & Hv).
      apply IH in H as (vs & -> & Hvs). exists (v :: vs). split; [reflexivity|].
      constructor; assumption.
    + intros (vs & E & Hvs). destruct vs as [|v vs]; [discriminate|].
      injection E as -> ->. inversion Hvs as [|? ? Hv Hvs']; subst.
      rewrite (proj2 (validateVideo_passes (Some v))) by eauto.
      apply IH. eauto.
Qed.

Lemma set_size_full (l : list number) :
  ForallOrdPairs (fun x y => same_value_zero x y = false) l ->
  set_size l = List.length l.
Proof.
  induction 1 as [|x l Hx Hl IH]; [reflexivity|].
  cbn. replace (existsb (same_value_zero x) l) with false; [rewrite IH; reflexivity|].
  symmetry. apply not_true_is_false. intros H.
  apply existsb_exists in H as (y & Hy & Hxy).
  rewrite List.Forall_forall in Hx. rewrite (Hx y Hy) in Hxy. discriminate.
Qed.

Lemma omap_id_Some {A} (l : list A) : omap id (List.map Some l) = l.
Proof. induction l as [|x l IH]; [reflexivity|]. cbn. f_equal. exact IH. Qed.

Definition distinct_ranks (vs : list VideoInput) : Prop :=
  ForallOrdPairs (fun x y => same_value_zero x y = false) (List.map rank_of vs).

(** The checks of the route, exactly: a request is handed to the generator
    if and only if it carries five videos, each acceptable, no two of the
    same rank; the ranking data are then the videos in their order. *)
Theorem script_request_accepted_iff (body : GenerateScriptRequest)
    (items : list ScriptGenerator.RankingItem) :
  validateScriptRequest body = Ok (inr items)
  <-> exists vs,
        videos body = Some (List.map Some vs)
        /\ List.length vs = 5%nat
        /\ List.Forall acceptable vs
        /\ distinct_ranks vs
        /\ items = List.map toRankingItem vs.
Proof.
  unfold validateScriptRequest, distinct_ranks. split.
  - destruct (videos body) as [l|]; [|discriminate].
    destruct (List.length l =? 5)%nat eqn:El; cbn [negb]; [|discriminate].
    destruct (validateVideos l) as [[rejection|]|e] eqn:Ev; try discriminate.
    apply validateVideos_pass in Ev as (vs & -> & Hvs).
    rewrite omap_id_Some.
    destruct (set_size (List.map rank_of vs) =? 5)%nat eqn:Es; cbn [negb]; [|discriminate].
    intros [= <-]. apply Nat.eqb_eq in El, Es. rewrite length_map in El.
    exists vs. repeat split; try assumption.
    apply set_size_distinct. rewrite length_map. lia.
  - intros (vs & -> & Hlen & Hvs & Hd & ->).
    rewrite length_map, Hlen. cbn [Nat.eqb negb].
    rewrite (proj2 (validateVideos_pass (List.map Some vs))) by eauto.
    rewrite omap_id_Some, (set_size_full _ Hd), length_map, Hlen. reflexivity.
Qed.










End ScriptRoute.

(** * The processing route *)

Section ProcessRoute.
Import JS Routes.

Lemma emits_any_getVideoInfo (p : jsstring) : emits any_call (VideoProcessor.getVideoInfo p).
Proof. unfold VideoProcessor.getVideoInfo, VideoProcessor.runFFmpeg. emit. Qed.

Lemma emits_any_runFFmpeg (cmd : jsstring) : emits any_call (VideoProcessor.runFFmpeg cmd).
Proof. unfold VideoProcessor.runFFmpeg. emit. Qed.

#[local] Hint Resolve emits_any_getVideoInfo emits_any_runFFmpeg : emits.

Lemma emits_any_normalizeAll (vs : list VideoProcessor.RankedVideo) (i : Z) (dir : jsstring) :
  emits any_call (VideoProcessor.normalizeAll i vs dir).
Proof.
  revert i. induction vs as [|v rest IH]; intros i; cbn [VideoProcessor.normalizeAll];
    unfold VideoProcessor.normalizeVideo; emit.
Qed.

Lemma emits_any_overlayAll (vs : list VideoProcessor.RankedVideo) (i : Z)
    (normalizedPaths : list jsstring) (dir : jsstring) :
  emits any_call (VideoProcessor.overlayAll i vs normalizedPaths dir).
Proof.
  revert i. induction vs as [|v rest IH]; intros i; cbn [VideoProcessor.overlayAll];
    unfold VideoProcessor.addRankingOverlay; emit.
Qed.

Lemma emits_any_replaceVideoAudio (v a out : jsstring) :
  emits any_call (VideoProcessor.replaceVideoAudio v a out).
Proof. unfold VideoProcessor.replaceVideoAudio. emit. Qed.

#[local] Hint Resolve emits_any_normalizeAll emits_any_overlayAll
  emits_any_replaceVideoAudio : emits.

Lemma emits_any_processVideoPipeline (options : VideoProcessor.ProcessingOptions) :
  emits any_call (VideoProcessor.processVideoPipeline options).
Proof.
  unfold VideoProcessor.processVideoPipeline, VideoProcessor.pipelineSteps,
    VideoProcessor.ensureDirectories, VideoProcessor.concatenateVideos,
    VideoProcessor.mixVideoAudio.
  emit.
Qed.

Lemma emits_any_textToSpeech (env : gmap jsstring jsstring) (text : jsstring)
    (outputPath : option jsstring) (options : TtsService.TTSOptions) :
  emits any_call (TtsService.textToSpeech env text outputPath options).
Proof.
  unfold TtsService.textToSpeech, TtsService.ensureTTSDirectory,
    TtsService.generateHuggingFaceTTS, TtsService.generateElevenLabsTTS,
    TtsService.generateCoquiTTS.
  emit.
Qed.

Lemma emits_any_saveUploads (uploads : list Upload) (i : Z) (jobDir : jsstring) :
  emits any_call (saveUploads i uploads jobDir).
Proof.
  revert i. induction uploads as [|u rest IH]; intros i; cbn [saveUploads]; emit.
Qed.

Lemma emits_any_checkFFmpegAvailable : emits any_call VideoProcessor.checkFFmpegAvailable.
Proof. unfold VideoProcessor.checkFFmpegAvailable. emit. Qed.

#[local] Hint Resolve emits_any_processVideoPipeline emits_any_textToSpeech
  emits_any_saveUploads emits_any_checkFFmpegAvailable : emits.


Definition sweeping (c : call) : bool :=
  match c with Readdir _ | Unlink _ => true | _ => false end.

(** The latest calls are a sweep of the job directory. *)
Definition swept (jobDir : jsstring) (new : history) : Prop :=
  exists tail rest, new = tail ++ ExistsSync jobDir :: rest /\ forallb sweeping tail = true.




Lemma runs_cleanupDirectory (o : oracle) (jobDir : jsstring) :
  runs o (VideoProcessor.cleanupDirectory jobDir)
    (fun r new => r = Ok tt /\ swept jobDir new).
Proof.
  intros h. unfold VideoProcessor.cleanupDirectory, try_catch, bind, existsSync, readdir.
  destruct (on_exists o h jobDir).
  - destruct (on_readdir o (ExistsSync jobDir :: h) jobDir) as [files|e].
    + rewrite for_each_unlink. unfold swallow, try_catch, unlink.
      exists (Ok tt), ((Unlink jobDir :: sweep jobDir files ++ [Readdir jobDir])
                       ++ [ExistsSync jobDir]).
      split; [destruct (on_unlink o _ jobDir) as [[]|e]; cbn; rewrite <- !app_assoc;
              reflexivity|].
      split; [reflexivity|]. eexists _, []. split; [reflexivity|].
      cbn. rewrite forallb_app. cbn. rewrite andb_true_r.
      unfold sweep. rewrite forallb_forall. intros c Hc.
      apply in_rev, in_map_iff in Hc as (f & <- & _). reflexivity.
    + exists (Ok tt), ([Readdir jobDir] ++ [ExistsSync jobDir]).
      split; [reflexivity|]. split; [reflexivity|]. eexists _, []. split; reflexivity.
  - exists (Ok tt), ([] ++ [ExistsSync jobDir]).
    split; [reflexivity|]. split; [reflexivity|]. eexists _, []. split; reflexivity.
Qed.





End ProcessRoute.

(** * Cutting a long narration into chunks *)

Section Chunks.
Import JS TtsService.

(** The words of a text: the pieces of [split(/\s+/)] that are not empty. *)
Definition words (s : jsstring) : list jsstring := List.filter nonempty (split_ws s).

Definition solid (s : jsstring) : Prop := forallb (fun c => negb (is_ws c)) s = true.

(** The words, read in one pass: [cur] is the word being read. *)
Fixpoint tokens_go (cur s : jsstring) : list jsstring :=
  match s with
  | [] => if nonempty cur then [cur] else []
  | c :: s' =>
      if is_ws c
      then (if nonempty cur then [cur] else []) ++ tokens_go [] s'
      else tokens_go (cur ++ [c]) s'
  end.

Lemma split_tokens (s : jsstring) :
  (forall piece, List.filter nonempty (split_go piece s) = tokens_go piece s)
  /\ List.filter nonempty (split_skip s) = tokens_go [] s.
Proof.
  induction s as [|c s [IHgo IHskip]]; [split; [intros piece|]; reflexivity|].
  split.
  - intros piece. cbn [split_go tokens_go]. destruct (is_ws c).
    + cbn [List.filter]. rewrite IHskip. destruct (nonempty piece); reflexivity.
    + apply IHgo.
  - cbn [split_skip tokens_go]. destruct (is_ws c); [exact IHskip|apply IHgo].
Qed.

Lemma words_tokens (s : jsstring) : words s = tokens_go [] s.
Proof. apply (proj1 (split_tokens s)). Qed.

Lemma tokens_go_before_space (a cur b : jsstring) :
  b = [] \/ starts_ws b = true ->
  tokens_go cur (a ++ b) = tokens_go cur a ++ tokens_go [] b.
Proof.
  intros Hb. revert cur. induction a as [|x a IH]; intros cur.
  - cbn [app tokens_go]. destruct Hb as [->|Hb].
    + cbn. rewrite app_nil_r. reflexivity.
    + destruct b as [|c b]; [discriminate|]. cbn in Hb. cbn [tokens_go]. rewrite Hb.
      reflexivity.
  - cbn [app tokens_go]. destruct (is_ws x).
    + rewrite IH, app_assoc. reflexivity.
    + apply IH.
Qed.

Lemma tokens_go_white (cur t : jsstring) :
  forallb is_ws t = true -> tokens_go cur t = tokens_go cur [].
Proof.
  revert cur. induction t as [|c t IH]; intros cur H; [reflexivity|].
  cbn in H. apply andb_true_iff in H as [Hc Ht].
  cbn [tokens_go]. rewrite Hc, (IH [] Ht). cbn. rewrite app_nil_r. reflexivity.
Qed.

Lemma words_app_space (a b : jsstring) :
  b = [] \/ starts_ws b = true -> words (a ++ b) = words a ++ words b.
Proof. intros H. rewrite !words_tokens. apply tokens_go_before_space, H. Qed.

Lemma words_white (t : jsstring) : forallb is_ws t = true -> words t = [].
Proof. intros H. rewrite words_tokens, (tokens_go_white [] t H). reflexivity. Qed.

Lemma words_trimStart (s : jsstring) : words (trimStart s) = words s.
Proof.
  rewrite !words_tokens. induction s as [|c s IH]; [reflexivity|].
  cbn [trimStart]. destruct (is_ws c) eqn:Hc.
  - rewrite IH. cbn [tokens_go]. rewrite Hc. reflexivity.
  - reflexivity.
Qed.

Lemma trimStart_split (s : jsstring) :
  exists t, s = t ++ trimStart s /\ forallb is_ws t = true.
Proof.
  induction s as [|c s (t & E & Ht)]; [exists []; split; reflexivity|].
  cbn [trimStart]. destruct (is_ws c) eqn:Hc.
  - exists (c :: t). split; [cbn; f_equal; exact E|cbn; rewrite Hc; exact Ht].
  - exists []. split; reflexivity.
Qed.

Lemma trimEnd_split (s : jsstring) :
  exists t, s = trimEnd s ++ t /\ forallb is_ws t = true.
Proof.
  unfold trimEnd. destruct (trimStart_split (rev s)) as (t & E & Ht).
  exists (rev t). split.
  - rewrite <- rev_app_distr, <- E, rev_involutive. reflexivity.
  - rewrite forallb_forall in Ht |- *. intros c Hc. apply Ht, in_rev, Hc.
Qed.

Lemma words_trimEnd (s : jsstring) : words (trimEnd s) = words s.
Proof.
  destruct (trimEnd_split s) as (t & E & Ht). rewrite E at 2.
  rewrite words_app_space, (words_white t Ht), app_nil_r; [reflexivity|].
  destruct t as [|c t]; [left; reflexivity|right].
  cbn in Ht. apply andb_true_iff in Ht as [Hc _]. exact Hc.
Qed.

Lemma words_trim (s : jsstring) : words (trim s) = words s.
Proof. unfold trim. rewrite words_trimEnd. apply words_trimStart. Qed.

Lemma words_append_piece (cur piece : jsstring) :
  words (append_piece cur piece) = words cur ++ words piece.
Proof.
  unfold append_piece. destruct cur as [|c cur]; [reflexivity|].
  cbn [nonempty]. rewrite words_app_space by (right; reflexivity).
  f_equal. rewrite !words_tokens. reflexivity.
Qed.

Lemma words_sentences (s : jsstring) :
  (forall piece after_end,
      concat (List.map words (sentences_go piece after_end s)) = words (piece ++ s))
  /\ concat (List.map words (sentences_skip s)) = words s.
Proof.
  induction s as [|c s [IHgo IHskip]].
  - split; [intros piece after_end|]; cbn [sentences_go sentences_skip List.map concat];
      rewrite ?app_nil_r; reflexivity.
  - split.
    + intros piece after_end. cbn [sentences_go].
      destruct (is_ws c && after_end) eqn:E.
      * apply andb_true_iff in E as [Hc _].
        cbn [List.map concat]. rewrite IHskip.
        rewrite (words_app_space piece (c :: s)) by (right; exact Hc).
        f_equal. rewrite !words_tokens. cbn [tokens_go]. rewrite Hc. reflexivity.
      * rewrite IHgo, <- app_assoc. reflexivity.
    + cbn [sentences_skip]. destruct (is_ws c) eqn:Hc.
      * rewrite IHskip, !words_tokens. cbn [tokens_go]. rewrite Hc. reflexivity.
      * rewrite IHgo. reflexivity.
Qed.

Lemma split_solid (s : jsstring) :
  (forall piece, solid piece -> List.Forall solid (split_go piece s))
  /\ List.Forall solid (split_skip s).
Proof.
  induction s as [|c s [IHgo IHskip]].
  - split; [intros piece Hp|]; repeat constructor. exact Hp.
  - split.
    + intros piece Hp. cbn [split_go]. destruct (is_ws c) eqn:Hc.
      * constructor; assumption.
      * apply IHgo. unfold solid. rewrite forallb_app, Hp. cbn. rewrite Hc. reflexivity.
    + cbn [split_skip]. destruct (is_ws c) eqn:Hc; [exact IHskip|].
      apply IHgo. unfold solid. cbn. rewrite Hc. reflexivity.
Qed.

Lemma tokens_go_solid (w cur : jsstring) :
  solid w -> tokens_go cur w = tokens_go (cur ++ w) [].
Proof.
  revert cur. induction w as [|c w IH]; intros cur H.
  - rewrite app_nil_r. reflexivity.
  - unfold solid in H. cbn in H. apply andb_true_iff in H as [Hc Hw].
    cbn [tokens_go]. destruct (is_ws c); [discriminate|].
    rewrite (IH _ Hw), <- app_assoc. reflexivity.
Qed.

Lemma words_solid (w : jsstring) : solid w -> words w = if nonempty w then [w] else [].
Proof. intros H. rewrite words_tokens, (tokens_go_solid w [] H). reflexivity. Qed.

Lemma words_pieces (s : jsstring) : concat (List.map words (split_ws s)) = words s.
Proof.
  unfold words at 2.
  assert (H : List.Forall solid (split_ws s)) by (apply split_solid; reflexivity).
  induction H as [|w l Hw Hl IH]; [reflexivity|].
  cbn [List.map concat List.filter]. rewrite IH, (words_solid w Hw).
  destruct (nonempty w); reflexivity.
Qed.

(** ** The loops *)

(** The words held by the state of a loop: those of the chunks pushed, then
    those of the chunk in the making. *)
Definition held (st : list jsstring * jsstring) : list jsstring :=
  concat (List.map words (fst st)) ++ words (snd st).

Lemma held_push (chunks : list jsstring) (cur next : jsstring) :
  held (push_trimmed chunks cur, next) = held (chunks, cur) ++ words next.
Proof.
  unfold held, push_trimmed. cbn [fst snd]. destruct cur as [|c cur]; cbn [nonempty].
  - rewrite app_nil_r. reflexivity.
  - rewrite List.map_app, concat_app. cbn [List.map concat].
    rewrite words_trim, app_nil_r. reflexivity.
Qed.

Lemma held_chunk_word (maxChars : nat) (st : list jsstring * jsstring) (word : jsstring) :
  held (chunk_word maxChars st word) = held st ++ words word.
Proof.
  destruct st as [chunks cur]. unfold chunk_word.
  destruct (_ <=? _)%nat.
  - unfold held. cbn [fst snd]. rewrite words_append_piece, app_assoc. reflexivity.
  - apply held_push.
Qed.

Lemma held_fold {A} (step : list jsstring * jsstring -> A -> list jsstring * jsstring)
    (read : A -> list jsstring) (l : list A) (st : list jsstring * jsstring) :
  (forall st x, held (step st x) = held st ++ read x) ->
  held (fold_left step l st) = held st ++ concat (List.map read l).
Proof.
  intros Hstep. revert st. induction l as [|x l IH]; intros st.
  - cbn. rewrite app_nil_r. reflexivity.
  - cbn [fold_left List.map concat]. rewrite IH, Hstep, app_assoc. reflexivity.
Qed.

Lemma held_chunk_sentence (maxChars : nat) (st : list jsstring * jsstring)
    (sentence : jsstring) :
  held (chunk_sentence maxChars st sentence) = held st ++ words sentence.
Proof.
  destruct st as [chunks cur]. unfold chunk_sentence.
  destruct (_ <=? _)%nat.
  - unfold held. cbn [fst snd]. rewrite words_append_piece, app_assoc. reflexivity.
  - destruct (_ <? _)%nat; [|apply held_push].
    rewrite (held_fold (chunk_word maxChars) words) by apply held_chunk_word.
    rewrite words_pieces. rewrite held_push. cbn. rewrite app_nil_r. reflexivity.
Qed.

(** A chunk within the limit, give or take the space that joins two
    sentences, or a single word that could not be cut. *)
Definition bounded (maxChars : nat) (chunk : jsstring) : Prop :=
  (List.length chunk <= maxChars + 1)%nat \/ solid chunk.

Lemma trimStart_length (s : jsstring) : (List.length (trimStart s) <= List.length s)%nat.
Proof.
  induction s as [|c s IH]; [reflexivity|]. cbn [trimStart].
  destruct (is_ws c); cbn [List.length]; lia.
Qed.

Lemma trim_length (s : jsstring) : (List.length (trim s) <= List.length s)%nat.
Proof.
  unfold trim, trimEnd. rewrite length_rev.
  etransitivity; [apply trimStart_length|]. rewrite length_rev. apply trimStart_length.
Qed.

Lemma trim_of_solid (s : jsstring) : solid s -> trim s = s.
Proof.
  intros H. apply trim_solid. unfold solid in H. rewrite forallb_forall in H.
  apply List.Forall_forall. intros c Hc. specialize (H c Hc).
  destruct (is_ws c); [discriminate|reflexivity].
Qed.

Lemma bounded_trim (maxChars : nat) (s : jsstring) :
  bounded maxChars s -> bounded maxChars (trim s).
Proof.
  intros [H|H]; [left; pose proof (trim_length s); lia|right].
  rewrite trim_of_solid; assumption.
Qed.

Definition all_bounded (maxChars : nat) (st : list jsstring * jsstring) : Prop :=
  List.Forall (bounded maxChars) (fst st) /\ bounded maxChars (snd st).

Lemma bounded_push (maxChars : nat) (chunks : list jsstring) (cur next : jsstring) :
  all_bounded maxChars (chunks, cur) -> bounded maxChars next ->
  all_bounded maxChars (push_trimmed chunks cur, next).
Proof.
  intros [Hc Hcur] Hn. split; [|exact Hn]. cbn [fst]. unfold push_trimmed.
  destruct (nonempty cur); [|exact Hc].
  apply Forall_app. split; [exact Hc|]. constructor; [|constructor].
  apply bounded_trim, Hcur.
Qed.

Lemma append_piece_length (cur piece : jsstring) :
  (List.length (append_piece cur piece) <= List.length cur + List.length piece + 1)%nat.
Proof.
  unfold append_piece. rewrite !length_app. destruct (nonempty cur); cbn; lia.
Qed.

Lemma bounded_chunk_word (maxChars : nat) (st : list jsstring * jsstring) (word : jsstring) :
  all_bounded maxChars st -> solid word -> all_bounded maxChars (chunk_word maxChars st word).
Proof.
  destruct st as [chunks cur]. intros Hst Hw. unfold chunk_word.
  destruct (Nat.leb_spec (List.length cur + List.length word + 1) maxChars) as [Hle|Hgt].
  - split; [apply Hst|]. left. cbn [snd].
    pose proof (append_piece_length cur word). lia.
  - apply bounded_push; [exact Hst|right; exact Hw].
Qed.

Lemma bounded_fold_words (maxChars : nat) (ws : list jsstring)
    (st : list jsstring * jsstring) :
  all_bounded maxChars st -> List.Forall solid ws ->
  all_bounded maxChars (fold_left (chunk_word maxChars) ws st).
Proof.
  intros Hst Hws. revert st Hst. induction Hws as [|w ws Hw Hws IH]; intros st Hst;
    [exact Hst|].
  cbn [fold_left]. apply IH, bounded_chunk_word; assumption.
Qed.

Lemma bounded_chunk_sentence (maxChars : nat) (st : list jsstring * jsstring)
    (sentence : jsstring) :
  all_bounded maxChars st -> all_bounded maxChars (chunk_sentence maxChars st sentence).
Proof.
  destruct st as [chunks cur]. intros Hst. unfold chunk_sentence.
  destruct (Nat.leb_spec (List.length cur + List.length sentence) maxChars) as [Hle|Hgt].
  - split; [apply Hst|]. left. cbn [snd].
    pose proof (append_piece_length cur sentence). lia.
  - destruct (Nat.ltb_spec maxChars (List.length sentence)) as [Hlong|Hshort].
    + apply bounded_fold_words; [|apply split_solid; reflexivity].
      apply bounded_push; [exact Hst|left; cbn; lia].
    + apply bounded_push; [exact Hst|left; lia].
Qed.

Lemma bounded_fold_sentences (maxChars : nat) (sentences : list jsstring)
    (st : list jsstring * jsstring) :
  all_bounded maxChars st ->
  all_bounded maxChars (fold_left (chunk_sentence maxChars) sentences st).
Proof.
  revert st. induction sentences as [|s l IH]; intros st Hst; [exact Hst|].
  cbn [fold_left]. apply IH, bounded_chunk_sentence, Hst.
Qed.

(** Chunking loses nothing and keeps the order: the words of the chunks,
    one chunk after the other, are the words of the text.  Every chunk has
    at most [maxChars + 1] characters, unless it is a single word, which is
    never cut. *)
Theorem chunks_keep_the_words (text : jsstring) (maxChars : nat) :
  concat (List.map words (splitTextIntoChunks text maxChars)) = words text
  /\ List.Forall (bounded maxChars) (splitTextIntoChunks text maxChars).
Proof.
  unfold splitTextIntoChunks.
  destruct (Nat.leb_spec (List.length text) maxChars) as [Hle|Hgt].
  - split; [cbn; apply app_nil_r|]. constructor; [left; lia|constructor].
  - pose proof (held_fold (chunk_sentence maxChars) words (split_sentences text) ([], [])
                  (held_chunk_sentence maxChars)) as Hheld.
    pose proof (bounded_fold_sentences maxChars (split_sentences text) ([], [])) as Hb.
    destruct (fold_left (chunk_sentence maxChars) (split_sentences text) ([], []))
      as [chunks cur].
    unfold held, split_sentences in Hheld. cbn [fst snd List.map concat app] in Hheld.
    rewrite (proj1 (words_sentences text)) in Hheld.
    change (words []) with (@nil jsstring) in Hheld. cbn [app] in Hheld.
    destruct Hb as [Hchunks Hcur]; [split; [constructor|left; cbn; lia]|].
    cbn [fst snd] in Hchunks, Hcur.
    destruct (trim cur) as [|c t] eqn:Et; cbn [nonempty].
    + split; [|exact Hchunks].
      rewrite <- Hheld, <- (words_trim cur), Et. cbn. rewrite app_nil_r. reflexivity.
    + split.
      * rewrite List.map_app, concat_app. cbn [List.map concat].
        rewrite app_nil_r, <- Et, words_trim. exact Hheld.
      * apply Forall_app. split; [exact Hchunks|].
        constructor; [|constructor]. rewrite <- Et. apply bounded_trim, Hcur.
Qed.

(** The limit is passed by one when two sentences that just fit are joined
    by a space. *)
Example chunk_of_eleven :
  splitTextIntoChunks (js "aaaa. bbbb. cc") 10 = [js "aaaa. bbbb."; js "cc"].
Proof. vm_compute. reflexivity. Qed.

End Chunks.

(** * When the remote model is of no help *)

Section PolishFallback.
Import JS ScriptGenerator.

(** An answer of the text-generation API that the polisher takes: a
    successful response that carries a generated text of more than 100
    characters. *)
Definition usable (o : oracle) (r : response) : bool :=
  match r with
  | Response true _ body =>
      match parse_generated o body with
      | Some (Some generatedText) => (100 <? List.length generatedText)%nat
      | _ => false
      end
  | _ => false
  end.

Definition asked (prompt apiKey model : jsstring) : call :=
  Fetch (huggingFaceAPI ++ js "/" ++ model) apiKey (Generation prompt).

Lemma try_models_unusable (models : list jsstring) (prompt apiKey : jsstring)
    (o : oracle) (h : history) :
  (forall hist url credential body,
      usable o (on_fetch o hist url credential body) = false) ->
  try_models models prompt apiKey o h
  = (Ok None, rev (List.map (asked prompt apiKey) models) ++ h).
Proof.
  intros Hbad. revert h. induction models as [|model rest IH]; intros h; [reflexivity|].
  cbn [try_models]. unfold bind at 1, fetch at 1.
  specialize (Hbad h (huggingFaceAPI ++ js "/" ++ model) apiKey (Generation prompt)).
  cbn [List.map rev]. rewrite <- app_assoc. cbn [app]. fold (asked prompt apiKey model).
  destruct (on_fetch o h _ apiKey (Generation prompt)) as [e|ok status body];
    [apply IH|].
  destruct ok; cbn [negb]; [|apply IH].
  unfold bind at 1, ask at 1. cbn [usable] in Hbad.
  destruct (parse_generated o body) as [[generatedText|]|]; try apply IH.
  rewrite Hbad. apply IH.
Qed.

(** With a key configured and polishing asked for, when no model gives a
    usable answer (the network fails, the API refuses, the answer cannot be
    read or is too short), the generator asks the three models in their
    order and then returns what it returns without polishing: the template
    script, with [wasPolished] false. *)
Theorem polish_falls_back_to_template (env : gmap jsstring jsstring)
    (rankingData : list RankingItem) (topic optTopic : option jsstring)
    (st : option Style) (emoji : option bool) (apiKey : jsstring)
    (o : oracle) (h : history) :
  TtsService.env_get env "HUGGINGFACE_API_KEY" = Some apiKey ->
  (forall hist url credential body,
      usable o (on_fetch o hist url credential body) = false) ->
  let polished := generateRankingScript env rankingData topic
                    (mkScriptOptions optTopic st emoji (Some true)) o h in
  let plain := generateRankingScript env rankingData topic
                 (mkScriptOptions optTopic st emoji (Some false)) o h in
  exists r prompt,
    fst plain = Ok r
    /\ fst polished = Ok r
    /\ wasPolished r = false
    /\ snd polished
       = rev (List.map (asked prompt apiKey) (defaultModel :: fallbackModels)) ++ snd plain.
Proof.
  intros Hkey Hbad polished plain. subst polished plain.
  unfold generateRankingScript, polishScriptWithLLM, TtsService.env_set.
  cbn [useLLM opt_style includeEmojis opt_topic default andb]. rewrite Hkey.
  match goal with
  | |- context [bind (generateTemplateScript ?items ?t ?s ?e) _] =>
      destruct (returns_generateTemplateScript items t s e o h) as (template & h' & Et & _)
  end.
  unfold bind at 1 3 5 7. rewrite Et. cbn [id andb].
  unfold bind, try_catch.
  rewrite (try_models_unusable _ (buildPolishPrompt template topic) apiKey o h' Hbad).
  eexists _, (buildPolishPrompt template topic). cbn.
  repeat split; reflexivity.
Qed.

Lemma polish_falls_back_to_template_witness :
  exists r prompt,
    fst (generateRankingScript {[ js "HUGGINGFACE_API_KEY" := js "hf_key" ]}
           Samples.five_items None
           (mkScriptOptions None (Some casual) (Some false) (Some false)) Samples.quiet [])
    = Ok r
    /\ fst (generateRankingScript {[ js "HUGGINGFACE_API_KEY" := js "hf_key" ]}
              Samples.five_items None
              (mkScriptOptions None (Some casual) (Some false) (Some true)) Samples.quiet [])
       = Ok r
    /\ wasPolished r = false
    /\ snd (generateRankingScript {[ js "HUGGINGFACE_API_KEY" := js "hf_key" ]}
              Samples.five_items None
              (mkScriptOptions None (Some casual) (Some false) (Some true)) Samples.quiet [])
       = rev (List.map (asked prompt (js "hf_key")) (defaultModel :: fallbackModels))
         ++ snd (generateRankingScript {[ js "HUGGINGFACE_API_KEY" := js "hf_key" ]}
                   Samples.five_items None
                   (mkScriptOptions None (Some casual) (Some false) (Some false))
                   Samples.quiet []).
Proof.
  apply (polish_falls_back_to_template _ _ _ _ _ _ (js "hf_key")).
  - vm_compute. reflexivity.
  - intros hist url credential body. reflexivity.
Defined.

End PolishFallback.

(** * Uploads: where they are stored, and the ranks they get *)

Section Uploads.
Import JS World Routes.

(** A path segment that normalisation leaves alone. *)
Definition ordinary (seg : jsstring) : Prop :=
  seg <> [] /\ seg <> [dot] /\ seg <> [dot; dot] /\ ~ In slash seg.

(** A call that writes a file named [input_...] directly in [dir]. *)
Definition inside (dir : jsstring) (c : call) : bool :=
  match c with
  | WriteFile p _ =>
      startsWith (dir ++ js "/input_") p
      && negb (existsb (N.eqb slash) (skipn (List.length dir + 1) p))
  | _ => false
  end.

Lemma jseqb_neq (a b : jsstring) : a <> b -> jseqb a b = false.
Proof.
  intros H. destruct (jseqb a b) eqn:E; [|reflexivity].
  apply jseqb_eq in E. contradiction.
Qed.

Lemma normalize_plain (above : bool) (segs acc : list jsstring) :
  List.Forall ordinary segs -> normalize_segments above acc segs = rev acc ++ segs.
Proof.
  intros H. revert acc. induction H as [|seg segs (H0 & H1 & H2 & _) _ IH]; intros acc.
  - cbn. rewrite app_nil_r. reflexivity.
  - cbn [normalize_segments].
    rewrite (jseqb_neq _ _ H0), (jseqb_neq _ _ H1), (jseqb_neq _ _ H2). cbn [orb].
    rewrite IH. cbn [rev]. rewrite <- app_assoc. reflexivity.
Qed.

Lemma join_snoc (c : N) (segs : list jsstring) (name : jsstring) :
  segs <> [] -> join [c] (segs ++ [name]) = join [c] segs ++ c :: name.
Proof.
  induction segs as [|s segs IH]; intros Hne; [contradiction|].
  destruct segs as [|s' segs]; [reflexivity|].
  change (join [c] ((s :: s' :: segs) ++ [name]))
    with (s ++ [c] ++ join [c] ((s' :: segs) ++ [name])).
  rewrite IH by discriminate.
  change (join [c] (s :: s' :: segs)) with (s ++ [c] ++ join [c] (s' :: segs)).
  rewrite <- !app_assoc. reflexivity.
Qed.

Lemma join_nonempty (c : N) (segs : list jsstring) (name : jsstring) :
  name <> [] -> join [c] (segs ++ [name]) <> [].
Proof.
  intros Hn. destruct segs as [|s segs]; [exact Hn|].
  destruct segs as [|s' segs].
  - cbn. intros H. apply app_eq_nil in H as [_ H]. discriminate.
  - change (join [c] ((s :: s' :: segs) ++ [name]))
      with (s ++ [c] ++ join [c] ((s' :: segs) ++ [name])).
    intros H. apply app_eq_nil in H as [_ H]. discriminate.
Qed.

Lemma endsWith_unit (c : N) (s : jsstring) (x : N) :
  x <> c -> endsWith [c] (s ++ [x]) = false.
Proof.
  intros H. unfold endsWith. rewrite rev_app_distr. cbn.
  rewrite (proj2 (N.eqb_neq c x)) by congruence. reflexivity.
Qed.

(** Joining a normalised absolute directory and an ordinary name appends the
    name. *)
Lemma path_join_plain (segs : list jsstring) (name : jsstring) :
  segs <> [] -> List.Forall ordinary segs -> ordinary name ->
  path_join [slash :: join [slash] segs; name] = (slash :: join [slash] segs) ++ slash :: name.
Proof.
  intros Hne Hsegs Hname. unfold path_join.
  assert (Hn : name <> []) by apply Hname.
  destruct name as [|n0 name'] eqn:En; [contradiction|]. rewrite <- En in *.
  replace (List.filter nonempty [slash :: join [slash] segs; name])
    with [slash :: join [slash] segs; name] by (rewrite En; reflexivity).
  change (join [slash] [slash :: join [slash] segs; name])
    with (slash :: (join [slash] segs ++ slash :: name)).
  rewrite <- join_snoc by exact Hne.
  unfold path_normalize. cbn [startsWith]. rewrite N.eqb_refl. cbn [andb negb].
  cbn [split_char]. rewrite N.eqb_refl.
  rewrite split_char_join.
  - cbn [normalize_segments]. replace (jseqb [] []) with true by reflexivity. cbn [orb].
    rewrite normalize_plain.
    + cbn [rev app]. destruct (join [slash] (segs ++ [name])) eqn:Ej.
      * exfalso. exact (join_nonempty slash segs name Hn Ej).
      * rewrite <- Ej.
        destruct (exists_last Hn) as (front & x & Ex).
        assert (Hx : x <> slash).
        { intros ->. destruct Hname as (_ & _ & _ & Hs). apply Hs. rewrite Ex.
          apply in_or_app. right. left. reflexivity. }
        replace (endsWith [slash] (slash :: join [slash] (segs ++ [name]))) with false.
        { rewrite join_snoc by exact Hne. reflexivity. }
        symmetry. rewrite join_snoc by exact Hne. rewrite Ex.
        replace (slash :: join [slash] segs ++ slash :: front ++ [x])
          with ((slash :: join [slash] segs ++ slash :: front) ++ [x])
          by (cbn; rewrite <- app_assoc; reflexivity).
        apply endsWith_unit. exact Hx.
    + apply Forall_app. split; [exact Hsegs|]. constructor; [exact Hname|constructor].
  - destruct segs; [contradiction|discriminate].
  - apply Forall_app. split.
    + eapply List.Forall_impl; [|exact Hsegs]. intros s Hs. apply Hs.
    + constructor; [apply Hname|constructor].
Qed.

Lemma take_until_slash_clean (r : jsstring) : ~ In slash (take_until_slash r).
Proof.
  induction r as [|c r IH]; [intros []|]. cbn [take_until_slash].
  destruct (N.eqb_spec c slash) as [E|E]; [intros []|].
  intros [H|H]; [congruence|exact (IH H)].
Qed.

Lemma ext_from_rev_cases (r acc : jsstring) :
  ext_from_rev acc r = [] \/
  exists e, ext_from_rev acc r = dot :: e /\ forall c, In c e -> In c acc \/ In c r.
Proof.
  revert acc. induction r as [|c r IH]; intros acc; [left; reflexivity|].
  cbn [ext_from_rev]. destruct (N.eqb_spec c dot) as [E|E].
  - destruct r; [left; reflexivity|]. right. exists acc. subst c.
    split; [reflexivity|]. intros x Hx. left. exact Hx.
  - destruct (IH (c :: acc)) as [H|(e & H & He)]; [left; exact H|].
    right. exists e. split; [exact H|]. intros x Hx.
    destruct (He x Hx) as [[<-|Hin]|Hin].
    + right. left. reflexivity.
    + left. exact Hin.
    + right. right. exact Hin.
Qed.

Lemma lower_unit_slash (c : N) : lower_unit c = slash -> c = slash.
Proof.
  unfold lower_unit, slash.
  destruct (N.leb_spec 65 c), (N.leb_spec c 90); cbn [andb]; try lia;
    destruct (N.eqb_spec c 8490); lia.
Qed.

(** The extension given to a stored upload starts with a dot and holds no
    slash, whatever the name of the uploaded file. *)
Lemma getFileExtension_shape (filename : jsstring) :
  exists e, getFileExtension filename = dot :: e /\ ~ In slash e.
Proof.
  unfold getFileExtension, path_extname.
  destruct (jseqb (path_basename filename) [dot; dot]).
  { exists (js "mp4"). split; [reflexivity|]. cbn. intros [H|[H|[H|[]]]]; discriminate. }
  destruct (ext_from_rev_cases (rev (path_basename filename)) []) as [->|(e & -> & He)].
  { exists (js "mp4"). split; [reflexivity|]. cbn. intros [H|[H|[H|[]]]]; discriminate. }
  exists (toLowerCase e). split; [reflexivity|].
  unfold toLowerCase. intros H. apply in_map_iff in H as (c & Hc & Hin).
  apply lower_unit_slash in Hc. subst c.
  destruct (He _ Hin) as [[]|Hr].
  apply In_rev in Hr. unfold path_basename in Hr. apply In_rev in Hr.
  exact (take_until_slash_clean _ Hr).
Qed.

Lemma skipn_past (a : jsstring) (c : N) (b : jsstring) :
  skipn (List.length a + 1) (a ++ c :: b) = b.
Proof. induction a as [|x a IH]; [reflexivity|exact IH]. Qed.

(** Every upload is written directly inside the job directory, under a name
    that starts with [input_], whatever the uploaded files are called: a file
    name cannot direct the write anywhere else.  The job directory is taken
    absolute and normalised, as [path.join] leaves it. *)
Theorem uploads_stay_in_job_directory (segs : list jsstring) (uploads : list Upload) (i : Z) :
  segs <> [] -> List.Forall ordinary segs ->
  emits (inside (slash :: join [slash] segs))
        (saveUploads i uploads (slash :: join [slash] segs)).
Proof.
  intros Hne Hsegs. revert i.
  induction uploads as [|video rest IH]; intros i; cbn [saveUploads]; [apply emits_ret|].
  cbv zeta. apply emits_bind; [|intros _; apply emits_bind; [apply IH|intros ?; apply emits_ret]].
  apply (emits_call _ _ _ (fun o => runs_writeFile o _ _)).
  destruct (getFileExtension_shape (file_name (file video))) as (e & -> & He).
  set (name := js "input_" ++ showZ i ++ dot :: e).
  assert (Hname : ordinary name).
  { unfold name. repeat split; try discriminate.
    intros H. cbn in H. repeat (destruct H as [H|H]; [discriminate|]).
    apply in_app_or in H as [H|[H|H]].
    - exact (numeral_no_slash _ (showZ_numeral i) H).
    - discriminate.
    - exact (He H). }
  rewrite path_join_plain by assumption.
  unfold inside. rewrite skipn_past. apply andb_true_iff. split.
  - unfold name.
    change ((slash :: join [slash] segs) ++ slash :: js "input_" ++ showZ i ++ dot :: e)
      with (slash :: (join [slash] segs ++ js "/input_" ++ showZ i ++ dot :: e)).
    change ((slash :: join [slash] segs) ++ js "/input_")
      with (slash :: (join [slash] segs ++ js "/input_")).
    cbn [startsWith]. rewrite N.eqb_refl. cbn [andb].
    rewrite (app_assoc (join [slash] segs)). apply startsWith_app.
  - apply negb_true_iff. destruct (existsb (N.eqb slash) name) eqn:E; [|reflexivity].
    apply existsb_exists in E as (c & Hin & Hc). apply N.eqb_eq in Hc. subst c.
    destruct Hname as (_ & _ & _ & Hs). contradiction.
Qed.

Lemma uploads_stay_in_job_directory_witness :
  emits (inside (js "/tmp/shorts-ranker/job1"))
        (saveUploads 0 [mkUpload (mkFile (js "../../etc/Clip.MOV") [1%N]) 5 0 []]
           (js "/tmp/shorts-ranker/job1")).
Proof.
  apply (uploads_stay_in_job_directory [js "tmp"; js "shorts-ranker"; js "job1"]).
  - discriminate.
  - repeat constructor; try discriminate; cbn; intuition discriminate.
Defined.







End Uploads.

(** * Whole numbers in binary64 *)

Section WholeNumbers.
Import JS.

(** The binary64 form of a whole number of at most 53 bits: the number
    itself, shifted to fill the significand. *)
Definition whole (s : bool) (k : Z) : number :=
  S754_finite s (Z.to_pos (k * 2 ^ (53 - Zdigits2 k))) (Zdigits2 k - 53).

Lemma Zdigits2_unique (m d : Z) : 0 < d -> 2 ^ (d - 1) <= m < 2 ^ d -> Zdigits2 m = d.
Proof.
  intros Hd [Hlow Hup].
  pose proof (Zdigits2_ge m d Hd Hlow) as Hge.
  assert (0 < 2 ^ (d - 1)) by (apply Z.pow_pos_nonneg; lia).
  pose proof (Zdigits2_le m ltac:(lia)) as Hle.
  assert (Hlt : 2 ^ (Zdigits2 m - 1) < 2 ^ d) by lia.
  apply Z.pow_lt_mono_r_iff in Hlt; lia.
Qed.

Lemma Zdigits2_bounds (m : Z) : 0 < m -> 2 ^ (Zdigits2 m - 1) <= m < 2 ^ Zdigits2 m.
Proof. destruct m as [|p|p]; try lia. intros _. apply digits2_bounds. Qed.

Lemma Zdigits2_pos (m : Z) : 0 < m -> 0 < Zdigits2 m.
Proof. destruct m; cbn; lia. Qed.

Lemma Zdigits2_shift (m n : Z) : 0 < m -> 0 <= n -> Zdigits2 (m * 2 ^ n) = Zdigits2 m + n.
Proof.
  intros Hm Hn. pose proof (Zdigits2_pos m Hm) as Hd.
  destruct (Zdigits2_bounds m Hm) as [Hlow Hup].
  assert (0 < 2 ^ n) by (apply Z.pow_pos_nonneg; lia).
  apply Zdigits2_unique; [lia|].
  replace (Zdigits2 m + n - 1) with ((Zdigits2 m - 1) + n) by lia.
  rewrite !Z.pow_add_r by lia. nia.
Qed.

Lemma Zdigits2_small (m : Z) : 0 < m < 2 ^ 53 -> 0 < Zdigits2 m <= 53.
Proof.
  intros [Hm Hup]. pose proof (Zdigits2_pos m Hm).
  destruct (Zdigits2_bounds m Hm) as [Hlow _].
  assert (Hlt : 2 ^ (Zdigits2 m - 1) < 2 ^ 53) by lia.
  apply Z.pow_lt_mono_r_iff in Hlt; lia.
Qed.

Lemma shr_1_even (z : Z) :
  0 < z ->
  shr_1 {| shr_m := z * 2; shr_r := false; shr_s := false |}
  = {| shr_m := z; shr_r := false; shr_s := false |}.
Proof. destruct z as [|p|p]; try lia. intros _. rewrite Z.mul_comm. reflexivity. Qed.

Lemma iter_shr_exact (p : positive) (z : Z) :
  0 < z ->
  SpecFloat.iter_pos shr_1 p {| shr_m := z * 2 ^ Z.pos p; shr_r := false; shr_s := false |}
  = {| shr_m := z; shr_r := false; shr_s := false |}.
Proof.
  revert z. induction p as [p IH|p IH|]; intros z Hz; cbn [SpecFloat.iter_pos].
  - assert (Hp : 0 < z * 2 ^ Z.pos p) by (apply Z.mul_pos_pos; [lia|apply Z.pow_pos_nonneg; lia]).
    replace (z * 2 ^ Z.pos p~1) with (z * 2 ^ Z.pos p * 2 ^ Z.pos p * 2).
    + rewrite shr_1_even by (apply Z.mul_pos_pos; [lia|apply Z.pow_pos_nonneg; lia]).
      rewrite IH by exact Hp. apply IH. exact Hz.
    + rewrite Pos2Z.inj_xI.
      replace (2 * Z.pos p + 1) with (Z.pos p + Z.pos p + 1) by lia.
      rewrite !Z.pow_add_r by lia. change (2 ^ 1) with 2. ring.
  - assert (Hp : 0 < z * 2 ^ Z.pos p) by (apply Z.mul_pos_pos; [lia|apply Z.pow_pos_nonneg; lia]).
    replace (z * 2 ^ Z.pos p~0) with (z * 2 ^ Z.pos p * 2 ^ Z.pos p).
    + rewrite IH by exact Hp. apply IH. exact Hz.
    + assert (E : 2 ^ Z.pos p~0 = 2 ^ Z.pos p * 2 ^ Z.pos p)
        by (rewrite <- Z.pow_add_r by lia; f_equal; lia).
      rewrite E. ring.
  - replace (z * 2 ^ 1) with (z * 2) by lia. apply shr_1_even. exact Hz.
Qed.

(** Rounding a significand that is a full significand followed by zero bits
    drops the zero bits and nothing else. *)
Lemma round_aux_exact (s : bool) (q : positive) (n e : Z) :
  Z.pos (digits2_pos q) = 53 -> 0 <= n -> -1074 <= e + n <= 971 ->
  binary_round_aux prec emax s (Z.pos q * 2 ^ n) e loc_Exact = S754_finite s q (e + n).
Proof.
  intros Hq Hn He. unfold binary_round_aux, shr_fexp.
  rewrite Zdigits2_shift by lia. cbn [Zdigits2]. rewrite Hq.
  replace (fexp prec emax (53 + n + e) - e) with n
    by (unfold fexp, emin, prec, emax; lia).
  cbn [shr_record_of_loc].
  assert (Hsecond : forall e',
            -1074 <= e' <= 971 ->
            (let '(mrs'', e'') := shr (shr_record_of_loc (Z.pos q) loc_Exact) e'
                                    (fexp prec emax (Zdigits2 (Z.pos q) + e') - e') in
             match shr_m mrs'' with
             | 0 => S754_zero s
             | Z.pos m => if e'' <=? emax - prec then S754_finite s m e'' else S754_infinity s
             | Z.neg _ => S754_nan
             end) = S754_finite s q e').
  { intros e' He'. cbn [Zdigits2]. rewrite Hq.
    replace (fexp prec emax (53 + e') - e') with 0 by (unfold fexp, emin, prec, emax; lia).
    cbn [shr shr_record_of_loc shr_m].
    replace (e' <=? emax - prec) with true
      by (symmetry; apply Z.leb_le; unfold emax, prec; lia).
    reflexivity. }
  destruct n as [|p|p]; [| |lia].
  - cbn [shr]. replace (Z.pos q * 2 ^ 0) with (Z.pos q) by lia.
    cbn [shr_m loc_of_shr_record round_nearest_even].
    replace (e + 0) with e in * by lia. apply Hsecond. exact He.
  - cbn [shr]. rewrite iter_shr_exact by lia.
    cbn [shr_m loc_of_shr_record round_nearest_even]. apply Hsecond. exact He.
Qed.

Lemma whole_mantissa (k : Z) :
  0 < k < 2 ^ 53 ->
  Z.pos (Z.to_pos (k * 2 ^ (53 - Zdigits2 k))) = k * 2 ^ (53 - Zdigits2 k)
  /\ Z.pos (digits2_pos (Z.to_pos (k * 2 ^ (53 - Zdigits2 k)))) = 53.
Proof.
  intros Hk. pose proof (Zdigits2_small k Hk) as Hd.
  assert (Hp : 0 < k * 2 ^ (53 - Zdigits2 k))
    by (apply Z.mul_pos_pos; [lia|apply Z.pow_pos_nonneg; lia]).
  split; [apply Z2Pos.id; exact Hp|].
  change (Z.pos (digits2_pos (Z.to_pos (k * 2 ^ (53 - Zdigits2 k)))))
    with (Zdigits2 (Z.pos (Z.to_pos (k * 2 ^ (53 - Zdigits2 k))))).
  rewrite Z2Pos.id by exact Hp. rewrite Zdigits2_shift by lia. lia.
Qed.

(** Rounding the whole number [k], given with [t] zero bits behind it. *)
Lemma round_exact (s : bool) (k t : Z) :
  0 < k < 2 ^ 53 -> 0 <= t ->
  binary_round prec emax s (Z.to_pos (k * 2 ^ t)) (- t) = whole s k.
Proof.
  intros Hk Ht. pose proof (Zdigits2_small k Hk) as Hd.
  destruct (whole_mantissa k Hk) as [Hm Hfull].
  assert (Hp : 0 < k * 2 ^ t)
    by (apply Z.mul_pos_pos; [lia|apply Z.pow_pos_nonneg; lia]).
  unfold binary_round.
  change (Z.pos (digits2_pos (Z.to_pos (k * 2 ^ t))))
    with (Zdigits2 (Z.pos (Z.to_pos (k * 2 ^ t)))).
  rewrite Z2Pos.id by exact Hp. rewrite Zdigits2_shift by lia.
  replace (fexp prec emax (Zdigits2 k + t + - t)) with (Zdigits2 k - 53)
    by (unfold fexp, emin, prec, emax; lia).
  unfold shl_align, whole.
  destruct (Zdigits2 k - 53 - - t) as [|d|d] eqn:Ed.
  - rewrite Z2Pos.id by exact Hp.
    replace (k * 2 ^ t) with (Z.pos (Z.to_pos (k * 2 ^ (53 - Zdigits2 k))) * 2 ^ 0).
    + rewrite round_aux_exact by (try exact Hfull; lia). f_equal. lia.
    + rewrite Hm. replace (53 - Zdigits2 k) with t by lia. lia.
  - rewrite Z2Pos.id by exact Hp.
    replace (k * 2 ^ t) with (Z.pos (Z.to_pos (k * 2 ^ (53 - Zdigits2 k))) * 2 ^ Z.pos d).
    + rewrite round_aux_exact by (try exact Hfull; lia). f_equal. lia.
    + rewrite Hm. rewrite <- Z.mul_assoc, <- Z.pow_add_r by lia. f_equal. f_equal. lia.
  - replace (Z.pos (Pos.iter xO (Z.to_pos (k * 2 ^ t)) d))
      with (Z.pos (Z.to_pos (k * 2 ^ (53 - Zdigits2 k))) * 2 ^ 0).
    + rewrite round_aux_exact by (try exact Hfull; lia). f_equal. lia.
    + rewrite iter_xO, Hm, Z2Pos.id by exact Hp.
      rewrite <- !Z.mul_assoc, <- !Z.pow_add_r by lia.
      f_equal. f_equal. lia.
Qed.

Lemma ofZ_whole (k : Z) : 0 < k < 2 ^ 53 -> ofZ k = whole false k.
Proof.
  intros Hk. unfold ofZ, binary_normalize. destruct k as [|p|p]; try lia.
  rewrite <- (round_exact false (Z.pos p) 0) by lia.
  replace (Z.pos p * 2 ^ 0) with (Z.pos p) by lia. reflexivity.
Qed.

(** Products and sums of whole numbers are exact as long as they fit in 53
    bits. *)
Lemma fmul_whole (a b : Z) :
  0 < a -> 0 < b -> a * b < 2 ^ 53 -> fmul (ofZ a) (ofZ b) = ofZ (a * b).
Proof.
  intros Ha Hb Hab.
  assert (Ha' : 0 < a < 2 ^ 53) by nia. assert (Hb' : 0 < b < 2 ^ 53) by nia.
  assert (Hab' : 0 < a * b < 2 ^ 53) by nia.
  rewrite !ofZ_whole by assumption. unfold whole, fmul, SFmul. cbn [xorb].
  destruct (whole_mantissa a Ha') as [Hma _]. destruct (whole_mantissa b Hb') as [Hmb _].
  destruct (whole_mantissa (a * b) Hab') as [Hm Hfull].
  pose proof (Zdigits2_small a Ha') as Hda. pose proof (Zdigits2_small b Hb') as Hdb.
  pose proof (Zdigits2_small (a * b) Hab') as Hdab.
  assert (Hlow : Zdigits2 a + Zdigits2 b - 1 <= Zdigits2 (a * b)).
  { apply Zdigits2_ge; [lia|].
    destruct (Zdigits2_bounds a) as [La _]; [lia|].
    destruct (Zdigits2_bounds b) as [Lb _]; [lia|].
    replace (Zdigits2 a + Zdigits2 b - 1 - 1) with ((Zdigits2 a - 1) + (Zdigits2 b - 1)) by lia.
    rewrite Z.pow_add_r by lia.
    assert (0 < 2 ^ (Zdigits2 a - 1)) by (apply Z.pow_pos_nonneg; lia).
    assert (0 < 2 ^ (Zdigits2 b - 1)) by (apply Z.pow_pos_nonneg; lia).
    nia. }
  set (n := 53 - Zdigits2 a - Zdigits2 b + Zdigits2 (a * b)).
  replace (Z.pos (Z.to_pos (a * 2 ^ (53 - Zdigits2 a)) * Z.to_pos (b * 2 ^ (53 - Zdigits2 b))))
    with (Z.pos (Z.to_pos (a * b * 2 ^ (53 - Zdigits2 (a * b)))) * 2 ^ n).
  - rewrite round_aux_exact by (try exact Hfull; unfold n; lia). f_equal. unfold n. lia.
  - rewrite Pos2Z.inj_mul, Hma, Hmb, Hm.
    replace (a * 2 ^ (53 - Zdigits2 a) * (b * 2 ^ (53 - Zdigits2 b)))
      with (a * b * (2 ^ (53 - Zdigits2 a) * 2 ^ (53 - Zdigits2 b))) by ring.
    rewrite <- Z.mul_assoc, <- !Z.pow_add_r by (unfold n; lia).
    f_equal. f_equal. unfold n. lia.
Qed.

Lemma shl_align_value (m : positive) (e e' : Z) :
  e' <= e -> Z.pos (fst (shl_align m e e')) = Z.pos m * 2 ^ (e - e').
Proof.
  intros He. unfold shl_align. destruct (e' - e) as [|d|d] eqn:Ed; cbn [fst]; try lia.
  - replace (e - e') with 0 by lia. lia.
  - rewrite iter_xO. f_equal. f_equal. lia.
Qed.

Lemma fadd_whole (a b : Z) :
  0 < a -> 0 < b -> a + b < 2 ^ 53 -> fadd (ofZ a) (ofZ b) = ofZ (a + b).
Proof.
  intros Ha Hb Hab.
  assert (Ha' : 0 < a < 2 ^ 53) by lia. assert (Hb' : 0 < b < 2 ^ 53) by lia.
  assert (Hab' : 0 < a + b < 2 ^ 53) by lia.
  rewrite (ofZ_whole a), (ofZ_whole b), (ofZ_whole (a + b)) by assumption.
  unfold whole at 1 2. unfold fadd, SFadd. cbn [cond_Zopp].
  destruct (whole_mantissa a Ha') as [Hma _]. destruct (whole_mantissa b Hb') as [Hmb _].
  pose proof (Zdigits2_small a Ha') as Hda. pose proof (Zdigits2_small b Hb') as Hdb.
  set (ez := Z.min (Zdigits2 a - 53) (Zdigits2 b - 53)).
  rewrite !shl_align_value by (unfold ez; lia). rewrite Hma, Hmb.
  rewrite <- !Z.mul_assoc, <- !Z.pow_add_r by (unfold ez; lia).
  replace (53 - Zdigits2 a + (Zdigits2 a - 53 - ez)) with (- ez) by lia.
  replace (53 - Zdigits2 b + (Zdigits2 b - 53 - ez)) with (- ez) by lia.
  rewrite <- Z.mul_add_distr_r.
  assert (Hp : 0 < (a + b) * 2 ^ (- ez))
    by (apply Z.mul_pos_pos; [lia|apply Z.pow_pos_nonneg; unfold ez; lia]).
  unfold binary_normalize.
  destruct ((a + b) * 2 ^ (- ez)) as [|p|p] eqn:Ep; try lia.
  rewrite <- (round_exact false (a + b) (- ez)) by (unfold ez; lia).
  rewrite Ep. replace (- - ez) with ez by lia. reflexivity.
Qed.

(** Whole numbers compare as their binary64 forms do. *)
Lemma compare_whole (a b : Z) :
  0 < a < 2 ^ 53 -> 0 < b < 2 ^ 53 -> SFcompare (ofZ a) (ofZ b) = Some (a ?= b).
Proof.
  intros Ha Hb. rewrite !ofZ_whole by assumption. unfold whole, SFcompare.
  destruct (whole_mantissa a Ha) as [Hma _]. destruct (whole_mantissa b Hb) as [Hmb _].
  pose proof (Zdigits2_small a Ha) as Hda. pose proof (Zdigits2_small b Hb) as Hdb.
  destruct (Zdigits2_bounds a) as [La Ua]; [lia|].
  destruct (Zdigits2_bounds b) as [Lb Ub]; [lia|].
  f_equal. destruct (Z.compare_spec (Zdigits2 a - 53) (Zdigits2 b - 53)) as [E|E|E].
  - rewrite Pos.compare_cont_spec.
    assert (Hsw : forall c, Pos.switch_Eq Eq c = c) by (intros []; reflexivity).
    rewrite Hsw, Pos2Z.inj_compare, Hma, Hmb.
    replace (Zdigits2 b) with (Zdigits2 a) by lia.
    assert (0 < 2 ^ (53 - Zdigits2 a)) by (apply Z.pow_pos_nonneg; lia).
    destruct (Z.compare_spec a b) as [E'|E'|E'].
    + subst b. apply Z.compare_refl.
    + apply Z.compare_lt_iff. nia.
    + apply Z.compare_gt_iff. nia.
  - symmetry. apply Z.compare_lt_iff.
    assert (2 ^ Zdigits2 a <= 2 ^ (Zdigits2 b - 1)) by (apply Z.pow_le_mono_r; lia). lia.
  - symmetry. apply Z.compare_gt_iff.
    assert (2 ^ Zdigits2 b <= 2 ^ (Zdigits2 a - 1)) by (apply Z.pow_le_mono_r; lia). lia.
Qed.

Lemma floorZ_whole (k : Z) :
  0 < k < 2 ^ 53 ->
  floorZ false (Z.to_pos (k * 2 ^ (53 - Zdigits2 k))) (Zdigits2 k - 53) = k.
Proof.
  intros Hk. destruct (whole_mantissa k Hk) as [Hm _].
  pose proof (Zdigits2_small k Hk) as Hd.
  unfold floorZ, signed. rewrite Hm.
  destruct (Z.leb_spec 0 (Zdigits2 k - 53)).
  - replace (53 - Zdigits2 k) with 0 by lia. replace (Zdigits2 k - 53) with 0 by lia. lia.
  - replace (- (Zdigits2 k - 53)) with (53 - Zdigits2 k) by lia.
    apply Z.div_mul. apply Z.pow_nonzero; lia.
Qed.

Lemma toZ_whole (k : Z) : 0 <= k < 2 ^ 53 -> toZ (ofZ k) = Some k.
Proof.
  intros Hk. destruct (Z.eq_dec k 0) as [->|Hne]; [reflexivity|].
  assert (Hk' : 0 < k < 2 ^ 53) by lia.
  rewrite ofZ_whole by exact Hk'. unfold whole, toZ.
  destruct (whole_mantissa k Hk') as [Hm _].
  pose proof (Zdigits2_small k Hk') as Hd.
  unfold signed. rewrite Hm.
  destruct (Z.leb_spec 0 (Zdigits2 k - 53)).
  - replace (53 - Zdigits2 k) with 0 by lia. replace (Zdigits2 k - 53) with 0 by lia.
    f_equal. lia.
  - replace (- (Zdigits2 k - 53)) with (53 - Zdigits2 k) by lia.
    rewrite Z.mod_mul by (apply Z.pow_nonzero; lia). cbn [Z.eqb].
    rewrite Z.div_mul by (apply Z.pow_nonzero; lia). reflexivity.
Qed.

End WholeNumbers.

(** * Durations and the silent WAV file *)

Section SilentWav.
Import JS TtsService.

(** The bytes of [z], the least significant first. *)
Definition le_bytes (width : nat) (z : Z) : list N :=
  List.map (fun i => Z.to_N ((z / 2 ^ (8 * Z.of_nat i)) mod 256)) (seq 0 width).

Lemma little_endian_whole (width : nat) (k : Z) :
  (1 <= width <= 6)%nat -> 0 <= k < 2 ^ 53 ->
  little_endian width (ofZ k)
  = if k <? 2 ^ (8 * Z.of_nat width) then Some (le_bytes width k) else None.
Proof.
  intros Hw Hk. unfold little_endian.
  set (top := 2 ^ (8 * Z.of_nat width) - 1).
  assert (Htop : 0 < top < 2 ^ 53).
  { unfold top. assert (2 ^ 8 <= 2 ^ (8 * Z.of_nat width) <= 2 ^ 48)
      by (split; apply Z.pow_le_mono_r; lia).
    change (2 ^ 8) with 256 in *. change (2 ^ 48) with 281474976710656 in *.
    change (2 ^ 53) with 9007199254740992. lia. }
  assert (Etop : 2 ^ (8 * Z.of_nat width) = top + 1) by (unfold top; lia).
  rewrite Etop.
  destruct (Z.eq_dec k 0) as [->|Hne].
  - replace (0 <? top + 1) with true by (symmetry; apply Z.ltb_lt; lia).
    change (ofZ 0) with (S754_zero false).
    replace (fgt (S754_zero false) (ofZ top)) with false; [reflexivity|].
    rewrite ofZ_whole by exact Htop. reflexivity.
  - assert (Hk' : 0 < k < 2 ^ 53) by lia.
    unfold flt, fgt, SFltb.
    replace (SFcompare (ofZ k) (ofZ 0)) with (Some Gt)
      by (rewrite ofZ_whole by exact Hk'; reflexivity).
    rewrite compare_whole by assumption.
    cbn [orb]. rewrite ofZ_whole by exact Hk'. unfold whole.
    rewrite floorZ_whole by exact Hk'.
    destruct (Z.compare_spec top k) as [E|E|E], (Z.ltb_spec k (top + 1)); try lia;
      reflexivity.
Qed.

(** The 44 bytes of the header of a PCM file: two channels, 16 bits a
    sample, 44100 samples a second, [dataSize] bytes of samples. *)
Definition wav_layout (dataSize : Z) : list N :=
  js "RIFF" ++ le_bytes 4 (36 + dataSize) ++ js "WAVE"
  ++ js "fmt " ++ le_bytes 4 16 ++ le_bytes 2 1 ++ le_bytes 2 2
  ++ le_bytes 4 44100 ++ le_bytes 4 176400 ++ le_bytes 2 4 ++ le_bytes 2 16
  ++ js "data" ++ le_bytes 4 dataSize.

Lemma byteRate_value :
  fdiv (fmul (fmul (ofZ sampleRate) (ofZ 2)) (ofZ 16)) (ofZ 8) = ofZ 176400.
Proof. vm_compute. reflexivity. Qed.

Lemma blockAlign_value : fdiv (fmul (ofZ 2) (ofZ 16)) (ofZ 8) = ofZ 4.
Proof. vm_compute. reflexivity. Qed.

(** The silent WAV file for a whole number of seconds.  The size of the
    samples is 176400 bytes a second, computed without rounding; up to 24347
    seconds the header is the PCM header for that size, so that the sizes it
    declares are those of the file written; from 24348 seconds on the first
    size no longer fits in 32 bits and writing the header throws. *)
Theorem silent_wav_layout (seconds : Z) (o : oracle) (h : history) :
  0 < seconds < 2 ^ 32 ->
  let dataSize :=
    fmul (fmul (ofZ sampleRate) (ofZ seconds)) (fdiv (fmul (ofZ 2) (ofZ 16)) (ofZ 8)) in
  toZ dataSize = Some (176400 * seconds)
  /\ wav_header dataSize o h
     = if seconds <=? 24347
       then (Ok (wav_layout (176400 * seconds)), h)
       else (Throw (Error (out_of_range o (ofZ (36 + 176400 * seconds)))), h).
Proof.
  intros Hs. cbv zeta. rewrite blockAlign_value.
  change (2 ^ 32) with 4294967296 in Hs.
  assert (H53 : 2 ^ 53 = 9007199254740992) by reflexivity.
  unfold sampleRate.
  rewrite !fmul_whole by (rewrite ?H53; lia).
  replace (44100 * seconds * 4) with (176400 * seconds) by lia.
  split; [apply toZ_whole; rewrite H53; lia|].
  unfold wav_header. cbv zeta. rewrite byteRate_value, blockAlign_value.
  rewrite fadd_whole by (rewrite ?H53; lia).
  unfold write_le, sampleRate.
  rewrite !little_endian_whole by (rewrite ?H53; lia).
  change (2 ^ (8 * Z.of_nat 4)) with 4294967296.
  change (2 ^ (8 * Z.of_nat 2)) with 65536.
  destruct (Z.leb_spec seconds 24347) as [Hle|Hgt].
  - replace (36 + 176400 * seconds <? 4294967296) with true
      by (symmetry; apply Z.ltb_lt; lia).
    replace (176400 * seconds <? 4294967296) with true
      by (symmetry; apply Z.ltb_lt; lia).
    reflexivity.
  - replace (36 + 176400 * seconds <? 4294967296) with false
      by (symmetry; apply Z.ltb_ge; lia).
    reflexivity.
Qed.

Lemma silent_wav_layout_witness :
  toZ (fmul (fmul (ofZ sampleRate) (ofZ 10)) (fdiv (fmul (ofZ 2) (ofZ 16)) (ofZ 8)))
  = Some (176400 * 10)
  /\ wav_header (fmul (fmul (ofZ sampleRate) (ofZ 10)) (fdiv (fmul (ofZ 2) (ofZ 16)) (ofZ 8)))
       Samples.quiet []
     = if 10 <=? 24347
       then (Ok (wav_layout (176400 * 10)), [])
       else (Throw (Error (out_of_range Samples.quiet (ofZ (36 + 176400 * 10)))), []).
Proof. apply (silent_wav_layout 10 Samples.quiet []). split; reflexivity. Defined.

End SilentWav.

(** * The estimated duration of a narration *)

Section Estimates.
Import JS TtsService.

(** Two fifths of a second a word, rounded up. *)
Definition exact_seconds (words : Z) : Z := (words * 60 + 149) / 150.

Definition estimate_checked (words : Z) : bool :=
  let estimated := estimate words in
  number_eqb estimated (ofZ (exact_seconds words))
  || (words mod 5 =? 0) && number_eqb estimated (ofZ (exact_seconds words + 1)).

Definition upto (n : Z) : list Z := List.map Z.of_nat (seq 0 (Z.to_nat n)).

Lemma upto_all (P : Z -> bool) (n : Z) :
  forallb P (upto n) = true -> forall i, 0 <= i < n -> P i = true.
Proof.
  intros H i Hi. rewrite forallb_forall in H. apply H.
  unfold upto. apply in_map_iff. exists (Z.to_nat i). split; [lia|].
  apply in_seq. lia.
Qed.

Lemma number_eqb_eq (x y : number) : number_eqb x y = true -> x = y.
Proof.
  destruct x as [a|a| |a m e], y as [b|b| |b m' e']; cbn [number_eqb]; try discriminate.
  - intros H. apply Bool.eqb_prop in H. congruence.
  - intros H. apply Bool.eqb_prop in H. congruence.
  - reflexivity.
  - intros H. apply andb_true_iff in H as [H He]. apply andb_true_iff in H as [Hs Hm].
    apply Bool.eqb_prop in Hs. apply Pos.eqb_eq in Hm. apply Z.eqb_eq in He. congruence.
Qed.

Lemma estimates_checked : forallb estimate_checked (upto 3001) = true.
Proof. vm_compute. reflexivity. Qed.

Lemma Math_max_whole (a b : Z) :
  0 < a < 2 ^ 53 -> 0 <= b < 2 ^ 53 -> Math_max (ofZ a) (ofZ b) = ofZ (Z.max a b).
Proof.
  intros Ha Hb. unfold Math_max. destruct (Z.eq_dec b 0) as [->|Hne].
  - rewrite Z.max_l by lia. rewrite ofZ_whole by exact Ha. reflexivity.
  - rewrite compare_whole by lia. destruct (Z.compare_spec a b) as [E|E|E].
    + subst b. rewrite Z.max_l by lia. rewrite ofZ_whole by exact Ha. reflexivity.
    + rewrite Z.max_r by lia. reflexivity.
    + rewrite Z.max_l by lia. reflexivity.
Qed.

(** The estimated duration of a narration of up to three thousand words is a
    whole number of seconds: two fifths of a second a word, rounded up, or
    one second more than that.  The extra second only occurs when the exact
    duration is already whole (the word count is a multiple of five), where
    the division by 150 rounds upwards.  The script generator and the
    speech service estimate alike, and the mock's duration, which is never
    below ten seconds, is whole as well. *)
Theorem estimate_close_to_exact (words : Z) :
  0 <= words <= 3000 ->
  exists seconds,
    estimate words = ofZ seconds
    /\ ScriptGenerator.estimate words = ofZ seconds
    /\ (seconds = exact_seconds words
        \/ words mod 5 = 0 /\ seconds = exact_seconds words + 1)
    /\ Math_max (ofZ 10) (estimate words) = ofZ (Z.max 10 seconds).
Proof.
  intros Hw.
  pose proof (upto_all _ _ estimates_checked words ltac:(lia)) as H.
  assert (Hexact : 0 <= exact_seconds words <= 1201).
  { unfold exact_seconds. split.
    - apply Z.div_pos; lia.
    - apply Z.div_le_upper_bound; lia. }
  assert (H53 : 2 ^ 53 = 9007199254740992) by reflexivity.
  unfold estimate_checked in H. cbv zeta in H. apply orb_true_iff in H as [H|H].
  - apply number_eqb_eq in H. exists (exact_seconds words).
    split; [exact H|]. split; [exact H|]. split; [left; reflexivity|].
    rewrite H. apply Math_max_whole; rewrite H53; lia.
  - apply andb_true_iff in H as [H5 H]. apply Z.eqb_eq in H5. apply number_eqb_eq in H.
    exists (exact_seconds words + 1).
    split; [exact H|]. split; [exact H|]. split; [right; split; [exact H5|reflexivity]|].
    rewrite H. apply Math_max_whole; rewrite H53; lia.
Qed.

Lemma estimate_close_to_exact_witness :
  exists seconds,
    estimate 155 = ofZ seconds
    /\ ScriptGenerator.estimate 155 = ofZ seconds
    /\ (seconds = exact_seconds 155 \/ 155 mod 5 = 0 /\ seconds = exact_seconds 155 + 1)
    /\ Math_max (ofZ 10) (estimate 155) = ofZ (Z.max 10 seconds).
Proof. apply (estimate_close_to_exact 155). lia. Defined.

(** The extra second does occur: 155 words last 62 seconds at 150 words a
    minute and are estimated at 63. *)
Example estimate_overshoots :
  exact_seconds 155 = 62 /\ estimate 155 = ofZ 63.
Proof. split; vm_compute; reflexivity. Qed.

End Estimates.

(** * Splitting a template script back into its segments *)

Section Segments.
Import JS World ScriptGenerator.

(** A text without a line feed. *)
Definition one_line (s : jsstring) : Prop :=
  forallb (fun c => negb (c =? 10)%N) s = true.

(** A text without a blank line in it and without a line feed at its end. *)
Fixpoint calm (s : jsstring) : bool :=
  match s with
  | [] => true
  | c :: s' =>
      match s' with
      | [] => negb (c =? 10)%N
      | d :: _ => negb ((c =? 10) && (d =? 10))%N && calm s'
      end
  end.

Lemma blank_here (c : N) (s : jsstring) :
  startsWith (nl ++ nl) (c :: s) = true -> c = 10%N /\ exists t, s = 10%N :: t.
Proof.
  change (nl ++ nl) with [10%N; 10%N]. cbn [startsWith]. intros H.
  apply andb_true_iff in H as [Hc H]. apply N.eqb_eq in Hc.
  destruct s as [|d t]; [discriminate|].
  apply andb_true_iff in H as [Hd _]. apply N.eqb_eq in Hd.
  subst. split; [reflexivity|]. exists t. reflexivity.
Qed.

Lemma split_blank (a rest p : jsstring) :
  calm a = true ->
  split_string (nl ++ nl) p 0 (a ++ nl ++ nl ++ rest)
  = (p ++ a) :: split_string (nl ++ nl) [] 0 rest.
Proof.
  revert p. induction a as [|c a IH]; intros p Ha.
  - change ([] ++ nl ++ nl ++ rest) with (10%N :: 10%N :: rest).
    cbn [split_string]. change (nl ++ nl) with [10%N; 10%N].
    cbn [startsWith List.length Nat.sub]. rewrite N.eqb_refl. cbn [andb].
    rewrite app_nil_r. reflexivity.
  - change ((c :: a) ++ nl ++ nl ++ rest) with (c :: (a ++ nl ++ nl ++ rest)).
    cbn [split_string].
    destruct (startsWith (nl ++ nl) (c :: (a ++ nl ++ nl ++ rest))) eqn:Hs.
    + exfalso. apply blank_here in Hs as (-> & t & Et).
      cbn [calm] in Ha. destruct a as [|d a].
      * discriminate.
      * injection Et as -> _. discriminate.
    + rewrite IH.
      * rewrite <- app_assoc. reflexivity.
      * cbn [calm] in Ha. destruct a as [|d a]; [reflexivity|].
        apply andb_true_iff in Ha as [_ Ha]. exact Ha.
Qed.

Lemma split_end (a p : jsstring) :
  one_line a -> split_string (nl ++ nl) p 0 a = [p ++ a].
Proof.
  unfold one_line. revert p. induction a as [|c a IH]; intros p Ha.
  - cbn. rewrite app_nil_r. reflexivity.
  - cbn [forallb] in Ha. apply andb_true_iff in Ha as [Hc Ha].
    cbn [split_string].
    destruct (startsWith (nl ++ nl) (c :: a)) eqn:Hs.
    + apply blank_here in Hs as (-> & _). discriminate.
    + rewrite IH by exact Ha. rewrite <- app_assoc. reflexivity.
Qed.

Lemma calm_one_line (a : jsstring) : one_line a -> calm a = true.
Proof.
  unfold one_line. induction a as [|c a IH]; [reflexivity|].
  cbn [forallb]. intros H. apply andb_true_iff in H as [Hc Ha].
  cbn [calm]. destruct a as [|d a]; [exact Hc|].
  rewrite (IH Ha). apply negb_true_iff in Hc. rewrite Hc. reflexivity.
Qed.

Lemma calm_cons (c d : N) (t : jsstring) :
  calm (c :: d :: t) = negb ((c =? 10) && (d =? 10))%N && calm (d :: t).
Proof. reflexivity. Qed.

Lemma calm_two_lines (x y : jsstring) :
  one_line x -> one_line y -> y <> [] -> calm (x ++ nl ++ y) = true.
Proof.
  intros Hx Hy Hne. induction x as [|c x IH].
  - destruct y as [|d y]; [contradiction|].
    change ([] ++ nl ++ d :: y) with (10%N :: d :: y). rewrite calm_cons.
    rewrite (calm_one_line _ Hy).
    unfold one_line in Hy. cbn [forallb] in Hy. apply andb_true_iff in Hy as [Hd _].
    apply negb_true_iff in Hd. rewrite Hd, andb_false_r. reflexivity.
  - unfold one_line in Hx. cbn [forallb] in Hx. apply andb_true_iff in Hx as [Hc Hx].
    apply negb_true_iff in Hc.
    change ((c :: x) ++ nl ++ y) with (c :: (x ++ nl ++ y)).
    destruct (x ++ nl ++ y) as [|d t] eqn:E.
    + destruct x; discriminate.
    + rewrite calm_cons, Hc. cbn [andb negb]. apply IH. exact Hx.
Qed.

(** The sections of a script, each behind a blank line. *)
Definition glue (sections : list jsstring) : jsstring :=
  concat (List.map (fun s => nl ++ nl ++ s) sections).

Lemma split_glued (intro : jsstring) (sections : list jsstring) (outro : jsstring) :
  calm intro = true -> List.Forall (fun s => calm s = true) sections -> one_line outro ->
  split_string (nl ++ nl) [] 0 (intro ++ glue sections ++ nl ++ nl ++ outro)
  = intro :: sections ++ [outro].
Proof.
  intros Hi Hs Ho. revert intro Hi.
  induction Hs as [|s sections Hs _ IH]; intros intro Hi.
  - cbn [glue List.map concat app]. rewrite split_blank by exact Hi.
    rewrite split_end by exact Ho. reflexivity.
  - unfold glue. cbn [List.map concat]. fold (glue sections).
    rewrite <- !app_assoc. rewrite split_blank by exact Hi.
    rewrite IH by exact Hs. reflexivity.
Qed.

Lemma splitScriptByRank_glued (intro : jsstring) (sections : list jsstring)
    (outro : jsstring) :
  calm intro = true -> List.Forall (fun s => calm s = true) sections -> one_line outro ->
  splitScriptByRank (intro ++ glue sections ++ nl ++ nl ++ outro)
  = mkSegments intro (omap rank_segment sections) outro.
Proof.
  intros Hi Hs Ho. unfold splitScriptByRank. cbv zeta.
  rewrite split_glued by assumption.
  cbn [nth List.tl]. rewrite List.removelast_last.
  replace (List.last (intro :: sections ++ [outro]) []) with outro; [reflexivity|].
  change (intro :: sections ++ [outro]) with ((intro :: sections) ++ [outro]).
  symmetry. apply List.last_last.
Qed.

(** ** What the template generator writes *)

Lemma yields_choose (options : list jsstring) :
  options <> [] -> yields (choose options) (fun s => In s options) (fun _ => False).
Proof.
  intros Hne o h. unfold choose, bind, pick, ret.
  eexists (Ok _), [_]. split; [reflexivity|]. cbn [outcome].
  apply nth_In. apply Nat.mod_upper_bound. destruct options; [contradiction|discriminate].
Qed.

Definition rankIntros (st : Style) (emoji : bool) (r : number) : list jsstring :=
  default [js "At number " ++ showNumber r ++ js "..."]
    (match st with
     | energetic => energeticIntros emoji
     | casual => casualIntros
     | professional => professionalIntros
     end (rank_key r)).

Definition descriptions (st : Style) (r : number) (title : jsstring) : list jsstring :=
  default [js "An impressive entry that deserves recognition."]
    (match st with
     | energetic => energeticDescriptions (cleanTitle title)
     | casual => casualDescriptions (cleanTitle title)
     | professional => professionalDescriptions (cleanTitle title)
     end (rank_key r)).

(** The section written for an item: one of the introductions of its
    rank, a line feed, and its description, or one of the descriptions of its
    rank when it has none. *)
Definition section_of (st : Style) (emoji : bool) (item : RankingItem)
    (section : jsstring) : Prop :=
  exists rankIntro text,
    section = rankIntro ++ nl ++ text
    /\ In rankIntro (rankIntros st emoji (rank item))
    /\ (description item = Some text /\ nonempty (trim text) = true
        \/ In text (descriptions st (rank item) (titleOrName item))).

Lemma rankIntros_nonempty st emoji r : rankIntros st emoji r <> [].
Proof.
  unfold rankIntros, energeticIntros, casualIntros, professionalIntros.
  destruct st; destruct (rank_key r) as [|p|p]; cbn; try discriminate;
    repeat (destruct p as [p|p|]; cbn; try discriminate).
Qed.

Lemma descriptions_nonempty st r title : descriptions st r title <> [].
Proof.
  unfold descriptions, energeticDescriptions, casualDescriptions, professionalDescriptions.
  destruct st; destruct (rank_key r) as [|p|p]; cbn; try discriminate;
    repeat (destruct p as [p|p|]; cbn; try discriminate).
Qed.

Lemma yields_rankingSections (items : list RankingItem) (st : Style) (emoji : bool)
    (written : jsstring) :
  yields (rankingSections items st emoji written)
    (fun s => exists sections,
                s = written ++ glue sections
                /\ List.Forall2 (section_of st emoji) items sections)
    (fun _ => False).
Proof.
  revert written. induction items as [|item rest IH]; intros written; cbn [rankingSections].
  - apply yields_ret. exists []. split; [cbn; rewrite app_nil_r; reflexivity|constructor].
  - eapply yields_bind; [apply (yields_choose (rankIntros st emoji (rank item)));
                         apply rankIntros_nonempty|].
    intros rankIntro Hintro.
    eapply yields_bind with
      (P1 := fun text => description item = Some text /\ nonempty (trim text) = true
                         \/ In text (descriptions st (rank item) (titleOrName item))).
    + destruct (description item) as [d|] eqn:Ed.
      * destruct (nonempty (trim d)) eqn:En.
        -- apply yields_ret. left. split; [reflexivity|exact En].
        -- eapply yields_weaken;
             [apply (yields_choose (descriptions st (rank item) (titleOrName item)));
              apply descriptions_nonempty| |]; cbv beta; auto.
      * eapply yields_weaken;
          [apply (yields_choose (descriptions st (rank item) (titleOrName item)));
           apply descriptions_nonempty| |]; cbv beta; auto.
    + intros text Htext. eapply yields_weaken; [apply IH| |]; cbv beta; [|auto].
      intros s (sections & -> & Hsec). exists ((rankIntro ++ nl ++ text) :: sections).
      split.
      * unfold glue. cbn [List.map concat]. rewrite <- !app_assoc. reflexivity.
      * constructor; [|exact Hsec]. exists rankIntro, text. auto.
Qed.

Definition topicText (topic : option jsstring) : jsstring :=
  match topic with
  | Some (c :: t) => js " " ++ c :: t
  | _ => js " clips"
  end.

(** The script of the template generator: an introduction, the sections of
    the items behind a blank line each, and an ending behind a blank line. *)
Lemma yields_generateTemplateScript (items : list RankingItem) (topic : option jsstring)
    (st : Style) (emoji : bool) :
  yields (generateTemplateScript items topic st emoji)
    (fun script => exists intro sections outro,
       script = intro ++ glue sections ++ nl ++ nl ++ outro
       /\ In intro (intros (topicText topic) emoji st)
       /\ List.Forall2 (section_of st emoji) items sections
       /\ In (nl ++ nl ++ outro) (outros emoji st))
    (fun _ => False).
Proof.
  unfold generateTemplateScript. cbv zeta. fold (topicText topic).
  eapply yields_bind; [apply (yields_choose (intros (topicText topic) emoji st));
                       destruct st; discriminate|].
  intros intro Hintro.
  eapply yields_bind; [apply yields_rankingSections|].
  cbv beta. intros s (sections & -> & Hsec).
  eapply yields_bind; [apply (yields_choose (outros emoji st)); destruct st; discriminate|].
  intros outro Houtro. apply yields_ret.
  assert (Hnl : exists body, outro = nl ++ nl ++ body).
  { destruct st; cbn [outros In] in Houtro;
      repeat (destruct Houtro as [<-|Houtro]; [eexists; reflexivity|]);
      destruct Houtro. }
  destruct Hnl as (body & ->).
  exists intro, sections, body. cbn [app]. auto.
Qed.

(** ** The energetic style: every section is found again *)

Ltac each_option H tac :=
  repeat (destruct H as [<-|H]; [tac|]); destruct H.

Lemma rank_key_range (r : number) :
  rank_key r <> 0 ->
  rank_key r = 1 \/ rank_key r = 2 \/ rank_key r = 3 \/ rank_key r = 4 \/ rank_key r = 5.
Proof.
  unfold rank_key. destruct (toZ r) as [z|]; [|contradiction].
  destruct (Z.leb_spec 1 z), (Z.leb_spec z 5); cbn [andb]; intros Hk; try contradiction.
  lia.
Qed.

Lemma energetic_rank_found (emoji : bool) (r : number) (rankIntro text : jsstring) :
  rank_key r <> 0 -> In rankIntro (rankIntros energetic emoji r) ->
  rank_segment (rankIntro ++ nl ++ text) = Some (rank_key r, rankIntro ++ nl ++ text).
Proof.
  unfold rankIntros. intros Hkey Hin.
  destruct (rank_key_range r Hkey) as [E|[E|[E|[E|E]]]]; rewrite E in *;
    destruct emoji; cbn [default glyph In energeticIntros] in Hin;
    each_option Hin ltac:(vm_compute; reflexivity).
Qed.

Lemma one_line_app (a b : jsstring) : one_line a -> one_line b -> one_line (a ++ b).
Proof. unfold one_line. intros Ha Hb. rewrite forallb_app, Ha, Hb. reflexivity. Qed.

Lemma replace_tail_keeps (P : N -> bool) (class : N -> bool) (s : jsstring) :
  forallb P s = true -> forallb P (replace_tail class [] s) = true.
Proof.
  induction s as [|c s IH]; [reflexivity|]. cbn [forallb replace_tail].
  intros H. apply andb_true_iff in H as [Hc Hs].
  destruct ((c =? dot)%N && nonempty s && forallb class s); [reflexivity|].
  cbn [forallb]. rewrite Hc, (IH Hs). reflexivity.
Qed.

(** Cleaning a title brings in nothing but spaces. *)
Lemma cleanTitle_keeps (P : N -> bool) (title : jsstring) :
  P 32%N = true -> forallb P title = true -> forallb P (cleanTitle title) = true.
Proof.
  intros Hspace H. unfold cleanTitle. rewrite forallb_forall. intros x Hx.
  apply in_map_iff in Hx as (c & <- & Hc).
  destruct ((c =? 45) || (c =? 95))%N; [exact Hspace|].
  pose proof (replace_tail_keeps P (fun x => negb ((x =? 47) || (x =? 46))%N) title H) as Hk.
  rewrite forallb_forall in Hk. exact (Hk c Hc).
Qed.

Lemma app_nonempty_l (a b : jsstring) : a <> [] -> a ++ b <> [].
Proof. intros Ha H. apply app_eq_nil in H as [H _]. contradiction. Qed.

Lemma app_nonempty_r (a b : jsstring) : b <> [] -> a ++ b <> [].
Proof. intros Hb H. apply app_eq_nil in H as [_ H]. contradiction. Qed.

Ltac worded :=
  first [ apply app_nonempty_l; vm_compute; discriminate
        | apply app_nonempty_r; vm_compute; discriminate
        | apply app_nonempty_r; apply app_nonempty_l; vm_compute; discriminate ].

Lemma one_line_rankIntro (st : Style) (emoji : bool) (r : number) (x : jsstring) :
  rank_key r <> 0 -> In x (rankIntros st emoji r) -> one_line x.
Proof.
  unfold rankIntros. intros Hkey Hin.
  destruct (rank_key_range r Hkey) as [E|[E|[E|[E|E]]]]; rewrite E in *;
    destruct st, emoji;
    cbn [default glyph In energeticIntros casualIntros professionalIntros] in Hin;
    each_option Hin ltac:(vm_compute; reflexivity).
Qed.

Lemma one_line_description (st : Style) (r : number) (title x : jsstring) :
  rank_key r <> 0 -> one_line title -> In x (descriptions st r title) ->
  one_line x /\ x <> [].
Proof.
  unfold descriptions. intros Hkey Htitle Hin.
  assert (Hclean : forallb (fun c => negb (c =? 10)%N) (cleanTitle title) = true)
    by (apply cleanTitle_keeps; [reflexivity|exact Htitle]).
  destruct (rank_key_range r Hkey) as [E|[E|[E|[E|E]]]]; rewrite E in *;
    destruct st;
    cbn [default In energeticDescriptions casualDescriptions professionalDescriptions] in Hin;
    each_option Hin ltac:(split; [unfold one_line; rewrite ?forallb_app, Hclean; vm_compute; reflexivity
                            |worded]).
Qed.

Lemma one_line_topicText (topic : option jsstring) :
  (forall t, topic = Some t -> one_line t) -> one_line (topicText topic).
Proof.
  intros H. unfold topicText. destruct topic as [[|c t]|]; try reflexivity.
  apply (one_line_app (js " ") (c :: t)); [reflexivity|]. apply H. reflexivity.
Qed.

Lemma one_line_intro (topic : option jsstring) (emoji : bool) (st : Style) (x : jsstring) :
  (forall t, topic = Some t -> one_line t) ->
  In x (intros (topicText topic) emoji st) -> one_line x.
Proof.
  intros Htopic Hin. pose proof (one_line_topicText topic Htopic) as Ht.
  unfold one_line in Ht.
  destruct st, emoji; cbn [intros In glyph] in Hin;
    each_option Hin ltac:(unfold one_line; rewrite ?forallb_app, Ht; vm_compute; reflexivity).
Qed.

Lemma one_line_outro (emoji : bool) (st : Style) (body : jsstring) :
  In (nl ++ nl ++ body) (outros emoji st) -> one_line body.
Proof.
  intros Hin.
  destruct st, emoji; cbn [outros In glyph] in Hin;
    repeat (destruct Hin as [E|Hin];
            [apply app_inv_head in E; apply app_inv_head in E; subst body;
             vm_compute; reflexivity|]);
    destruct Hin.
Qed.

(** An item with a whole rank from 1 to 5 whose title and description hold
    no line feed. *)
Definition presentable (item : RankingItem) : Prop :=
  rank_key (rank item) <> 0
  /\ one_line (titleOrName item)
  /\ forall d, description item = Some d -> one_line d.

Lemma nonblank (text : jsstring) : nonempty (trim text) = true -> text <> [].
Proof. intros H ->. discriminate. Qed.

Lemma section_calm (st : Style) (emoji : bool) (item : RankingItem) (section : jsstring) :
  presentable item -> section_of st emoji item section -> calm section = true.
Proof.
  intros (Hkey & Htitle & Hdesc) (rankIntro & text & -> & Hintro & Htext).
  pose proof (one_line_rankIntro st emoji _ _ Hkey Hintro) as H1.
  destruct Htext as [[Hd Hne]|Hin].
  - apply calm_two_lines; [exact H1|exact (Hdesc _ Hd)|exact (nonblank _ Hne)].
  - destruct (one_line_description st _ _ _ Hkey Htitle Hin) as [H2 Hne].
    apply calm_two_lines; assumption.
Qed.

Lemma sections_calm (st : Style) (emoji : bool) (items : list RankingItem)
    (sections : list jsstring) :
  List.Forall presentable items -> List.Forall2 (section_of st emoji) items sections ->
  List.Forall (fun s => calm s = true) sections.
Proof.
  intros Hitems Hsec. induction Hsec as [|item section items sections H _ IH];
    [constructor|].
  inversion Hitems as [|? ? Hitem Hrest]; subst.
  constructor; [exact (section_calm st emoji item section Hitem H)|exact (IH Hrest)].
Qed.

Lemma energetic_sections_found (emoji : bool) (items : list RankingItem)
    (sections : list jsstring) :
  List.Forall presentable items -> List.Forall2 (section_of energetic emoji) items sections ->
  omap rank_segment sections
  = List.map (fun p => (rank_key (rank (fst p)), snd p)) (List.combine items sections).
Proof.
  intros Hitems Hsec. induction Hsec as [|item section items sections H _ IH];
    [reflexivity|].
  inversion Hitems as [|? ? (Hkey & _) Hrest]; subst.
  destruct H as (rankIntro & text & -> & Hintro & _).
  cbn [omap list_omap List.combine List.map fst snd].
  rewrite (energetic_rank_found emoji _ _ text Hkey Hintro).
  fold (omap rank_segment sections). rewrite (IH Hrest). reflexivity.
Qed.

Lemma combine_second {A B} (l : list A) (l' : list B) :
  List.length l = List.length l' -> List.map (fun p => snd p) (List.combine l l') = l'.
Proof.
  revert l'. induction l as [|x l IH]; intros [|y l'] H; try discriminate; [reflexivity|].
  cbn. f_equal. apply IH. injection H as H. exact H.
Qed.

Lemma combine_first {A B C} (f : A -> C) (l : list A) (l' : list B) :
  List.length l = List.length l' ->
  List.map (fun p => f (fst p)) (List.combine l l') = List.map f l.
Proof.
  revert l'. induction l as [|x l IH]; intros [|y l'] H; try discriminate; [reflexivity|].
  cbn. f_equal. apply IH. injection H as H. exact H.
Qed.

(** A script written in the energetic style splits back into what it was
    made of: the sections found are the sections of the items, one for each
    item and in their order, each with the rank of its item, and the
    introduction, the sections and the ending, put together with blank lines,
    are the script.  The items have whole ranks from 1 to 5 and, like the
    topic, texts without line feeds. *)
Theorem energetic_script_splits_back (items : list RankingItem) (topic : option jsstring)
    (emoji : bool) :
  List.Forall presentable items -> (forall t, topic = Some t -> one_line t) ->
  yields (generateTemplateScript items topic energetic emoji)
    (fun script =>
       let parts := splitScriptByRank script in
       script = segment_intro parts ++ glue (List.map snd (segment_ranks parts))
                ++ nl ++ nl ++ segment_outro parts
       /\ List.map fst (segment_ranks parts)
          = List.map (fun item => rank_key (rank item)) items)
    (fun _ => False).
Proof.
  intros Hitems Htopic.
  eapply yields_weaken; [apply yields_generateTemplateScript| |auto].
  cbv beta. intros script (intro & sections & outro & -> & Hintro & Hsec & Houtro).
  cbv zeta. rewrite splitScriptByRank_glued.
  - cbn [segment_intro segment_ranks segment_outro].
    rewrite (energetic_sections_found emoji items sections Hitems Hsec).
    assert (Hlen : List.length items = List.length sections)
      by (clear -Hsec; induction Hsec; cbn; congruence).
    rewrite !List.map_map. cbn [fst snd].
    rewrite (combine_second items sections Hlen).
    rewrite (combine_first (fun item => rank_key (rank item)) items sections Hlen).
    split; reflexivity.
  - apply calm_one_line. exact (one_line_intro topic emoji energetic intro Htopic Hintro).
  - exact (sections_calm energetic emoji items sections Hitems Hsec).
  - exact (one_line_outro emoji energetic outro Houtro).
Qed.

Lemma energetic_script_splits_back_witness :
  yields (generateTemplateScript Samples.five_items None energetic true)
    (fun script =>
       let parts := splitScriptByRank script in
       script = segment_intro parts ++ glue (List.map snd (segment_ranks parts))
                ++ nl ++ nl ++ segment_outro parts
       /\ List.map fst (segment_ranks parts)
          = List.map (fun item => rank_key (rank item)) Samples.five_items)
    (fun _ => False).
Proof.
  apply energetic_script_splits_back.
  - repeat constructor; try (vm_compute; discriminate); try (vm_compute; reflexivity);
      intros d Hd; discriminate Hd.
  - intros t Ht. discriminate Ht.
Defined.

(** ** The professional style: no section is found *)












End Segments.

(** * What the pipeline reports *)

Section PipelineOutcome.
Import JS VideoProcessor.


#[local] Hint Resolve emits_any_normalizeAll emits_any_overlayAll
  emits_any_replaceVideoAudio emits_any_getVideoInfo emits_any_runFFmpeg : emits.

Lemma emits_any_concatenateVideos (inputPaths : list jsstring) (out dir : jsstring) :
  emits any_call (concatenateVideos inputPaths out dir).
Proof. unfold concatenateVideos. emit. Qed.

Lemma emits_any_mixVideoAudio (v a out : jsstring) (x y : option number) :
  emits any_call (mixVideoAudio v a out x y).
Proof. unfold mixVideoAudio. emit. Qed.

#[local] Hint Resolve emits_any_concatenateVideos emits_any_mixVideoAudio : emits.


(** What is returned for a step that threw. *)
Definition failed (result : ProcessingResult) : Prop :=
  success result = false
  /\ outputPath result = []
  /\ result_duration result = ofZ 0
  /\ resolution result = []
  /\ exists msg, error result = Some msg.


End PipelineOutcome.

(** * What is sent to the speech API *)

Section Requests.
Import JS TtsService.

(** The texts sent for synthesis by the calls of a run, in the order in
    which they were sent. *)
Definition sent (new : history) : list jsstring :=
  omap (fun c => match c with
                 | Fetch _ _ (Inputs text) => Some text
                 | _ => None
                 end) (rev new).

Lemma sent_app (later earlier : history) : sent (later ++ earlier) = sent earlier ++ sent later.
Proof. unfold sent. rewrite rev_app_distr. apply omap_app. Qed.

Lemma sent_local (new : history) : forallb local_call new = true -> sent new = [].
Proof.
  unfold sent. intros H. rewrite forallb_forall in H.
  assert (Hrev : forall c, In c (rev new) -> local_call c = true)
    by (intros c Hc; apply H, in_rev, Hc).
  clear H. induction (rev new) as [|c l IH]; [reflexivity|].
  cbn [omap list_omap]. pose proof (Hrev c (or_introl eq_refl)) as Hc.
  destruct c; try discriminate Hc; apply IH; intros c' Hc'; apply Hrev; right; exact Hc'.
Qed.

Lemma runs_local {A} (o : oracle) (c : M A) :
  emits local_call c -> runs o c (fun _ new => sent new = []).
Proof.
  intros H. eapply runs_weaken; [apply H|]. cbv beta. intros r new. apply sent_local.
Qed.

Lemma sent_generateHuggingFaceChunk (text outputPath model apiKey : jsstring) (o : oracle) :
  runs o (generateHuggingFaceChunk text outputPath model apiKey)
    (fun _ new => sent new = [text]).
Proof.
  intros h. unfold generateHuggingFaceChunk, bind, fetch.
  destruct (on_fetch o h (hf_apiUrl ++ js "/" ++ model) apiKey (Inputs text))
    as [e|ok status body].
  - eexists _, [_]. split; reflexivity.
  - destruct ok; cbn [negb].
    + unfold writeFile. eexists _, [_; _]. split; reflexivity.
    + unfold ask, throw. eexists _, [_]. split; reflexivity.
Qed.

Lemma sent_generate_chunks (chunks : list jsstring) (outputPath model apiKey : jsstring)
    (o : oracle) :
  forall i,
    runs o (generate_chunks i chunks outputPath model apiKey)
      (fun r new => match r with
                    | Ok _ => sent new = chunks
                    | Throw _ => sent new `prefix_of` chunks
                    end).
Proof.
  induction chunks as [|chunk rest IH]; intros i; cbn [generate_chunks].
  - apply runs_ret. reflexivity.
  - cbv zeta. eapply runs_bind; [apply sent_generateHuggingFaceChunk| |].
    + intros u new1 H1. eapply runs_bind; [apply IH| |].
      * intros paths new2 H2. apply runs_ret. cbn [app].
        rewrite sent_app, H1, H2. reflexivity.
      * intros e new2 H2. rewrite sent_app, H1. cbn [app].
        apply prefix_cons. exact H2.
    + intros e new1 H1. rewrite H1. apply prefix_cons, prefix_nil.
Qed.

Lemma emits_local_concatenateAudioFiles (inputPaths : list jsstring) (outputPath : jsstring) :
  emits local_call (concatenateAudioFiles inputPaths outputPath).
Proof. unfold concatenateAudioFiles. emit. Qed.

(** With its API key the Hugging Face backend sends the text chunk by
    chunk: the texts of its requests are, in their order, the first chunks of
    the text, and all the chunks when the result is the backend's own.
    Nothing that is not a chunk is ever sent, and the mock that takes over
    after a failure sends nothing. *)
Theorem speech_requests_are_the_chunks (env : gmap jsstring jsstring)
    (text outputPath apiKey : jsstring) (options : TTSOptions) (o : oracle) :
  env_get env "HUGGINGFACE_API_KEY" = Some apiKey ->
  runs o (generateHuggingFaceTTS env text outputPath options)
    (fun r new =>
       sent new `prefix_of` splitTextIntoChunks text maxCharsPerChunk
       /\ forall result,
            r = Ok result -> service result = js "huggingface" ->
            sent new = splitTextIntoChunks text maxCharsPerChunk).
Proof.
  intros Hkey. unfold generateHuggingFaceTTS. rewrite Hkey. cbv zeta.
  set (chunks := splitTextIntoChunks text maxCharsPerChunk).
  set (model := default hf_defaultModel (env_get env "HUGGINGFACE_TTS_MODEL")).
  eapply runs_try_catch with
    (Q1 := fun r new => match r with
                        | Ok result => sent new = chunks
                        | Throw _ => sent new `prefix_of` chunks
                        end).
  - eapply runs_bind with
      (Q1 := fun r new => match r with
                          | Ok _ => sent new = chunks
                          | Throw _ => sent new `prefix_of` chunks
                          end).
    + destruct chunks as [|chunk [|chunk' rest]] eqn:E.
      * eapply runs_bind; [apply (sent_generate_chunks [])| |].
        -- intros paths new1 H1. eapply runs_bind;
             [apply runs_local, emits_local_concatenateAudioFiles| |].
           ++ intros u2 new2 H2. eapply runs_weaken.
              ** apply runs_local. emit.
              ** cbv beta. intros [[]|e] new3 H3; rewrite !sent_app, H1, H2, H3;
                   [reflexivity|apply prefix_nil].
           ++ intros e new2 H2. rewrite sent_app, H1, H2. apply prefix_nil.
        -- intros e new1 H1. exact H1.
      * eapply runs_weaken; [apply sent_generateHuggingFaceChunk|].
        cbv beta. intros [[]|e] new H; rewrite H; reflexivity.
      * eapply runs_bind; [apply (sent_generate_chunks (chunk :: chunk' :: rest))| |].
        -- intros paths new1 H1. eapply runs_bind;
             [apply runs_local, emits_local_concatenateAudioFiles| |].
           ++ intros u2 new2 H2. eapply runs_weaken.
              ** apply runs_local. emit.
              ** cbv beta. intros [[]|e] new3 H3; rewrite !sent_app, H1, H2, H3;
                   rewrite ?app_nil_r; reflexivity.
           ++ intros e new2 H2. rewrite sent_app, H1, H2, app_nil_r. reflexivity.
        -- intros e new1 H1. exact H1.
    + intros u new1 H1. apply runs_ret. cbn [app]. exact H1.
    + intros e new1 H1. exact H1.
  - intros result new1 H1. rewrite H1. split; [reflexivity|]. intros; reflexivity.
  - intros e new1 H1 h.
    destruct (emits_generateMockTTS text outputPath o h) as (r & new2 & E & Hlocal).
    exists r, new2. split; [exact E|].
    rewrite sent_app, (sent_local _ Hlocal), app_nil_r. split; [exact H1|].
    intros result -> Hservice. exfalso.
    apply mock_result in E as [Hmock _]. rewrite Hmock in Hservice. discriminate Hservice.
Qed.

Lemma speech_requests_are_the_chunks_witness :
  runs Samples.quiet
    (generateHuggingFaceTTS {[ js "HUGGINGFACE_API_KEY" := js "hf_key" ]}
       (js "five great clips") (js "/tmp/job/voiceover.mp3") (mkOptions None None None))
    (fun r new =>
       sent new `prefix_of` splitTextIntoChunks (js "five great clips") maxCharsPerChunk
       /\ forall result,
            r = Ok result -> service result = js "huggingface" ->
            sent new = splitTextIntoChunks (js "five great clips") maxCharsPerChunk).
Proof.
  apply (speech_requests_are_the_chunks _ _ _ (js "hf_key")). vm_compute. reflexivity.
Defined.

(** ** Chunk files for an output path without an extension *)

Lemma generate_chunks_same_path (chunks : list jsstring) (outputPath model apiKey : jsstring)
    (o : oracle) :
  forallb no_dot outputPath = true ->
  forall i,
    runs o (generate_chunks i chunks outputPath model apiKey)
      (fun r _ => forall paths,
                    r = Ok paths -> paths = repeat outputPath (List.length chunks)).
Proof.
  intros Hdot. induction chunks as [|chunk rest IH]; intros i; cbn [generate_chunks].
  - apply runs_ret. intros paths [= <-]. reflexivity.
  - cbv zeta. rewrite (replace_extension_no_dot _ _ Hdot).
    eapply runs_bind with (Q1 := fun _ _ => True).
    + eapply runs_weaken; [apply sent_generateHuggingFaceChunk|]. auto.
    + intros u new1 _. eapply runs_bind; [apply IH| |].
      * intros paths new2 H2. apply runs_ret. intros paths' [= <-].
        cbn [List.length repeat]. f_equal. apply H2. reflexivity.
      * intros e new2 _ paths E. discriminate E.
    + intros e new1 _ paths E. discriminate E.
Qed.

Lemma unlink_all_last (p : jsstring) (n : nat) (o : oracle) :
  runs o (for_each (repeat p (S n)) (fun q => swallow (unlink q)))
    (fun r new => r = Ok tt /\ exists earlier, new = Unlink p :: earlier).
Proof.
  induction n as [|n IH].
  - intros h. cbn [repeat for_each]. unfold bind, swallow, try_catch, unlink, ret.
    exists (Ok tt), [Unlink p]. destruct (on_unlink o h p) as [[]|e]; cbn; eauto.
  - change (repeat p (S (S n))) with (p :: repeat p (S n)). cbn [for_each].
    eapply runs_bind with (Q1 := fun r _ => r = Ok tt).
    + intros h. unfold swallow, try_catch, unlink, ret.
      exists (Ok tt), [Unlink p]. destruct (on_unlink o h p) as [[]|e]; cbn; auto.
    + intros u new1 _. eapply runs_weaken; [apply IH|]. cbv beta.
      intros r new2 [-> (earlier & ->)]. split; [reflexivity|].
      exists (earlier ++ new1). reflexivity.
    + intros e new1 E. discriminate E.
Qed.

(** When the output path holds no dot, the chunk files of a text of two or
    more chunks are all the output path itself, so that removing the chunk
    files removes the output: whenever the backend returns its own result,
    for the output path, the last thing it did was to unlink that path. *)
Theorem chunks_without_extension_unlink_the_output (env : gmap jsstring jsstring)
    (text outputPath apiKey : jsstring) (options : TTSOptions) (o : oracle) :
  env_get env "HUGGINGFACE_API_KEY" = Some apiKey ->
  forallb no_dot outputPath = true ->
  (2 <= List.length (splitTextIntoChunks text maxCharsPerChunk))%nat ->
  runs o (generateHuggingFaceTTS env text outputPath options)
    (fun r new =>
       forall result,
         r = Ok result -> service result = js "huggingface" ->
         audioPath result = outputPath
         /\ exists earlier, new = Unlink outputPath :: earlier).
Proof.
  intros Hkey Hdot Hlen. unfold generateHuggingFaceTTS. rewrite Hkey. cbv zeta.
  set (model := default hf_defaultModel (env_get env "HUGGINGFACE_TTS_MODEL")).
  destruct (splitTextIntoChunks text maxCharsPerChunk) as [|chunk [|chunk' rest]] eqn:E;
    [cbn in Hlen; lia|cbn in Hlen; lia|].
  eapply runs_try_catch with
    (Q1 := fun r new => match r with
                        | Ok result => audioPath result = outputPath
                                       /\ exists earlier, new = Unlink outputPath :: earlier
                        | Throw _ => True
                        end).
  - eapply runs_bind with
      (Q1 := fun r new => match r with
                          | Ok _ => exists earlier, new = Unlink outputPath :: earlier
                          | Throw _ => True
                          end).
    + eapply runs_bind;
        [apply (generate_chunks_same_path (chunk :: chunk' :: rest) _ _ _ o Hdot)| |].
      * intros paths new1 H1. rewrite (H1 paths eq_refl).
        eapply runs_bind with (Q1 := fun _ _ => True).
        -- eapply runs_weaken; [apply emits_local_concatenateAudioFiles|]. auto.
        -- intros u2 new2 _. eapply runs_weaken; [apply unlink_all_last|]. cbv beta.
           intros r new3 [-> (earlier & ->)]. exists (earlier ++ new2 ++ new1).
           rewrite <- !app_assoc. reflexivity.
        -- intros e new2 _. exact I.
      * intros e new1 _. exact I.
    + intros u new1 (earlier & ->). apply runs_ret. cbn [app audioPath]. eauto.
    + intros e new1 _. exact I.
  - intros result new1 H result' [= <-] _. exact H.
  - intros e new1 _ h.
    destruct (emits_generateMockTTS text outputPath o h) as (r & new2 & Erun & _).
    exists r, new2. split; [exact Erun|].
    intros result -> Hservice. exfalso.
    apply mock_result in Erun as [Hmock _]. rewrite Hmock in Hservice. discriminate Hservice.
Qed.

Lemma chunks_without_extension_unlink_the_output_witness :
  runs Samples.quiet
    (generateHuggingFaceTTS {[ js "HUGGINGFACE_API_KEY" := js "hf_key" ]}
       (Samples.words 300 (js "word") (js " ")) (js "/tmp/job/voiceover")
       (mkOptions None None None))
    (fun r new =>
       forall result,
         r = Ok result -> service result = js "huggingface" ->
         audioPath result = js "/tmp/job/voiceover"
         /\ exists earlier, new = Unlink (js "/tmp/job/voiceover") :: earlier).
Proof.
  apply (chunks_without_extension_unlink_the_output _ _ _ (js "hf_key"));
    vm_compute; reflexivity.
Defined.

End Requests.

(** * The ranks kept by the page *)

Section PageRanks.
Import JS Page.

Lemma insert_sorted_permutation {A} (after : A -> A -> bool) (x : A) (l : list A) :
  Permutation (insert_sorted after x l) (x :: l).
Proof.
  induction l as [|y l IH]; cbn [insert_sorted]; [reflexivity|].
  destruct (after x y); [|reflexivity]. rewrite IH. apply perm_swap.
Qed.

Lemma sort_by_permutation {A} (after : A -> A -> bool) (l : list A) :
  Permutation (sort_by after l) l.
Proof.
  induction l as [|x l IH]; cbn [sort_by]; [reflexivity|].
  rewrite insert_sorted_permutation, IH. reflexivity.
Qed.

Lemma insert_sorted_ext {A} (f g : A -> A -> bool) (x : A) (l : list A) :
  (forall b, In b l -> f x b = g x b) -> insert_sorted f x l = insert_sorted g x l.
Proof.
  induction l as [|y l IH]; intros H; [reflexivity|]. cbn [insert_sorted].
  rewrite (H y) by (left; reflexivity). rewrite IH; [reflexivity|].
  intros b Hb. apply H. right. exact Hb.
Qed.

(** A sort only asks its comparator about the elements of the list. *)
Lemma sort_by_ext {A} (f g : A -> A -> bool) (l : list A) :
  (forall a b, In a l -> In b l -> f a b = g a b) -> sort_by f l = sort_by g l.
Proof.
  induction l as [|x l IH]; intros H; [reflexivity|]. cbn [sort_by].
  rewrite IH by (intros a b Ha Hb; apply H; right; assumption).
  apply insert_sorted_ext. intros b Hb. apply H; [left; reflexivity|right].
  eapply Permutation_in; [apply sort_by_permutation|exact Hb].
Qed.

Definition ranked (r : Z) : Prop := 1 <= r <= 5.

(** On the ranks 1 to 5 the order of their strings is the order of the
    numbers. *)
Lemma string_order_of_ranks (a b : Z) :
  ranked a -> ranked b -> string_lt (showZ b) (showZ a) = (0 <? - b - - a).
Proof.
  unfold ranked. intros Ha Hb.
  assert (Ea : a = 1 \/ a = 2 \/ a = 3 \/ a = 4 \/ a = 5) by lia.
  assert (Eb : b = 1 \/ b = 2 \/ b = 3 \/ b = 4 \/ b = 5) by lia.
  destruct Ea as [->|[->|[->|[->| ->]]]], Eb as [->|[->|[->|[->| ->]]]]; reflexivity.
Qed.

Lemma sorted_ranks (l : list Z) :
  Permutation l [1; 2; 3; 4; 5] ->
  sort_by (fun a b => string_lt (showZ b) (showZ a)) l = [1; 2; 3; 4; 5].
Proof.
  intros Hp.
  assert (Hin : forall a, In a l -> ranked a).
  { intros a Ha. apply (Permutation_in _ Hp) in Ha. unfold ranked. cbn in Ha. lia. }
  rewrite (sort_by_ext _ (fun a b => 0 <? Z.opp b - Z.opp a))
    by (intros a b Ha Hb; apply string_order_of_ranks; auto).
  set (s := sort_by (fun a b => 0 <? - b - - a) l).
  assert (Hs : Permutation s l) by apply (sort_by_perm Z.opp).
  assert (Heq : List.map Z.opp s = List.map Z.opp [1; 2; 3; 4; 5]).
  { apply descending_unique.
    - apply sorted_map, descending_strict; [|apply (sort_by_descending Z.opp)].
      eapply Permutation_NoDup;
        [apply Permutation_map; symmetry; etransitivity; [exact Hs|exact Hp]|].
      repeat constructor; cbn; lia.
    - repeat constructor; lia.
    - apply Permutation_map. etransitivity; [exact Hs|exact Hp]. }
  clearbody s. revert Heq. generalize [1; 2; 3; 4; 5]. clear.
  induction s as [|x s IH]; intros [|y t]; try discriminate; [reflexivity|].
  cbn [List.map]. intros [= Hx Ht]. f_equal; [lia|apply IH; exact Ht].
Qed.

Lemma counted_five (ranks : list Z) :
  List.length ranks = 5%nat -> counted 0 ranks = true -> ranks = [1; 2; 3; 4; 5].
Proof.
  destruct ranks as [|a [|b [|c [|d [|e [|f l]]]]]]; try discriminate. intros _.
  cbn [counted]. rewrite !andb_true_iff, !Z.eqb_eq. intros (-> & -> & -> & -> & -> & _).
  reflexivity.
Qed.

(** The check of the page, exactly: the ranks of the videos are the numbers
    1 to 5, each once. *)
Theorem hasValidRanks_iff (videos : list VideoFile) :
  hasValidRanks videos = true <-> Permutation (List.map rank videos) [1; 2; 3; 4; 5].
Proof.
  unfold hasValidRanks. cbv zeta. split.
  - rewrite !andb_true_iff, !Nat.eqb_eq. intros [[Hlen Hcount] _].
    rewrite <- (counted_five _ Hlen Hcount). symmetry. apply sort_by_permutation.
  - intros Hp. rewrite (sorted_ranks _ Hp). reflexivity.
Qed.

(** ** The ranks stay apart *)


Lemma ranked_listed (r : Z) : ranked r <-> In r [1; 2; 3; 4; 5].
Proof. unfold ranked. cbn. lia. Qed.






















Definition uploaded (i : string) (r : Z) : VideoFile :=
  mkVideoFile (js i) (Routes.mkFile (js "clip.mp4") [0%N]) (js "clip.mp4") [] r.

(** Five videos in the order in which they were added, re-ranked since. *)
Definition five_videos : list VideoFile :=
  [uploaded "a" 3; uploaded "b" 1; uploaded "c" 5; uploaded "d" 2; uploaded "e" 4].



End PageRanks.

(** * From the page to the routes *)

Section PageToRoutes.
Import JS Page.

Lemma rank_acceptable (r : Z) :
  ranked r -> flt (ofZ r) (ofZ 1) = false /\ fgt (ofZ r) (ofZ 5) = false.
Proof.
  unfold ranked. intros Hr.
  assert (E : r = 1 \/ r = 2 \/ r = 3 \/ r = 4 \/ r = 5) by lia.
  destruct E as [->|[->|[->|[->| ->]]]]; split; reflexivity.
Qed.

Lemma ranks_differ (a b : Z) :
  ranked a -> ranked b -> a <> b -> Routes.same_value_zero (ofZ a) (ofZ b) = false.
Proof.
  unfold ranked. intros Ha Hb Hne.
  assert (Ea : a = 1 \/ a = 2 \/ a = 3 \/ a = 4 \/ a = 5) by lia.
  assert (Eb : b = 1 \/ b = 2 \/ b = 3 \/ b = 4 \/ b = 5) by lia.
  destruct Ea as [->|[->|[->|[->| ->]]]], Eb as [->|[->|[->|[->| ->]]]];
    try reflexivity; contradiction.
Qed.

Lemma distinct_numbers (ranks : list Z) :
  List.NoDup ranks -> List.Forall ranked ranks ->
  ForallOrdPairs (fun x y => Routes.same_value_zero x y = false) (List.map ofZ ranks).
Proof.
  induction 1 as [|r ranks Hr Hn IH]; intros Hin; [constructor|].
  inversion Hin as [|? ? Hranked Hrest]; subst. cbn [List.map]. constructor; [|exact (IH Hrest)].
  rewrite List.Forall_forall in *. intros y Hy.
  apply in_map_iff in Hy as (b & <- & Hb).
  apply ranks_differ; [exact Hranked|exact (Hrest b Hb)|].
  intros ->. contradiction.
Qed.

Definition toItem (v : VideoFile) : ScriptGenerator.RankingItem :=
  ScriptGenerator.mkItem (ofZ (rank v)) (name v)
    (ScriptGenerator.truthy_string (Some (description v))).

(** A state that passes the page's check of the ranks passes the checks of
    the narration route as well, when no video has an empty identifier or an
    empty name: the route hands the videos to the generator, in the order of
    the state, with their ranks, their names as titles and their
    descriptions, if they have any. *)
Theorem valid_state_passes_script_route (videos : list VideoFile) :
  hasValidRanks videos = true ->
  List.Forall (fun v => id v <> [] /\ name v <> []) videos ->
  Routes.validateScriptRequest (scriptRequest videos)
  = Ok (inr (List.map toItem videos)).
Proof.
  intros Hvalid Hnamed.
  assert (Hp : Permutation (List.map rank videos) [1; 2; 3; 4; 5]).
  { unfold hasValidRanks in Hvalid. cbv zeta in Hvalid.
    rewrite !andb_true_iff, !Nat.eqb_eq in Hvalid. destruct Hvalid as [[Hlen Hcount] _].
    rewrite <- (counted_five _ Hlen Hcount). symmetry. apply sort_by_permutation. }
  assert (Hlen : List.length videos = 5%nat)
    by (rewrite <- (length_map rank), (Permutation_length Hp); reflexivity).
  assert (Hranked : List.Forall ranked (List.map rank videos)).
  { apply List.Forall_forall. intros r Hr. apply ranked_listed.
    exact (Permutation_in _ Hp Hr). }
  assert (Hnodup : List.NoDup (List.map rank videos)).
  { eapply Permutation_NoDup; [symmetry; exact Hp|]. repeat constructor; cbn; lia. }
  set (inputs := List.map
                   (fun v => Routes.mkInput (Routes.Str (id v)) (Routes.Str (name v))
                               (Routes.Num (ofZ (rank v)))
                               (ScriptGenerator.truthy_string (Some (description v))))
                   videos).
  assert (Ebody : Routes.videos (scriptRequest videos) = Some (List.map Some inputs))
    by (unfold scriptRequest, inputs; cbn [Routes.videos]; rewrite List.map_map; reflexivity).
  unfold Routes.validateScriptRequest. rewrite Ebody.
  rewrite length_map. unfold inputs at 1. rewrite length_map, Hlen. cbn [Nat.eqb negb].
  rewrite (proj2 (validateVideos_pass (List.map Some inputs))).
  - rewrite omap_id_Some.
    assert (Eranks : List.map Routes.rank_of inputs = List.map ofZ (List.map rank videos))
      by (unfold inputs; rewrite !List.map_map; reflexivity).
    rewrite Eranks, (set_size_full _ (distinct_numbers _ Hnodup Hranked)).
    rewrite !length_map, Hlen. cbn [Nat.eqb negb].
    unfold inputs. rewrite List.map_map. reflexivity.
  - exists inputs. split; [reflexivity|]. unfold inputs.
    rewrite List.Forall_forall in *. intros input Hin.
    apply in_map_iff in Hin as (v & <- & Hv). destruct (Hnamed v Hv) as [Hid Hname].
    destruct (rank_acceptable (rank v)) as [H1 H5]; [apply Hranked, in_map, Hv|].
    repeat split; cbn [Routes.tempId Routes.title Routes.rank]; eauto.
Qed.

Lemma valid_state_passes_script_route_witness :
  Routes.validateScriptRequest (scriptRequest five_videos)
  = Ok (inr (List.map toItem five_videos)).
Proof.
  apply valid_state_passes_script_route.
  - vm_compute. reflexivity.
  - repeat constructor; discriminate.
Defined.

Lemma sortedVideos_countdown (videos : list VideoFile) :
  Permutation (List.map rank videos) [1; 2; 3; 4; 5] ->
  List.map rank (sortedVideos videos) = [5; 4; 3; 2; 1].
Proof.
  intros Hp. unfold sortedVideos.
  assert (Hs : Permutation (sort_by (fun a b => 0 <? rank b - rank a) videos) videos)
    by apply (sort_by_perm rank).
  apply descending_unique.
  - apply sorted_map, descending_strict; [|apply (sort_by_descending rank)].
    eapply Permutation_NoDup;
      [symmetry; etransitivity; [apply Permutation_map; exact Hs|exact Hp]|].
    repeat constructor; cbn; lia.
  - repeat constructor; lia.
  - rewrite (Permutation_map rank Hs), Hp.
    change [5; 4; 3; 2; 1] with (rev [1; 2; 3; 4; 5]). apply Permutation_rev.
Qed.

Definition upload_of (index : Z) (v : VideoFile) : Routes.Upload :=
  Routes.mkUpload (file v) (rank v) index (description v).

Definition not_bad_request (response : Routes.HttpResponse) : Prop :=
  match response with
  | Routes.ErrorResponse status _ _ => status = 500
  | _ => True
  end.

Lemma emits_any_cleanupDirectory (dirPath : jsstring) :
  emits any_call (VideoProcessor.cleanupDirectory dirPath).
Proof. unfold VideoProcessor.cleanupDirectory. emit. Qed.

#[local] Hint Resolve emits_any_saveUploads emits_any_checkFFmpegAvailable
  emits_any_textToSpeech emits_any_processVideoPipeline emits_any_cleanupDirectory : emits.

(** A state that passes the page's check of the ranks passes the checks of
    the processing route as well, when no file is empty and the script is
    not empty: the route finds the script and five uploads, which are the
    files of the videos from rank 5 down to rank 1 with these ranks and the
    descriptions, and it never answers with a 400. *)
Theorem valid_state_passes_process_route (videos : list VideoFile)
    (editableScript rankingData boundary : jsstring) (env : gmap jsstring jsstring) :
  hasValidRanks videos = true ->
  List.Forall (fun v => Routes.file_bytes (file v) <> []) videos ->
  editableScript <> [] ->
  let request := processRequest videos editableScript rankingData boundary in
  (exists formData,
     Routes.form request = Some formData
     /\ Routes.texts formData !! js "finalScript" = Some editableScript
     /\ Routes.collectVideos formData
        = List.map (fun p => upload_of (fst p) (snd p))
            (List.combine [0; 1; 2; 3; 4] (sortedVideos videos))
     /\ List.map Routes.upload_rank (Routes.collectVideos formData) = [5; 4; 3; 2; 1])
  /\ yields (Routes.processVideoPOST env request) not_bad_request (fun _ => False).
Proof.
  intros Hvalid Hfiles Hscript.
  assert (Hp : Permutation (List.map rank videos) [1; 2; 3; 4; 5]).
  { unfold hasValidRanks in Hvalid. cbv zeta in Hvalid.
    rewrite !andb_true_iff, !Nat.eqb_eq in Hvalid. destruct Hvalid as [[Hlen Hcount] _].
    rewrite <- (counted_five _ Hlen Hcount). symmetry. apply sort_by_permutation. }
  pose proof (sortedVideos_countdown videos Hp) as Hranks.
  assert (Hsorted : List.Forall (fun v => Routes.file_bytes (file v) <> [])
                      (sortedVideos videos)).
  { rewrite List.Forall_forall in *. intros v Hv. apply Hfiles.
    eapply Permutation_in; [apply sort_by_permutation|exact Hv]. }
  cbv zeta. unfold processRequest. cbv zeta.
  destruct (sortedVideos videos) as [|a [|b [|c [|d [|e [|f l]]]]]]; try discriminate Hranks.
  destruct a as [ia [na ba] ma da ra], b as [ib [nb bb] mb db rb],
           c as [ic [nc bc] mc dc rc], d as [id' [nd bd] md dd rd],
           e as [ie [ne be] me de re].
  cbn [List.map rank] in Hranks. injection Hranks as -> -> -> -> ->.
  repeat match goal with
         | H : List.Forall _ (_ :: _) |- _ => inversion H; clear H; subst
         end.
  cbn [file Routes.file_bytes] in *.
  destruct ba as [|xa ba]; [contradiction|]. destruct bb as [|xb bb]; [contradiction|].
  destruct bc as [|xc bc]; [contradiction|]. destruct bd as [|xd bd]; [contradiction|].
  destruct be as [|xe be]; [contradiction|].
  destruct editableScript as [|s0 script]; [contradiction|].
  match goal with
  | |- context [Routes.mkProcessRequest _ (Some ?fd)] => set (formData := fd)
  end.
  assert (Hscript' : Routes.texts formData !! js "finalScript" = Some (s0 :: script))
    by (vm_compute; reflexivity).
  assert (Hcollect : Routes.collectVideos formData
                     = [ Routes.mkUpload (Routes.mkFile na (xa :: ba)) 5 0 da;
                         Routes.mkUpload (Routes.mkFile nb (xb :: bb)) 4 1 db;
                         Routes.mkUpload (Routes.mkFile nc (xc :: bc)) 3 2 dc;
                         Routes.mkUpload (Routes.mkFile nd (xd :: bd)) 2 3 dd;
                         Routes.mkUpload (Routes.mkFile ne (xe :: be)) 1 4 de ])
    by (vm_compute; reflexivity).
  split.
  - exists formData. split; [reflexivity|]. split; [exact Hscript'|].
    rewrite Hcollect. split; reflexivity.
  - unfold Routes.processVideoPOST.
    eapply yields_bind with (P1 := anything).
    { intros o h. eexists (Ok _), [_]. split; [reflexivity|exact I]. }
    intros jobId _. cbv zeta.
    eapply yields_try_catch with (E1 := anything).
    + eapply yields_bind with (P1 := anything);
        [unfold VideoProcessor.ensureDirectories; plain_step|]. intros _ _.
      eapply yields_bind with (P1 := anything); [plain_step|]. intros _ _.
      match goal with
      | |- context [negb (includes ?p ?s)] =>
          replace (includes p s) with true by (vm_compute; reflexivity)
      end.
      cbn [negb Routes.form]. rewrite Hscript'. cbn [ScriptGenerator.truthy_string].
      rewrite Hcollect. cbn [List.length Nat.eqb negb].
      yield; try reflexivity; exact I.
    + intros err _. cbv zeta.
      eapply yields_bind with (P1 := anything).
      { intros o. eapply runs_weaken; [apply runs_cleanupDirectory|].
        cbv beta. intros r new [-> _]. exact I. }
      intros _ _. apply yields_ret. reflexivity.
Qed.

Lemma valid_state_passes_process_route_witness :
  let request := processRequest five_videos (js "Five great clips.") (js "{}") (js "x") in
  (exists formData,
     Routes.form request = Some formData
     /\ Routes.texts formData !! js "finalScript" = Some (js "Five great clips.")
     /\ Routes.collectVideos formData
        = List.map (fun p => upload_of (fst p) (snd p))
            (List.combine [0; 1; 2; 3; 4] (sortedVideos five_videos))
     /\ List.map Routes.upload_rank (Routes.collectVideos formData) = [5; 4; 3; 2; 1])
  /\ yields (Routes.processVideoPOST ∅ request) not_bad_request (fun _ => False).
Proof.
  apply (valid_state_passes_process_route five_videos (js "Five great clips.") (js "{}")
           (js "x") ∅).
  - vm_compute. reflexivity.
  - repeat constructor; discriminate.
  - discriminate.
Defined.

End PageToRoutes.
